(** * MazeSolver_V1: a shallow embedding of [maze.py]

    The development models the three classes of [maze.py] that carry the
    algorithmic content of the program:

    - [Maze]          the grid of [MazeNode]s, with its start/end records;
    - [MazeSolver]    the step-wise greedy solver ([solve_step], [A_star],
                      [calculate_distance_to_end]);
    - [MazeGenerator] the recursive carver ([generate],
                      [_carve_passages_from]);

    and, of the two functions of the module, [draw_maze] as the list of the
    calls it makes on the screen, and the set-up and the test mode of [main].

    Python integers are [Z]; [float('inf')] is a separate constructor of
    [distance]; Python lists are Rocq lists indexed the way Python does it
    (negative indices count from the end, anything else out of range raises
    [IndexError]); the [set] of the breadth-first search is a [gset].
    Methods that may raise return an [outcome]; methods that mutate an object
    return the object after the call as well, also when they raise, because
    a Python exception does not undo the writes made before it. *)

From Stdlib Require Import ZArith Lia Ascii String.
From stdpp Require Import base tactics option list sets gmap strings numbers.

Local Open Scope Z_scope.

(** ** Python outcomes *)

Inductive exn : Type :=
| IndexError
| TypeError
| PyException (msg : string).

(** [raise Exception("No available directions to move.")] in [A_star]. *)
Definition NoAvailableMove : exn :=
  PyException "No available directions to move.".

Inductive outcome (A : Type) : Type :=
| Ok (a : A)
| Raise (e : exn)
| OutOfFuel.
Arguments Ok {A} a.
Arguments Raise {A} e.
Arguments OutOfFuel {A}.

Global Instance outcome_ret : MRet outcome := @Ok.
Global Instance outcome_bind : MBind outcome := λ A B f x,
  match x with
  | Ok a => f a
  | Raise e => Raise e
  | OutOfFuel => OutOfFuel
  end.

(** ** Python list indexing *)

(** [l[i]] for a list of length [len]: indices [0 .. len-1] address the list
    from the front, [-len .. -1] from the back, everything else is an
    [IndexError] (here: [None]). *)
Definition py_index (len i : Z) : option nat :=
  if bool_decide (0 ≤ i < len) then Some (Z.to_nat i)
  else if bool_decide (- len ≤ i < 0) then Some (Z.to_nat (len + i))
  else None.

Definition py_get {A} (l : list A) (i : Z) : outcome A :=
  match py_index (Z.of_nat (length l)) i with
  | Some n => match l !! n with Some x => Ok x | None => Raise IndexError end
  | None => Raise IndexError
  end.

(** [l[i][j] = f (l[i][j])], the write to one cell of a list of lists. *)
Definition py_update2 {A} (l : list (list A)) (i j : Z) (f : A → A)
  : outcome (list (list A)) :=
  match py_index (Z.of_nat (length l)) i with
  | Some n =>
      match l !! n with
      | Some row =>
          match py_index (Z.of_nat (length row)) j with
          | Some k =>
              match row !! k with
              | Some x => Ok (<[n := <[k := f x]> row]> l)
              | None => Raise IndexError
              end
          | None => Raise IndexError
          end
      | None => Raise IndexError
      end
  | None => Raise IndexError
  end.

Definition add_tuples (a b : Z * Z) : Z * Z := (a.1 + b.1, a.2 + b.2).
Arguments add_tuples : simpl never.

(** The literal [[(0, 1), (1, 0), (0, -1), (-1, 0)]] of the source. *)
Definition DIRS : list (Z * Z) := [(0, 1); (1, 0); (0, -1); (-1, 0)].

(** ** class MazeNode *)

Record MazeNode : Type := mkNode {
  traversable : bool;
  is_start : bool;
  is_end : bool;
  visited : bool
}.

Definition MazeNode_init (t : bool) : MazeNode :=
  {| traversable := t; is_start := false; is_end := false; visited := false |}.

Definition mark_start (n : MazeNode) : MazeNode :=
  {| traversable := traversable n; is_start := true;
     is_end := is_end n; visited := visited n |}.

Definition mark_end (n : MazeNode) : MazeNode :=
  {| traversable := traversable n; is_start := is_start n;
     is_end := true; visited := visited n |}.

Definition mark_visited (n : MazeNode) : MazeNode :=
  {| traversable := traversable n; is_start := is_start n;
     is_end := is_end n; visited := true |}.

(** ** class Maze *)

Record Maze : Type := mkMaze {
  maze : list (list MazeNode);
  rows : Z;
  cols : Z;
  start_node : option (Z * Z);
  end_node : option (Z * Z)
}.

Definition with_maze (m : Maze) (g : list (list MazeNode)) : Maze :=
  {| maze := g; rows := rows m; cols := cols m;
     start_node := start_node m; end_node := end_node m |}.

Definition with_start (m : Maze) (p : Z * Z) : Maze :=
  {| maze := maze m; rows := rows m; cols := cols m;
     start_node := Some p; end_node := end_node m |}.

Definition with_end (m : Maze) (p : Z * Z) : Maze :=
  {| maze := maze m; rows := rows m; cols := cols m;
     start_node := start_node m; end_node := Some p |}.

Definition create_maze (layout : list string) : list (list MazeNode) :=
  map (λ row, map (λ cell, MazeNode_init (negb (Ascii.eqb cell "#")))
                  (list_ascii_of_string row)) layout.

(** [Maze.__init__].  The constructor has no failing path: the only indexing,
    [self.maze[0]], is guarded by [self.rows > 0]. *)
Definition Maze_init (layout : list string) : outcome Maze :=
  let g := create_maze layout in
  let r := Z.of_nat (length g) in
  Ok {| maze := g;
        rows := r;
        cols := if bool_decide (r > 0)
                then match g with row :: _ => Z.of_nat (length row) | [] => 0 end
                else 0;
        start_node := None;
        end_node := None |}.

Definition in_bounds (m : Maze) (row col : Z) : bool :=
  bool_decide (0 ≤ row < rows m) && bool_decide (0 ≤ col < cols m).

(** [self.maze[row][col]]. *)
Definition get_node (m : Maze) (row col : Z) : outcome MazeNode :=
  r ← py_get (maze m) row; py_get r col.

(** [Maze.set_start]: the cell write comes first and is not guarded. *)
Definition set_start (m : Maze) (row col : Z) : outcome unit * Maze :=
  match py_update2 (maze m) row col mark_start with
  | Ok g =>
      let m' := with_maze m g in
      if in_bounds m' row col then (Ok (), with_start m' (row, col))
      else (Ok (), m')
  | Raise e => (Raise e, m)
  | OutOfFuel => (OutOfFuel, m)
  end.

Definition set_end (m : Maze) (row col : Z) : outcome unit * Maze :=
  match py_update2 (maze m) row col mark_end with
  | Ok g =>
      let m' := with_maze m g in
      if in_bounds m' row col then (Ok (), with_end m' (row, col))
      else (Ok (), m')
  | Raise e => (Raise e, m)
  | OutOfFuel => (OutOfFuel, m)
  end.

(** The test shared by [get_available_directions] and the inner loop of
    [calculate_distance_to_end]:
    [0 <= r < self.rows and 0 <= c < self.cols and self.maze[r][c].traversable].
    [and] short-circuits, so the cell is read only when the bounds hold. *)
Definition open_cell (m : Maze) (r c : Z) : outcome bool :=
  if in_bounds m r c then n ← get_node m r c; Ok (traversable n)
  else Ok false.

Definition get_available_directions (m : Maze) (row col : Z)
  : outcome (list (Z * Z)) :=
  foldl (λ acc d,
           directions ← acc;
           b ← open_cell m (row + d.1) (col + d.2);
           Ok (if b : bool then directions ++ [d] else directions))
        (Ok []) DIRS.

(** ** Distances: Python [int] or [float('inf')] *)

Inductive distance : Type :=
| Finite (d : Z)
| Infinity.

(** [a < b] on such values. *)
Definition distance_lt (a b : distance) : bool :=
  match a, b with
  | Finite x, Finite y => bool_decide (x < y)
  | Finite _, Infinity => true
  | Infinity, _ => false
  end.

(** ** class MazeSolver *)

Record MazeSolver : Type := mkSolver {
  s_maze : Maze;
  current_pos : option (Z * Z);
  facing : Z;
  solver : string
}.

Definition with_s_maze (s : MazeSolver) (m : Maze) : MazeSolver :=
  {| s_maze := m; current_pos := current_pos s;
     facing := facing s; solver := solver s |}.

Definition with_pos (s : MazeSolver) (p : Z * Z) : MazeSolver :=
  {| s_maze := s_maze s; current_pos := Some p;
     facing := facing s; solver := solver s |}.

(** [MazeSolver.__init__]: stores its arguments, checks nothing. *)
Definition MazeSolver_init (m : Maze) (strategy : string) : outcome MazeSolver :=
  Ok {| s_maze := m; current_pos := start_node m;
        facing := 0; solver := strategy |}.

(** *** calculate_distance_to_end *)

Definition entry : Type := (Z * Z) * Z.

(** One turn of the [for dr, dc in ...] loop: append the neighbour when it is
    open and not in the local [visited] set. *)
Definition bfs_push (m : Maze) (seen : gset (Z * Z)) (row col dist : Z)
    (acc : outcome (list entry)) (d : Z * Z) : outcome (list entry) :=
  queue ← acc;
  let new := (row + d.1, col + d.2) in
  b ← open_cell m new.1 new.2;
  Ok (if b && negb (bool_decide (new ∈ seen))
      then queue ++ [(new, dist + 1)] else queue).

(** The [while queue:] loop; [fuel] bounds the number of turns. *)
Fixpoint bfs_loop (fuel : nat) (m : Maze) (queue : list entry)
    (seen : gset (Z * Z)) : outcome distance :=
  match fuel with
  | O => OutOfFuel
  | S fuel' =>
      match queue with
      | [] => Ok Infinity
      | (pos, dist) :: queue' =>
          if bool_decide (Some pos = end_node m) then Ok (Finite dist)
          else if bool_decide (pos ∈ seen) then bfs_loop fuel' m queue' seen
          else
            let seen' := {[ pos ]} ∪ seen in
            queue'' ← foldl (bfs_push m seen' pos.1 pos.2 dist) (Ok queue') DIRS;
            bfs_loop fuel' m queue'' seen'
      end
  end.

(** Enough turns for any run of the loop: every turn pops one entry, and at
    most four entries are pushed per cell that enters [visited]. *)
Definition bfs_fuel (m : Maze) : nat :=
  S (S (5 * S (Z.to_nat (rows m) * Z.to_nat (cols m)))).

Definition calculate_distance_to_end (m : Maze) (start_row start_col : Z)
  : outcome distance :=
  bfs_loop (bfs_fuel m) m [((start_row, start_col), 0)] ∅.
Arguments calculate_distance_to_end : simpl never.

(** *** A_star, find_move, solve_step *)

(** One turn of [for direction in directions:], on the pair
    [(least_dist, best_move)]. *)
Definition A_star_scan (s : MazeSolver)
    (acc : outcome (distance * option (Z * Z))) (direction : Z * Z)
  : outcome (distance * option (Z * Z)) :=
  a ← acc;
  match current_pos s with
  | None => Raise TypeError
  | Some cur =>
      let new_pos := add_tuples cur direction in
      n ← get_node (s_maze s) new_pos.1 new_pos.2;
      if traversable n then
        distance_to_end ← calculate_distance_to_end (s_maze s) new_pos.1 new_pos.2;
        Ok (if distance_lt distance_to_end a.1
            then (distance_to_end, Some direction) else a)
      else Ok a
  end.

Definition A_star (s : MazeSolver) (row col : Z) : outcome unit * MazeSolver :=
  match get_available_directions (s_maze s) row col with
  | Ok directions =>
      match foldl (A_star_scan s) (Ok (Infinity, None)) directions with
      | Ok (_, Some best_move) =>
          match current_pos s with
          | Some cur => (Ok (), with_pos s (add_tuples cur best_move))
          | None => (Raise TypeError, s)
          end
      | Ok (_, None) => (Raise NoAvailableMove, s)
      | Raise e => (Raise e, s)
      | OutOfFuel => (OutOfFuel, s)
      end
  | Raise e => (Raise e, s)
  | OutOfFuel => (OutOfFuel, s)
  end.

Definition find_move (s : MazeSolver) (row col : Z) : outcome unit * MazeSolver :=
  if bool_decide (solver s = "A*"%string) then A_star s row col
  else (Ok (), s).

Definition solve_step (s : MazeSolver) : outcome bool * MazeSolver :=
  if bool_decide (current_pos s = end_node (s_maze s)) then (Ok true, s)
  else
    match current_pos s with
    | None => (Raise TypeError, s)
    | Some (row, col) =>
        match py_update2 (maze (s_maze s)) row col mark_visited with
        | Ok g =>
            let s1 := with_s_maze s (with_maze (s_maze s) g) in
            match find_move s1 row col with
            | (Ok _, s2) => (Ok false, s2)
            | (Raise e, s2) => (Raise e, s2)
            | (OutOfFuel, s2) => (OutOfFuel, s2)
            end
        | Raise e => (Raise e, s)
        | OutOfFuel => (OutOfFuel, s)
        end
    end.

(** The driver loop [while not solved: solved = solver.solve_step()], cut
    after [calls] calls.  [Ok n]: the [n]-th call returned [True]. *)
Fixpoint solve_loop (calls : nat) (s : MazeSolver) : outcome nat * MazeSolver :=
  match calls with
  | O => (OutOfFuel, s)
  | S calls' =>
      match solve_step s with
      | (Ok true, s') => (Ok 1%nat, s')
      | (Ok false, s') =>
          match solve_loop calls' s' with
          | (Ok n, s'') => (Ok (S n), s'')
          | r => r
          end
      | (Raise e, s') => (Raise e, s')
      | (OutOfFuel, s') => (OutOfFuel, s')
      end
  end.

(** The calls of [main] between the generator and the solver:
    [Maze(layout)], [set_start(1, 1)], [set_end(height - 2, width - 2)],
    [MazeSolver(maze, solver)]. *)
Definition main_setup (layout : list string) (width height : Z)
    (strategy : string) : outcome MazeSolver :=
  m ← Maze_init layout;
  let (r1, m1) := set_start m 1 1 in
  _ ← r1;
  let (r2, m2) := set_end m1 (height - 2) (width - 2) in
  _ ← r2;
  MazeSolver_init m2 strategy.

(** ** class MazeGenerator *)

Record MazeGenerator : Type := mkGen {
  g_maze : list (list ascii);
  width : Z;
  height : Z
}.

Definition with_g_maze (g : MazeGenerator) (x : list (list ascii)) : MazeGenerator :=
  {| g_maze := x; width := width g; height := height g |}.

Definition MazeGenerator_init (w h : Z) : MazeGenerator :=
  {| g_maze := replicate (Z.to_nat h) (replicate (Z.to_nat w) "#"%char);
     width := w; height := h |}.

(** [random.shuffle(directions)] is modelled by an oracle: the [k]-th call of
    [_carve_passages_from] iterates over [rnd k].  An outcome of the shuffles
    is an oracle all of whose values are permutations of [DIRS]. *)
Definition shuffles : Type := nat → list (Z * Z).

Definition shuffle_outcome (rnd : shuffles) : Prop := ∀ k, rnd k ≡ₚ DIRS.

(** One turn of [for dx, dy in directions:] in [_carve_passages_from], at
    [(cx, cy)]; [recurse] is the recursive call.  The state threaded through
    the calls is the generator and the number of shuffles drawn so far. *)
Definition carve_direction
    (recurse : MazeGenerator → nat → Z → Z → outcome (MazeGenerator * nat))
    (cx cy : Z) (acc : outcome (MazeGenerator * nat)) (d : Z * Z)
  : outcome (MazeGenerator * nat) :=
  st ← acc;
  let g := st.1 in
  let nx := cx + d.1 * 2 in
  let ny := cy + d.2 * 2 in
  if bool_decide (0 ≤ nx < width g) && bool_decide (0 ≤ ny < height g)
  then
    row ← py_get (g_maze g) ny;
    c ← py_get row nx;
    if Ascii.eqb c "#" then
      m1 ← py_update2 (g_maze g) (cy + d.2) (cx + d.1) (λ _, " "%char);
      m2 ← py_update2 m1 ny nx (λ _, " "%char);
      recurse (with_g_maze g m2) st.2 nx ny
    else Ok st
  else Ok st.

(** [_carve_passages_from]; [fuel] bounds the depth of the recursion. *)
Fixpoint carve_passages_from (fuel : nat) (rnd : shuffles)
    (g : MazeGenerator) (k : nat) (cx cy : Z) : outcome (MazeGenerator * nat) :=
  match fuel with
  | O => OutOfFuel
  | S fuel' =>
      foldl (carve_direction (carve_passages_from fuel' rnd) cx cy)
            (Ok (g, S k)) (rnd k)
  end.

(** Every recursive call follows the carving of a cell that was a wall, so
    the depth never exceeds the number of cells ([generate_returns]). *)
Definition carve_fuel (g : MazeGenerator) : nat :=
  S (Z.to_nat (width g) * Z.to_nat (height g)).

(** [MazeGenerator.generate]: the layout returned, and the generator after
    the call. *)
Definition generate (rnd : shuffles) (g : MazeGenerator)
  : outcome (list string * MazeGenerator) :=
  st ← carve_passages_from (carve_fuel g) rnd g 0 1 1;
  m1 ← py_update2 (g_maze st.1) 1 1 (λ _, "S"%char);
  m2 ← py_update2 m1 (height g - 2) (width g - 2) (λ _, "E"%char);
  Ok (map string_of_list_ascii m2, with_g_maze st.1 m2).

(** ** draw_maze *)

Definition color : Type := Z * Z * Z.

Definition WHITE : color := (255, 255, 255).
Definition BLACK : color := (0, 0, 0).
Definition GRAY : color := (128, 128, 128).
Definition RED : color := (255, 0, 0).
Definition GREEN : color := (0, 255, 0).
Definition BLUE : color := (0, 0, 255).

Definition CELL_SIZE : Z := 10.
Definition MARGIN : Z := 1.

(** The calls of pygame that [draw_maze] makes: [screen.fill(c)],
    [pygame.draw.rect(screen, c, [left, top, width, height])] and
    [pygame.display.flip()]. *)
Inductive draw_call : Type :=
| Fill (c : color)
| Rect (c : color) (left top width height : Z)
| Flip.

(** The colour of a cell: each [if] of the loop body overrides the colour
    chosen before it.  [here] is [(row, col) == solver.current_pos]. *)
Definition node_color (node : MazeNode) (here : bool) : color :=
  let color := if negb (traversable node) then WHITE else BLACK in
  let color := if is_end node then RED else color in
  let color := if visited node then GRAY else color in
  let color := if here then BLUE else color in
  if is_start node then GREEN else color.

(** The body of [for col in range(maze.cols):].  The state is the list of
    calls made so far, which an exception does not take back, and the
    outcome. *)
Definition draw_node (m : Maze) (s : MazeSolver) (row : Z)
    (acc : list draw_call * outcome unit) (col : Z)
  : list draw_call * outcome unit :=
  match acc.2 with
  | Ok _ =>
      match get_node m row col with
      | Ok node =>
          (acc.1 ++ [Rect (node_color node
                             (bool_decide (Some (row, col) = current_pos s)))
                          (col * (CELL_SIZE + MARGIN) + MARGIN)
                          (row * (CELL_SIZE + MARGIN) + MARGIN)
                          CELL_SIZE CELL_SIZE],
           Ok ())
      | Raise e => (acc.1, Raise e)
      | OutOfFuel => (acc.1, OutOfFuel)
      end
  | _ => acc
  end.

(** [draw_maze(screen, maze, solver)]: the calls made on the screen, in
    order, and the outcome. *)
Definition draw_maze (m : Maze) (s : MazeSolver) : list draw_call * outcome unit :=
  let r := foldl (λ acc row, foldl (draw_node m s row) acc (seqZ 0 (cols m)))
                 ([Fill BLACK], Ok ()) (seqZ 0 (rows m)) in
  match r.2 with
  | Ok _ => (r.1 ++ [Flip], Ok ())
  | _ => r
  end.

(** The size of the window that [main] opens for a maze. *)
Definition screen_size (m : Maze) : Z * Z :=
  (cols m * (CELL_SIZE + MARGIN) + MARGIN, rows m * (CELL_SIZE + MARGIN) + MARGIN).

(** ** main, test mode *)

(** The [for _ in range(tests):] loop of the test mode.  Every run calls
    [generate] on the one generator, builds a maze that it binds to the
    local [maze], and then drives [solver], the solver built before the
    loop, which keeps the maze it was built on.  The clock is not modelled:
    what a run contributes is the number of calls of [solve_step] that its
    [while] loop makes.  [rnds i] are the shuffles of the [i]-th call of
    [generate], [calls] bounds each [while] loop. *)
Fixpoint main_test_runs (tests : nat) (rnds : nat → shuffles) (i : nat)
    (calls : nat) (g : MazeGenerator) (s : MazeSolver)
  : outcome (list nat * MazeGenerator * MazeSolver) :=
  match tests with
  | O => Ok ([], g, s)
  | S tests' =>
      r ← generate (rnds i) g;
      m ← Maze_init r.1;
      let (r1, m1) := set_start m 1 1 in
      _ ← r1;
      let (r2, m2) := set_end m1 25 31 in
      _ ← r2;
      match solve_loop calls s with
      | (Ok n, s') =>
          rest ← main_test_runs tests' rnds (S i) calls r.2 s';
          Ok (n :: rest.1.1, rest.1.2, rest.2)
      | (Raise e, _) => Raise e
      | (OutOfFuel, _) => OutOfFuel
      end
  end.

(** [main(test_mode=True, tests=tests, solver=strategy)] up to the end of
    the loop: the numbers of calls of [solve_step], run by run. *)
Definition main_test (tests : nat) (rnds : nat → shuffles) (calls : nat)
    (strategy : string) : outcome (list nat) :=
  let width := 70 in
  let height := 60 in
  r ← generate (rnds 0%nat) (MazeGenerator_init width height);
  s ← main_setup r.1 width height strategy;
  rest ← main_test_runs tests rnds 1 calls r.2 s;
  Ok rest.1.1.

(** ** Open cells of a layout *)

Definition layout_open (layout : list string) (r c : nat) : bool :=
  match layout !! r with
  | Some row =>
      match String.get c row with
      | Some ch => negb (Ascii.eqb ch "#")
      | None => false
      end
  | None => false
  end.

Definition layout_cells (layout : list string) : list (nat * nat) :=
  r ← seq 0 (length layout);
  c ← seq 0 (match layout with row :: _ => String.length row | [] => 0%nat end);
  [(r, c)].

Definition open_cell_count (layout : list string) : nat :=
  length (filter (λ p, layout_open layout p.1 p.2 = true) (layout_cells layout)).

(** Unordered pairs of 4-adjacent open cells: each is counted at its upper
    or left member. *)
Definition open_pair_count (layout : list string) : nat :=
  length (filter (λ p, layout_open layout p.1 p.2 = true
                       ∧ layout_open layout p.1 (S p.2) = true)
                 (layout_cells layout))
  + length (filter (λ p, layout_open layout p.1 p.2 = true
                         ∧ layout_open layout (S p.1) p.2 = true)
                   (layout_cells layout)).

(** ** Specification vocabulary *)

(** A [Maze] as the constructor builds it from a rectangular layout: the
    recorded extents are those of the matrix, and all rows have the same
    length. *)
Definition wf_maze (m : Maze) : Prop :=
  rows m = Z.of_nat (length (maze m))
  ∧ Forall (λ row, Z.of_nat (length row) = cols m) (maze m).

(** The node at an in-range position, read without Python's wrap-around. *)
Definition cell (m : Maze) (p : Z * Z) : option MazeNode :=
  maze m !! Z.to_nat p.1 ≫= (.!! Z.to_nat p.2).

(** In bounds and traversable. *)
Definition is_open (m : Maze) (p : Z * Z) : bool :=
  in_bounds m p.1 p.2
  && match cell m p with Some n => traversable n | None => false end.

(** One move of the 4-directional adjacency: the target is in bounds and
    traversable.  Nothing is asked of the cell the move leaves. *)
Definition step (m : Maze) (p q : Z * Z) : Prop :=
  ∃ d, d ∈ DIRS ∧ q = add_tuples p d ∧ is_open m q = true.

(** [walk m p q k]: a path of [k] moves from [p] to [q]. *)
Inductive walk (m : Maze) : Z * Z → Z * Z → Z → Prop :=
| walk_nil p : walk m p p 0
| walk_cons p q r k : step m p q → walk m q r k → walk m p r (k + 1).

(** [k] is the length of a shortest path from [p] to the recorded end. *)
Definition shortest_to_end (m : Maze) (p : Z * Z) (k : Z) : Prop :=
  ∃ e, end_node m = Some e ∧ walk m p e k ∧ ∀ k', walk m p e k' → k ≤ k'.

Definition no_path_to_end (m : Maze) (p : Z * Z) : Prop :=
  ∀ e k, end_node m = Some e → ¬ walk m p e k.

(** What a distance returned by the search has to mean. *)
Definition distance_spec (m : Maze) (p : Z * Z) (r : distance) : Prop :=
  match r with
  | Finite k => shortest_to_end m p k
  | Infinity => no_path_to_end m p
  end.

(** Two mazes that differ at most in the [is_start], [is_end] and [visited]
    flags of their nodes and in the recorded start. *)
Definition same_passages (m m' : Maze) : Prop :=
  rows m = rows m' ∧ cols m = cols m' ∧ end_node m = end_node m'
  ∧ map (map traversable) (maze m) = map (map traversable) (maze m').

(** All in-bounds positions. *)
Definition box (m : Maze) : list (Z * Z) :=
  r ← seqZ 0 (rows m); c ← seqZ 0 (cols m); [(r, c)].

(** The neighbours the search appends for a cell taken from the queue. *)
Definition bfs_new (m : Maze) (seen : gset (Z * Z)) (pos : Z * Z) : list (Z * Z) :=
  filter (λ w, is_open m w = true ∧ w ∉ seen) (map (add_tuples pos) DIRS).

(** The queue holds distances in ascending order that differ by at most one. *)
Definition queue_levels (q : list entry) : Prop :=
  ∀ (i j : nat) a b, (i ≤ j)%nat → q !! i = Some a → q !! j = Some b →
    a.2 ≤ b.2 ≤ a.2 + 1.

(** The measure that decreases at every turn of the search loop. *)
Definition bfs_measure (U : gset (Z * Z)) (q : list entry) (seen : gset (Z * Z)) : nat :=
  length q + 5 * size (U ∖ seen).

(** The directions [get_available_directions] returns on a well-formed maze. *)
Definition available (m : Maze) (p : Z * Z) : list (Z * Z) :=
  filter (λ d, is_open m (add_tuples p d) = true) DIRS.

Definition distance_le (a b : distance) : Prop :=
  match a, b with
  | Finite x, Finite y => x ≤ y
  | _, Infinity => True
  | Infinity, Finite _ => False
  end.

(** The invariant of the search loop, for a search started at [s]; [U] is the
    finite set of positions the search can ever meet. *)
Record bfs_inv (m : Maze) (s : Z * Z) (U : gset (Z * Z))
    (q : list entry) (seen : gset (Z * Z)) : Prop := mk_bfs_inv {
  inv_sound : ∀ v d, (v, d) ∈ q → walk m s v d;
  inv_levels : queue_levels q;
  inv_not_end : ∀ v, v ∈ seen → Some v ≠ end_node m;
  inv_closed : ∀ u w, u ∈ seen → step m u w → w ∈ seen ∨ w ∈ q.*1;
  inv_complete : ∀ v k, walk m s v k →
    v ∈ seen ∨ ∃ u d j, (u, d) ∈ q ∧ walk m u v j ∧ d + j ≤ k;
  inv_universe : ∀ v d, (v, d) ∈ q → v ∈ U
}.

(** The distance the search returns, with [Infinity] standing in where the
    search does not return one. *)
Definition distance_of (m : Maze) (p : Z * Z) : distance :=
  match calculate_distance_to_end m p.1 p.2 with
  | Ok r => r
  | _ => Infinity
  end.

(** The choice [A_star] makes at one direction, on a maze where the search
    returns a distance for every cell. *)
Definition pick (m : Maze) (p : Z * Z) (a : distance * option (Z * Z)) (d : Z * Z)
  : distance * option (Z * Z) :=
  if distance_lt (distance_of m (add_tuples p d)) a.1
  then (distance_of m (add_tuples p d), Some d) else a.

(** The generator keeps the extents of its grid. *)
Definition same_shape (g g' : MazeGenerator) : Prop :=
  map length (g_maze g') = map length (g_maze g)
  ∧ width g' = width g ∧ height g' = height g.

(** ** Worked examples *)

(** The shuffles that leave every list of directions as it is. *)
Definition identity_shuffles : shuffles := λ _, DIRS.

(** The shuffles of a run in which the carver walks around the block at
    (2, 2) and comes back to (1, 1). *)
Definition round_trip_shuffles : shuffles := λ k,
  match k with
  | 0%nat => [(1, 0); (0, 1); (0, -1); (-1, 0)]
  | 1%nat => [(0, 1); (1, 0); (0, -1); (-1, 0)]
  | 2%nat => [(-1, 0); (0, 1); (1, 0); (0, -1)]
  | 3%nat => [(0, -1); (1, 0); (0, 1); (-1, 0)]
  | _ => DIRS
  end.

Definition layout_6x6 : list string :=
  ["######"; "#S    "; "# # # "; "# # # "; "# ##E "; "#     "].

Definition layout_round_trip : list string :=
  ["######"; "#S  # "; "# # # "; "#   # "; "# ##E "; "#     "].

Definition layout_3x3 : list string := ["###"; "# #"; "###"].

Definition ragged_layout : list string := ["##"; "###"].

(** One row; the wall at column 2 separates the end from the rest. *)
Definition blocked_layout : list string := ["  #E"].

Definition empty_maze : Maze :=
  {| maze := []; rows := 0; cols := 0; start_node := None; end_node := None |}.

Definition value_or {A} (default : A) (o : outcome A) : A :=
  match o with Ok a => a | _ => default end.

(** [Maze(layout)], [set_start], [set_end], [MazeSolver(maze, strategy)]. *)
Definition solver_on (layout : list string) (start finish : Z * Z)
    (strategy : string) : outcome MazeSolver :=
  m ← Maze_init layout;
  let (r1, m1) := set_start m start.1 start.2 in
  _ ← r1;
  let (r2, m2) := set_end m1 finish.1 finish.2 in
  _ ← r2;
  MazeSolver_init m2 strategy.

Definition no_solver : MazeSolver :=
  {| s_maze := empty_maze; current_pos := None; facing := 0; solver := "" |}.

Definition maze_3x3 : Maze :=
  Eval vm_compute in value_or empty_maze (Maze_init layout_3x3).

Definition solver_3x3 : MazeSolver :=
  Eval vm_compute in value_or no_solver (solver_on layout_3x3 (1, 1) (1, 1) "A*").

Definition solver_6x6 : MazeSolver :=
  Eval vm_compute in value_or no_solver (main_setup layout_6x6 6 6 "A*").

Definition blocked_solver : MazeSolver :=
  Eval vm_compute in value_or no_solver (solver_on blocked_layout (0, 0) (0, 3) "A*").

(** [blocked_solver] after one call of [solve_step]. *)
Definition blocked_solver_failed : MazeSolver :=
  Eval vm_compute in (solve_step blocked_solver).2.

(** The number of wall cells of the generator's grid: the recursion of
    [_carve_passages_from] goes no deeper than this. *)
Definition wall_count (cells : list (list ascii)) : nat :=
  sum_list (map (λ row, length (filter (λ c, c = "#"%char) row)) cells).

(** The grid of a generator has [height] rows of [width] cells. *)
Definition gen_wf (g : MazeGenerator) : Prop :=
  Z.of_nat (length (g_maze g)) = height g
  ∧ Forall (λ row, Z.of_nat (length row) = width g) (g_maze g).

(** ** Vocabulary for the further properties *)

(** A flag of the node at row [i], column [j], [false] where there is none. *)
Definition flag (f : MazeNode → bool) (g : list (list MazeNode)) (i j : nat) : bool :=
  match g !! i ≫= (.!! j) with Some n => f n | None => false end.

(** What [solve_step] leaves alone: the extents, the recorded start and end,
    and every flag but [visited], which it only ever sets. *)
Definition only_marks (m m' : Maze) : Prop :=
  same_passages m m'
  ∧ start_node m' = start_node m
  ∧ map (map is_start) (maze m') = map (map is_start) (maze m)
  ∧ map (map is_end) (maze m') = map (map is_end) (maze m)
  ∧ ∀ i j, flag visited (maze m) i j = true → flag visited (maze m') i j = true.

(** The character of the generator's grid at [(row, col)]. *)
Definition grid_char (cells : list (list ascii)) (p : Z * Z) : option ascii :=
  if bool_decide (0 ≤ p.1 ∧ 0 ≤ p.2)
  then cells !! Z.to_nat p.1 ≫= (.!! Z.to_nat p.2)
  else None.

(** A cell of the grid that is not a wall. *)
Definition grid_open (cells : list (list ascii)) (p : Z * Z) : bool :=
  match grid_char cells p with
  | Some ch => negb (Ascii.eqb ch "#")
  | None => false
  end.

(** The cells that moves into open cells lead to from [root]; [root] itself
    need not be open. *)
Inductive grid_reach (cells : list (list ascii)) (root : Z * Z) : Z * Z → Prop :=
| grid_reach_root : grid_reach cells root root
| grid_reach_step p d :
    grid_reach cells root p → d ∈ DIRS →
    grid_open cells (add_tuples p d) = true →
    grid_reach cells root (add_tuples p d).

(** The cells the carver stands on: odd row and odd column. *)
Definition lattice (p : Z * Z) : Prop := ∃ i j, p = (2 * i + 1, 2 * j + 1).

(** All cells two steps from [p] that lie within [h] rows and [w] columns
    are open. *)
Definition grid_done (cells : list (list ascii)) (h w : Z) (p : Z * Z) : Prop :=
  ∀ d, d ∈ DIRS →
    0 ≤ p.1 + 2 * d.1 < h → 0 ≤ p.2 + 2 * d.2 < w →
    grid_open cells (p.1 + 2 * d.1, p.2 + 2 * d.2) = true.

(** What holds of the generator's grid between two steps of the carving
    started at (1, 1). *)
Record carve_inv (g : MazeGenerator) : Prop := mk_carve_inv {
  carve_wf : gen_wf g;
  carve_alphabet : ∀ q ch, grid_char (g_maze g) q = Some ch →
                           ch = "#"%char ∨ ch = " "%char;
  carve_connected : ∀ q, grid_open (g_maze g) q = true →
                         grid_reach (g_maze g) (1, 1) q
}.

(** How the grid changes from one step of the carving to a later one: cells
    are only opened, and never in row 0 or column 0. *)
Record carve_evolves (g g' : MazeGenerator) : Prop := mk_carve_evolves {
  evolves_shape : same_shape g g';
  evolves_mono : ∀ q, grid_open (g_maze g) q = true →
                      grid_open (g_maze g') q = true;
  evolves_border : ∀ q, q.1 = 0 ∨ q.2 = 0 →
                        grid_char (g_maze g') q = grid_char (g_maze g) q
}.

(** Every lattice cell opened between [g] and [g'] has all its lattice
    neighbours open in [g']. *)
Definition carve_new_done (g g' : MazeGenerator) : Prop :=
  ∀ q, lattice q → grid_open (g_maze g') q = true →
       grid_open (g_maze g) q = false →
       grid_done (g_maze g') (height g) (width g) q.

(** The character of a layout at row [r], column [c]. *)
Definition layout_char (layout : list string) (r c : nat) : option ascii :=
  layout !! r ≫= String.get c.

(** The rectangle [draw_maze] draws for the cell at [p], with a passage
    standing in for a cell that the grid does not have. *)
Definition cell_rect (m : Maze) (s : MazeSolver) (p : Z * Z) : draw_call :=
  Rect (node_color (default (MazeNode_init true) (cell m p))
                   (bool_decide (Some p = current_pos s)))
       (p.2 * (CELL_SIZE + MARGIN) + MARGIN)
       (p.1 * (CELL_SIZE + MARGIN) + MARGIN)
       CELL_SIZE CELL_SIZE.

(** What holds of the calls made and of the outcome all through the loops
    of [draw_maze]: the display is not flipped yet, and nothing but an
    [IndexError] has been raised. *)
Definition draw_state (acc : list draw_call * outcome unit) : Prop :=
  (Flip ∉ acc.1) ∧ (acc.2 = Ok () ∨ acc.2 = Raise IndexError).

(** ** Python indexing on in-range indices *)

Lemma py_index_in_range len i :
  0 ≤ i < len → py_index len i = Some (Z.to_nat i).
Proof. intros H. unfold py_index. by rewrite bool_decide_true. Qed.

Lemma py_get_in_range {A} (l : list A) i :
  0 ≤ i < Z.of_nat (length l) →
  ∃ x, l !! Z.to_nat i = Some x ∧ py_get l i = Ok x.
Proof.
  intros H. unfold py_get. rewrite py_index_in_range by done.
  destruct (lookup_lt_is_Some_2 l (Z.to_nat i)) as [x Hx]; [lia|].
  exists x. by rewrite Hx.
Qed.

Section WellFormed.
Context (m : Maze) (Hwf : wf_maze m).

Lemma in_bounds_spec r c :
  in_bounds m r c = true ↔ 0 ≤ r < rows m ∧ 0 ≤ c < cols m.
Proof.
  unfold in_bounds. rewrite andb_true_iff, !bool_decide_eq_true. tauto.
Qed.

Lemma get_node_in_bounds r c :
  in_bounds m r c = true →
  ∃ n, cell m (r, c) = Some n ∧ get_node m r c = Ok n.
Proof.
  intros [Hr Hc]%in_bounds_spec. destruct Hwf as [Hrows Hcols].
  unfold get_node, cell; simpl.
  destruct (py_get_in_range (maze m) r) as (row & Hrow & ->); [lia|].
  rewrite Hrow; simpl.
  assert (Z.of_nat (length row) = cols m) as Hlen.
  { eapply Forall_lookup_1 in Hcols; eauto. }
  destruct (py_get_in_range row c) as (n & Hn & ->); [lia|].
  eauto.
Qed.

Lemma open_cell_wf r c : open_cell m r c = Ok (is_open m (r, c)).
Proof.
  unfold open_cell, is_open; simpl.
  destruct (in_bounds m r c) eqn:Hb; [|done].
  destruct (get_node_in_bounds r c Hb) as (n & -> & ->). done.
Qed.

Lemma foldl_bfs_push seen pos dist ds q :
  foldl (bfs_push m seen pos.1 pos.2 dist) (Ok q) ds
  = Ok (q ++ map (λ w, (w, dist + 1))
                 (filter (λ w, is_open m w = true ∧ w ∉ seen)
                         (map (add_tuples pos) ds))).
Proof.
  revert q. induction ds as [|d ds IH]; intros q; simpl.
  { by rewrite app_nil_r. }
  rewrite open_cell_wf; simpl.
  change (pos.1 + d.1, pos.2 + d.2) with (add_tuples pos d).
  rewrite filter_cons.
  destruct (is_open m (add_tuples pos d)) eqn:Ho; simpl.
  - destruct (decide (add_tuples pos d ∈ seen)) as [Hin|Hin].
    + rewrite bool_decide_true by done; simpl.
      rewrite decide_False by tauto. apply IH.
    + rewrite bool_decide_false by done; simpl.
      rewrite decide_True by tauto. rewrite IH; simpl.
      by rewrite <- app_assoc.
  - try rewrite decide_False by (intros [? _]; done). apply IH.
Qed.

Lemma foldl_available p ds acc :
  foldl (λ acc d,
           directions ← acc;
           b ← open_cell m (p.1 + d.1) (p.2 + d.2);
           Ok (if b : bool then directions ++ [d] else directions))
        (Ok acc) ds
  = Ok (acc ++ filter (λ d, is_open m (add_tuples p d) = true) ds).
Proof.
  revert acc. induction ds as [|d ds IH]; intros acc; simpl.
  { by rewrite app_nil_r. }
  rewrite open_cell_wf; simpl.
  change (p.1 + d.1, p.2 + d.2) with (add_tuples p d).
  rewrite filter_cons.
  destruct (is_open m (add_tuples p d)) eqn:Ho; simpl.
  - try rewrite decide_True by done. rewrite IH. by rewrite <- app_assoc.
  - try rewrite decide_False by done. apply IH.
Qed.

Lemma get_available_directions_wf r c :
  get_available_directions m r c = Ok (available m (r, c)).
Proof.
  unfold get_available_directions, available.
  apply (foldl_available (r, c) DIRS []).
Qed.

Lemma bfs_loop_step fuel pos dist q seen :
  bfs_loop (S fuel) m ((pos, dist) :: q) seen
  = if bool_decide (Some pos = end_node m) then Ok (Finite dist)
    else if bool_decide (pos ∈ seen) then bfs_loop fuel m q seen
    else bfs_loop fuel m
           (q ++ map (λ w, (w, dist + 1)) (bfs_new m ({[pos]} ∪ seen) pos))
           ({[pos]} ∪ seen).
Proof.
  cbn [bfs_loop]. repeat case_bool_decide; try done.
  unfold bfs_new. by rewrite foldl_bfs_push.
Qed.
End WellFormed.

(** ** Paths *)

Lemma walk_nonneg m p q k : walk m p q k → 0 ≤ k.
Proof. induction 1; lia. Qed.

Lemma walk_snoc m p q r k : walk m p q k → step m q r → walk m p r (k + 1).
Proof.
  induction 1 as [p|p q' r' k Hs Hw IH]; intros Hqr.
  - replace (0 + 1) with (0 + 1) by lia. eapply walk_cons; [done|constructor].
  - eapply walk_cons; [done|]. by apply IH.
Qed.

Lemma walk_zero m p q : walk m p q 0 → p = q.
Proof.
  inversion 1 as [|? ? ? k Hs Hw]; subst; [done|].
  apply walk_nonneg in Hw. lia.
Qed.

Lemma walk_pos_inv m p r k :
  walk m p r k → p ≠ r → ∃ q, step m p q ∧ walk m q r (k - 1).
Proof.
  inversion 1 as [|? q ? k' Hs Hw]; subst; [done|].
  intros _. exists q. split; [done|]. by replace (k' + 1 - 1) with k' by lia.
Qed.

Lemma step_in_bounds m p q : step m p q → in_bounds m q.1 q.2 = true.
Proof.
  intros (d & _ & _ & Ho). unfold is_open in Ho.
  by apply andb_true_iff in Ho as [? _].
Qed.

Lemma elem_of_box m p : p ∈ box m ↔ in_bounds m p.1 p.2 = true.
Proof.
  unfold box, in_bounds. rewrite andb_true_iff, !bool_decide_eq_true.
  rewrite list_elem_of_bind. split.
  - intros (r & (c & Hp & Hc%elem_of_seqZ)%list_elem_of_bind & Hr%elem_of_seqZ).
    apply list_elem_of_singleton in Hp as ->. simpl. lia.
  - intros [Hr Hc]. exists p.1. split; [|apply elem_of_seqZ; lia].
    apply list_elem_of_bind. exists p.2. split; [|apply elem_of_seqZ; lia].
    destruct p. apply list_elem_of_singleton. done.
Qed.

Lemma length_box m : length (box m) = (Z.to_nat (rows m) * Z.to_nat (cols m))%nat.
Proof.
  unfold box. generalize (seqZ 0 (cols m)) (length_seqZ 0 (cols m)).
  intros lc Hlc. rewrite <- Hlc, <- (length_seqZ 0 (rows m)).
  induction (seqZ 0 (rows m)) as [|r l IH]; [done|].
  rewrite bind_cons, length_app, IH. simpl. f_equal.
  clear. induction lc as [|c lc IH]; [done|].
  rewrite bind_cons. simpl. by rewrite IH.
Qed.

Lemma size_list_to_set_le (l : list (Z * Z)) :
  (size (list_to_set l : gset (Z * Z)) ≤ length l)%nat.
Proof.
  induction l as [|x l IH]; simpl.
  - done.
  - rewrite size_union_alt, size_singleton.
    assert (size (list_to_set l ∖ {[x]} : gset (Z * Z))
            ≤ size (list_to_set l : gset (Z * Z)))%nat as H
      by (apply subseteq_size; set_solver).
    lia.
Qed.

(** ** Queue levels *)

Lemma queue_levels_tail a q : queue_levels (a :: q) → queue_levels q.
Proof. intros H i j x y Hij Hi Hj. apply (H (S i) (S j)); [lia|done..]. Qed.

Lemma queue_levels_head v d q w d' :
  queue_levels ((v, d) :: q) → (w, d') ∈ (v, d) :: q → d ≤ d' ≤ d + 1.
Proof.
  intros H [j Hj]%list_elem_of_lookup.
  apply (H 0%nat j (v, d) (w, d')); [lia|done..].
Qed.

Lemma queue_levels_push v d q (ws : list (Z * Z)) :
  queue_levels ((v, d) :: q) →
  queue_levels (q ++ map (λ w, (w, d + 1)) ws).
Proof.
  intros H i j a b Hij Hi Hj.
  assert (∀ x, x ∈ q → d ≤ x.2 ≤ d + 1) as Hq.
  { intros [w d'] Hx. simpl. eapply queue_levels_head; [done|]. by right. }
  assert (∀ x, x ∈ map (λ w, (w, d + 1)) ws → x.2 = d + 1) as Hws.
  { intros x (w & -> & _)%list_elem_of_fmap. done. }
  apply lookup_app_Some in Hi as [Hi|[Hil Hi]];
    apply lookup_app_Some in Hj as [Hj|[Hjl Hj]].
  - apply (H (S i) (S j)); [lia|done..].
  - apply list_elem_of_lookup_2 in Hi, Hj.
    apply Hq in Hi. apply Hws in Hj. lia.
  - apply lookup_lt_Some in Hj. lia.
  - apply list_elem_of_lookup_2 in Hi, Hj.
    apply Hws in Hi, Hj. lia.
Qed.

(** ** The search loop *)

Section Search.
Context (m : Maze) (Hwf : wf_maze m) (s : Z * Z) (U : gset (Z * Z)).
Context (HU : ∀ p, in_bounds m p.1 p.2 = true → p ∈ U).

(** From a cell already taken from the queue, every path either stays among
    such cells or passes through a cell that waits in the queue. *)
Lemma walk_frontier (q : list entry) (seen : gset (Z * Z)) :
  (∀ u w, u ∈ seen → step m u w → w ∈ seen ∨ w ∈ q.*1) →
  ∀ u v j, walk m u v j → u ∈ seen →
    v ∈ seen ∨ ∃ y d j', (y, d) ∈ q ∧ walk m y v j' ∧ j' < j.
Proof.
  intros Hclosed u v j Hw.
  induction Hw as [p|p x r k Hs Hw IH]; intros Hu; [by left|].
  pose proof (walk_nonneg _ _ _ _ Hw) as Hk.
  destruct (Hclosed p x Hu Hs) as [Hx|Hx].
  - destruct (IH Hx) as [?|(y & d & j' & ? & ? & ?)]; [by left|].
    right. exists y, d, j'. repeat split; [done..|lia].
  - apply list_elem_of_fmap in Hx as ([y d] & -> & Hx).
    right. exists y, d, k. repeat split; [done..|lia].
Qed.

Lemma bfs_new_spec (seen : gset (Z * Z)) (pos w : Z * Z) :
  w ∈ bfs_new m seen pos ↔ step m pos w ∧ w ∉ seen.
Proof.
  unfold bfs_new, step.
  rewrite list_elem_of_filter, list_elem_of_fmap. naive_solver.
Qed.

Lemma length_bfs_new (seen : gset (Z * Z)) pos :
  (length (bfs_new m seen pos) ≤ 4)%nat.
Proof. unfold bfs_new. etrans; [apply length_filter|]. done. Qed.

(** Dropping an entry whose cell was seen before. *)
Lemma bfs_inv_skip (pos : Z * Z) (dist : Z) (q : list entry)
    (seen : gset (Z * Z)) :
  bfs_inv m s U ((pos, dist) :: q) seen → pos ∈ seen →
  bfs_inv m s U q seen.
Proof.
  intros [Hsound Hlev Hend Hclosed Hcompl Huniv] Hpos.
  assert (∀ u w, u ∈ seen → step m u w → w ∈ seen ∨ w ∈ q.*1) as Hclosed'.
  { intros u w Hu Hs. destruct (Hclosed u w Hu Hs) as [?|Hw]; [by left|].
    rewrite fmap_cons in Hw. apply elem_of_cons in Hw as [->|?]; auto. }
  split.
  - intros v d Hv. apply Hsound. by right.
  - by eapply queue_levels_tail.
  - done.
  - done.
  - intros v k Hw.
    destruct (Hcompl v k Hw) as [?|(u & d & j & Hin & Hwu & Hle)]; [by left|].
    apply elem_of_cons in Hin as [Heq|Hin].
    + injection Heq as -> ->.
      destruct (walk_frontier q seen Hclosed' _ _ _ Hwu Hpos)
        as [?|(y & d' & j' & Hy & Hwy & Hlt)]; [by left|].
      right. exists y, d', j'. repeat split; [done..|].
      assert (dist ≤ d' ≤ dist + 1)
        by (eapply queue_levels_head; [done|by right]).
      lia.
    + right. exists u, d, j. done.
  - intros v d Hv. eapply Huniv. by right.
Qed.

(** Taking a new cell from the queue and appending its neighbours. *)
Lemma bfs_inv_expand (pos : Z * Z) (dist : Z) (q : list entry)
    (seen : gset (Z * Z)) :
  bfs_inv m s U ((pos, dist) :: q) seen →
  Some pos ≠ end_node m → pos ∉ seen →
  bfs_inv m s U
    (q ++ map (λ w, (w, dist + 1)) (bfs_new m ({[pos]} ∪ seen) pos))
    ({[pos]} ∪ seen).
Proof.
  intros [Hsound Hlev Hend Hclosed Hcompl Huniv] Hne Hpos.
  set (seen' := {[pos]} ∪ seen).
  set (q' := q ++ map (λ w, (w, dist + 1)) (bfs_new m seen' pos)).
  assert (∀ u w, u ∈ seen' → step m u w → w ∈ seen' ∨ w ∈ q'.*1) as Hclosed'.
  { intros u w Hu Hs. subst q'. rewrite fmap_app, elem_of_app.
    destruct (decide (w ∈ seen')) as [|Hw]; [by left|right].
    apply elem_of_union in Hu as [->%elem_of_singleton|Hu].
    - right. apply list_elem_of_fmap. exists (w, dist + 1). split; [done|].
      apply list_elem_of_fmap. exists w. split; [done|].
      by apply bfs_new_spec.
    - destruct (Hclosed u w Hu Hs) as [?|Hin].
      { destruct Hw. apply elem_of_union. by right. }
      rewrite fmap_cons in Hin. apply elem_of_cons in Hin as [->|?]; [|by left].
      destruct Hw. apply elem_of_union. left. by apply elem_of_singleton. }
  assert (∀ y d, (y, d) ∈ q' → d ≤ dist + 1) as Hbound.
  { intros y d [Hy|Hy]%elem_of_app.
    - assert (dist ≤ d ≤ dist + 1)
        by (eapply queue_levels_head; [done|by right]). lia.
    - apply list_elem_of_fmap in Hy as (w & [= -> ->] & _). lia. }
  split.
  - intros v d [Hv|Hv]%elem_of_app.
    + apply Hsound. by right.
    + apply list_elem_of_fmap in Hv as (w & [= -> ->] & [Hs _]%bfs_new_spec).
      eapply walk_snoc; [|done]. apply Hsound. by left.
  - by apply queue_levels_push with pos.
  - intros v [->%elem_of_singleton|Hv]%elem_of_union; auto.
  - done.
  - intros v k Hw.
    destruct (Hcompl v k Hw) as [?|(u & d & j & Hin & Hwu & Hle)];
      [left; set_solver|].
    apply elem_of_cons in Hin as [Heq|Hin].
    + injection Heq as -> ->.
      destruct (walk_frontier q' seen' Hclosed' _ _ _ Hwu)
        as [?|(y & d' & j' & Hy & Hwy & Hlt)]; [set_solver|by left|].
      right. exists y, d', j'. repeat split; [done..|].
      apply Hbound in Hy. lia.
    + right. exists u, d, j. repeat split; [|done..].
      apply elem_of_app. by left.
  - intros v d [Hv|Hv]%elem_of_app.
    + eapply Huniv. by right.
    + apply list_elem_of_fmap in Hv as (w & [= -> ->] & [Hs _]%bfs_new_spec).
      apply HU. by eapply step_in_bounds.
Qed.

Lemma bfs_measure_expand (pos : Z * Z) (dist : Z) (q : list entry)
    (seen : gset (Z * Z)) (ws : list (Z * Z)) :
  pos ∈ U → pos ∉ seen → (length ws ≤ 4)%nat →
  (bfs_measure U (q ++ map (λ w, (w, (dist + 1)%Z)) ws) ({[pos]} ∪ seen)
   < bfs_measure U ((pos, dist) :: q) seen)%nat.
Proof.
  intros HpU Hpos Hws. unfold bfs_measure.
  rewrite length_app, length_map. simpl.
  assert (size (U ∖ ({[pos]} ∪ seen)) < size (U ∖ seen))%nat
    by (apply subset_size; set_solver).
  lia.
Qed.

(** The loop returns, and what it returns is the distance. *)
Lemma bfs_loop_correct (fuel : nat) (q : list entry) (seen : gset (Z * Z)) :
  bfs_inv m s U q seen →
  (bfs_measure U q seen < fuel)%nat →
  ∃ r, bfs_loop fuel m q seen = Ok r ∧ distance_spec m s r.
Proof.
  revert q seen. induction fuel as [|fuel IH]; intros q seen Hinv Hfuel; [lia|].
  destruct q as [|[pos dist] q].
  { exists Infinity. split; [done|]. intros e k He Hw.
    destruct (inv_complete _ _ _ _ _ Hinv e k Hw) as [Hs|(u & d & j & Hin & _)].
    - by eapply (inv_not_end _ _ _ _ _ Hinv).
    - by apply elem_of_nil in Hin. }
  rewrite bfs_loop_step by done.
  case_bool_decide as Hend.
  { exists (Finite dist). split; [done|]. exists pos. split; [done|]. split.
    - apply (inv_sound _ _ _ _ _ Hinv). by left.
    - intros k' Hw.
      destruct (inv_complete _ _ _ _ _ Hinv pos k' Hw)
        as [Hs|(u & d & j & Hin & Hwu & Hle)].
      + by apply (inv_not_end _ _ _ _ _ Hinv) in Hs.
      + pose proof (queue_levels_head _ _ _ _ _ (inv_levels _ _ _ _ _ Hinv) Hin).
        apply walk_nonneg in Hwu. lia. }
  case_bool_decide as Hseen.
  - apply IH; [by eapply bfs_inv_skip|].
    unfold bfs_measure in *. simpl in Hfuel. lia.
  - apply IH; [by apply bfs_inv_expand|].
    assert (pos ∈ U) as HpU
      by (apply (inv_universe _ _ _ _ _ Hinv pos dist); by left).
    pose proof (bfs_measure_expand pos dist q seen
                  (bfs_new m ({[pos]} ∪ seen) pos)
                  HpU Hseen (length_bfs_new _ _)) as Hlt.
    eapply Nat.lt_le_trans; [apply Hlt|]. by apply Nat.lt_succ_r.
Qed.
End Search.

(** ** calculate_distance_to_end *)

Lemma bfs_inv_init m (s : Z * Z) :
  bfs_inv m s (list_to_set (s :: box m)) [(s, 0)] ∅.
Proof.
  split.
  - intros v d [= -> ->]%list_elem_of_singleton. constructor.
  - intros i j a b _ Hi Hj.
    apply list_elem_of_lookup_2, list_elem_of_singleton in Hi, Hj. subst. simpl. lia.
  - set_solver.
  - set_solver.
  - intros v k Hw. right. exists s, 0, k.
    split; [by apply list_elem_of_singleton|]. split; [done|lia].
  - intros v d [= -> ->]%list_elem_of_singleton. set_solver.
Qed.

Lemma calculate_distance_to_end_correct m r c :
  wf_maze m →
  ∃ d, calculate_distance_to_end m r c = Ok d ∧ distance_spec m (r, c) d.
Proof.
  intros Hwf. unfold calculate_distance_to_end.
  apply bfs_loop_correct with (U := list_to_set ((r, c) :: box m)).
  - done.
  - intros p Hp. apply elem_of_list_to_set. right. by apply elem_of_box.
  - apply bfs_inv_init.
  - unfold bfs_measure, bfs_fuel. simpl length.
    set (n := size _).
    assert (n ≤ S (Z.to_nat (rows m) * Z.to_nat (cols m)))%nat as H.
    { subst n.
      etrans; [apply subseteq_size, subseteq_difference_l; reflexivity|].
      etrans; [apply size_list_to_set_le|]. simpl. by rewrite length_box. }
    clearbody n. lia.
Qed.

Lemma distance_of_correct m p :
  wf_maze m →
  calculate_distance_to_end m p.1 p.2 = Ok (distance_of m p)
  ∧ distance_spec m p (distance_of m p).
Proof.
  intros Hwf. unfold distance_of.
  destruct (calculate_distance_to_end_correct m p.1 p.2 Hwf) as (d & -> & Hd).
  by destruct p.
Qed.

Lemma shortest_to_end_unique m p k k' :
  shortest_to_end m p k → shortest_to_end m p k' → k = k'.
Proof.
  intros (e & He & Hw & Hmin) (e' & He' & Hw' & Hmin').
  assert (e' = e) as -> by congruence.
  apply Hmin in Hw'. apply Hmin' in Hw. lia.
Qed.

Lemma distance_spec_unique m p r r' :
  distance_spec m p r → distance_spec m p r' → r = r'.
Proof.
  destruct r as [k|], r' as [k'|]; simpl; intros H H'; try done.
  - f_equal. by eapply shortest_to_end_unique.
  - destruct H as (e & He & Hw & _). by destruct (H' e k He).
  - destruct H' as (e & He & Hw & _). by destruct (H e k' He).
Qed.

(** ** The search reads nothing but the passages *)

Lemma py_get_map {A B} (f : A → B) (l : list A) i :
  py_get (map f l) i = x ← py_get l i; Ok (f x).
Proof.
  unfold py_get. rewrite length_map.
  destruct (py_index _ i) as [n|]; [|done].
  change (map f l) with (f <$> l). rewrite list_lookup_fmap.
  by destruct (l !! n).
Qed.

Lemma open_cell_passages m r c :
  open_cell m r c
  = if in_bounds m r c
    then row ← py_get (map (map traversable) (maze m)) r; py_get row c
    else Ok false.
Proof.
  unfold open_cell, get_node. destruct (in_bounds m r c); [|done].
  rewrite py_get_map. destruct (py_get (maze m) r) as [row| |]; simpl; try done.
  by rewrite py_get_map.
Qed.

Lemma open_cell_same_passages m m' r c :
  same_passages m m' → open_cell m r c = open_cell m' r c.
Proof.
  intros (Hr & Hc & _ & Hm). rewrite !open_cell_passages.
  unfold in_bounds. by rewrite Hr, Hc, Hm.
Qed.

Lemma bfs_loop_same_passages m m' fuel q seen :
  same_passages m m' → bfs_loop fuel m q seen = bfs_loop fuel m' q seen.
Proof.
  intros Hsame. revert q seen.
  induction fuel as [|fuel IH]; intros q seen; [done|].
  cbn [bfs_loop]. destruct q as [|[pos dist] q]; [done|].
  destruct Hsame as (Hr & Hc & He & Hm) eqn:E. rewrite <- He.
  assert (∀ sn ds acc,
    foldl (bfs_push m sn pos.1 pos.2 dist) acc ds
    = foldl (bfs_push m' sn pos.1 pos.2 dist) acc ds) as Hfold.
  { intros sn ds. induction ds as [|d ds IHds]; intros acc; [done|].
    simpl. rewrite IHds. f_equal. unfold bfs_push.
    destruct acc; simpl; try done.
    by rewrite (open_cell_same_passages m m'). }
  rewrite Hfold. rewrite IH.
  destruct (foldl _ _ _); simpl; try done.
  by rewrite IH.
Qed.

Lemma calculate_distance_to_end_same_passages m m' r c :
  same_passages m m' →
  calculate_distance_to_end m r c = calculate_distance_to_end m' r c.
Proof.
  intros Hsame. unfold calculate_distance_to_end, bfs_fuel.
  destruct Hsame as (Hr & Hc & He & Hm) eqn:E. rewrite <- Hr, <- Hc.
  by apply bfs_loop_same_passages.
Qed.

Lemma is_open_same_passages m m' p :
  wf_maze m → wf_maze m' → same_passages m m' → is_open m p = is_open m' p.
Proof.
  intros Hwf Hwf' Hsame.
  pose proof (open_cell_wf m Hwf p.1 p.2) as H.
  rewrite (open_cell_same_passages m m') in H by done.
  rewrite (open_cell_wf m' Hwf') in H. destruct p. by injection H.
Qed.

Lemma distance_of_same_passages m m' p :
  same_passages m m' → distance_of m p = distance_of m' p.
Proof.
  intros Hsame. unfold distance_of.
  by rewrite (calculate_distance_to_end_same_passages m m').
Qed.

(** ** Writes to one cell *)

Lemma py_update2_Ok {A} (l : list (list A)) i j f g :
  py_update2 l i j f = Ok g →
  ∃ n k row x,
    py_index (Z.of_nat (length l)) i = Some n ∧ l !! n = Some row
    ∧ py_index (Z.of_nat (length row)) j = Some k ∧ row !! k = Some x
    ∧ g = <[n := <[k := f x]> row]> l.
Proof.
  unfold py_update2. intros H.
  destruct (py_index _ i) as [n|] eqn:Hn; [|done].
  destruct (l !! n) as [row|] eqn:Hrow; [|done].
  destruct (py_index _ j) as [k|] eqn:Hk; [|done].
  destruct (row !! k) as [x|] eqn:Hx; [|done].
  injection H as <-. by exists n, k, row, x.
Qed.

Lemma py_update2_in_range {A} (l : list (list A)) i j f :
  0 ≤ i < Z.of_nat (length l) →
  (∀ row, l !! Z.to_nat i = Some row → 0 ≤ j < Z.of_nat (length row)) →
  ∃ row x, l !! Z.to_nat i = Some row ∧ row !! Z.to_nat j = Some x
    ∧ py_update2 l i j f = Ok (<[Z.to_nat i := <[Z.to_nat j := f x]> row]> l).
Proof.
  intros Hi Hj. unfold py_update2. rewrite py_index_in_range by done.
  destruct (lookup_lt_is_Some_2 l (Z.to_nat i)) as [row Hrow]; [lia|].
  rewrite Hrow. specialize (Hj row Hrow). rewrite py_index_in_range by done.
  destruct (lookup_lt_is_Some_2 row (Z.to_nat j)) as [x Hx]; [lia|].
  rewrite Hx. by exists row, x.
Qed.

Lemma py_update2_shape {A} (l : list (list A)) i j f g :
  py_update2 l i j f = Ok g → map length g = map length l.
Proof.
  intros (n & k & row & x & _ & Hrow & _ & _ & ->)%py_update2_Ok.
  change (map length) with (fmap (M:=list) (length (A:=A))).
  rewrite list_fmap_insert, length_insert.
  apply list_insert_id. by rewrite list_lookup_fmap, Hrow.
Qed.

Lemma py_update2_map {A B} (h : A → B) (l : list (list A)) i j f g :
  (∀ x, h (f x) = h x) →
  py_update2 l i j f = Ok g → map (map h) g = map (map h) l.
Proof.
  intros Hh (n & k & row & x & _ & Hrow & _ & Hx & ->)%py_update2_Ok.
  change (map (map h)) with (fmap (M:=list) (fmap (M:=list) h)).
  rewrite !list_fmap_insert, Hh.
  apply list_insert_id. rewrite list_lookup_fmap, Hrow. simpl. f_equal.
  symmetry. apply list_insert_id. by rewrite list_lookup_fmap, Hx.
Qed.

Lemma wf_maze_shape m g :
  wf_maze m → map length g = map length (maze m) → wf_maze (with_maze m g).
Proof.
  intros [Hr Hc] Hg. split; simpl.
  - rewrite Hr. f_equal.
    by rewrite <- (length_map length g), Hg, length_map.
  - apply Forall_lookup. intros i row Hi.
    assert (map length (maze m) !! i = Some (length row)) as H.
    { rewrite <- Hg. change (map length g) with (length <$> g).
      by rewrite list_lookup_fmap, Hi. }
    change (map length (maze m)) with (length <$> maze m) in H.
    rewrite list_lookup_fmap in H.
    destruct (maze m !! i) as [row'|] eqn:Hrow'; [|done].
    injection H as <-. eapply Forall_lookup_1 in Hc; eauto.
Qed.

Lemma wf_maze_update m r c f g :
  wf_maze m → py_update2 (maze m) r c f = Ok g → wf_maze (with_maze m g).
Proof. intros Hwf Hg. eapply wf_maze_shape, py_update2_shape; eauto. Qed.

Lemma same_passages_update m r c f g :
  (∀ x, traversable (f x) = traversable x) →
  py_update2 (maze m) r c f = Ok g → same_passages m (with_maze m g).
Proof.
  intros Hf Hg. repeat split; simpl.
  symmetry. by eapply py_update2_map.
Qed.

Lemma update_in_bounds m r c f :
  wf_maze m → in_bounds m r c = true →
  ∃ g, py_update2 (maze m) r c f = Ok g.
Proof.
  intros [Hr Hc] [Hrow Hcol]%in_bounds_spec.
  destruct (py_update2_in_range (maze m) r c f) as (row & x & _ & _ & ->);
    [lia| |eauto].
  intros row Hrow'. eapply Forall_lookup_1 in Hc; eauto. lia.
Qed.

(** ** The choice of A_star *)

Lemma distance_lt_trans a b c :
  distance_lt a b = true → distance_lt b c = true → distance_lt a c = true.
Proof.
  destruct a, b, c; simpl; try done.
  rewrite !bool_decide_eq_true. lia.
Qed.

Lemma distance_lt_le_trans a b c :
  distance_lt a b = true → distance_lt c b = false → distance_lt a c = true.
Proof.
  destruct a, b, c; simpl; try done.
  rewrite !bool_decide_eq_true, bool_decide_eq_false. lia.
Qed.

Lemma foldl_A_star_scan s p ds a :
  wf_maze (s_maze s) → current_pos s = Some p →
  Forall (λ d, is_open (s_maze s) (add_tuples p d) = true) ds →
  foldl (A_star_scan s) (Ok a) ds = Ok (foldl (pick (s_maze s) p) a ds).
Proof.
  intros Hwf Hp Hds. revert a.
  induction Hds as [|d ds Hd _ IH]; intros a; [done|].
  simpl. rewrite <- IH. f_equal.
  unfold A_star_scan, pick; simpl. rewrite Hp.
  apply andb_true_iff in Hd as [Hb Ht].
  change (p.1 + d.1) with (add_tuples p d).1.
  change (p.2 + d.2) with (add_tuples p d).2.
  destruct (get_node_in_bounds _ Hwf _ _ Hb) as (n & Hn & ->); simpl.
  replace (cell (s_maze s) (add_tuples p d)) with (Some n) in Ht
    by (by destruct (add_tuples p d)).
  rewrite Ht.
  change (p.1 + d.1) with (add_tuples p d).1.
  change (p.2 + d.2) with (add_tuples p d).2.
  destruct (distance_of_correct (s_maze s) (add_tuples p d) Hwf) as [-> _].
  done.
Qed.

(** The loop of [A_star] keeps the first direction whose target has the
    least distance: everything before it is strictly farther, nothing
    after it is nearer. *)
Lemma foldl_pick_spec m p ds :
  (foldl (pick m p) (Infinity, None) ds = (Infinity, None)
   ∧ Forall (λ d, distance_of m (add_tuples p d) = Infinity) ds)
  ∨ ∃ l1 b l2 k,
      ds = l1 ++ b :: l2
      ∧ foldl (pick m p) (Infinity, None) ds = (Finite k, Some b)
      ∧ distance_of m (add_tuples p b) = Finite k
      ∧ Forall (λ d, distance_lt (Finite k) (distance_of m (add_tuples p d)) = true) l1
      ∧ Forall (λ d, distance_lt (distance_of m (add_tuples p d)) (Finite k) = false) l2.
Proof.
  induction ds as [|d ds IH] using rev_ind; [by left|].
  rewrite foldl_snoc.
  destruct IH as [[-> Hall]|(l1 & b & l2 & k & -> & -> & Hb & H1 & H2)];
    unfold pick; simpl.
  - destruct (distance_of m (add_tuples p d)) as [k|] eqn:Hd; simpl.
    + right. exists ds, d, [], k. split_and!; try done; try by constructor.
      eapply list.Forall_impl; [done|]. simpl. by intros x ->.
    + left. split; [done|]. apply Forall_app. split; [done|]. by constructor.
  - destruct (distance_lt (distance_of m (add_tuples p d)) (Finite k)) eqn:Hlt.
    + destruct (distance_of m (add_tuples p d)) as [k'|] eqn:Hd; [|done].
      right. exists (l1 ++ b :: l2), d, [], k'.
      split_and!; try done; try by constructor.
      apply Forall_app. split; [|constructor].
      * eapply list.Forall_impl; [done|]. intros x Hx.
        exact (distance_lt_trans (Finite k') (Finite k) _ Hlt Hx).
      * by rewrite Hb.
      * eapply list.Forall_impl; [done|]. intros x Hx.
        exact (distance_lt_le_trans (Finite k') (Finite k) _ Hlt Hx).
    + right. exists l1, b, (l2 ++ [d]), k. split_and!; try done.
      * by rewrite <- app_assoc.
      * apply Forall_app. split; [done|]. by constructor.
Qed.

Lemma available_open m p :
  Forall (λ d, is_open m (add_tuples p d) = true) (available m p).
Proof. apply list.Forall_forall. by intros d [? _]%list_elem_of_filter. Qed.

Lemma A_star_wf s p :
  wf_maze (s_maze s) → current_pos s = Some p →
  A_star s p.1 p.2
  = match foldl (pick (s_maze s) p) (Infinity, None) (available (s_maze s) p) with
    | (_, Some best_move) => (Ok (), with_pos s (add_tuples p best_move))
    | (_, None) => (Raise NoAvailableMove, s)
    end.
Proof.
  intros Hwf Hp. unfold A_star.
  rewrite get_available_directions_wf by done.
  replace (p.1, p.2) with p by (by destruct p).
  rewrite (foldl_A_star_scan s p) by (done || apply available_open).
  destruct (foldl _ _ _) as [least [best|]]; [|done]. by rewrite Hp.
Qed.

(** ** Paths and distances on mazes with the same passages *)

Lemma available_same_passages m m' p :
  wf_maze m → wf_maze m' → same_passages m m' → available m p = available m' p.
Proof.
  intros Hwf Hwf' Hsame. unfold available.
  apply list_filter_iff. intros d.
  by rewrite (is_open_same_passages m m').
Qed.

Lemma foldl_pick_same_passages m m' p a ds :
  same_passages m m' → foldl (pick m p) a ds = foldl (pick m' p) a ds.
Proof.
  intros Hsame. revert a. induction ds as [|d ds IH]; intros a; [done|].
  simpl. rewrite IH. f_equal. unfold pick.
  by rewrite (distance_of_same_passages m m').
Qed.

(** ** One call of solve_step *)

Lemma A_star_raise_state s r c e s' : A_star s r c = (Raise e, s') → s' = s.
Proof.
  unfold A_star. intros H.
  destruct (get_available_directions _ _ _) as [ds| |]; [|congruence..].
  destruct (foldl _ _ _) as [[least [best|]]| |]; [|congruence..].
  destruct (current_pos s); congruence.
Qed.

Lemma find_move_raise_state s r c e s' : find_move s r c = (Raise e, s') → s' = s.
Proof.
  unfold find_move. case_bool_decide; [apply A_star_raise_state|congruence].
Qed.

Lemma solve_step_wf s p :
  wf_maze (s_maze s) → solver s = "A*"%string → current_pos s = Some p →
  in_bounds (s_maze s) p.1 p.2 = true → Some p ≠ end_node (s_maze s) →
  ∃ g, py_update2 (maze (s_maze s)) p.1 p.2 mark_visited = Ok g
    ∧ wf_maze (with_maze (s_maze s) g)
    ∧ same_passages (s_maze s) (with_maze (s_maze s) g)
    ∧ solve_step s
      = match foldl (pick (s_maze s) p) (Infinity, None) (available (s_maze s) p) with
        | (_, Some best_move) =>
            (Ok false, with_pos (with_s_maze s (with_maze (s_maze s) g))
                                (add_tuples p best_move))
        | (_, None) =>
            (Raise NoAvailableMove, with_s_maze s (with_maze (s_maze s) g))
        end.
Proof.
  intros Hwf Hsolver Hp Hb Hne.
  destruct (update_in_bounds _ _ _ mark_visited Hwf Hb) as [g Hg].
  pose proof (wf_maze_update _ _ _ _ _ Hwf Hg) as Hwf'.
  assert (same_passages (s_maze s) (with_maze (s_maze s) g)) as Hsame
    by (by apply (same_passages_update _ p.1 p.2 mark_visited g)).
  exists g. split_and!; try done.
  unfold solve_step. rewrite Hp.
  rewrite bool_decide_false by done. destruct p as [r c]. simpl in Hg.
  rewrite Hg. unfold find_move. simpl solver. rewrite Hsolver.
  rewrite bool_decide_true by done.
  rewrite (A_star_wf _ (r, c)) by done. simpl s_maze.
  rewrite <- (available_same_passages (s_maze s)) by done.
  rewrite <- (foldl_pick_same_passages (s_maze s)) by done.
  by destruct (foldl _ _ _) as [least [best|]].
Qed.

(** ** Distances of neighbours *)

Lemma available_step m p d : d ∈ available m p → step m p (add_tuples p d).
Proof. intros [Ho Hd]%list_elem_of_filter. by exists d. Qed.

Lemma step_available m p q :
  step m p q → ∃ d, d ∈ available m p ∧ q = add_tuples p d.
Proof.
  intros (d & Hd & -> & Ho). exists d. split; [|done].
  by apply list_elem_of_filter.
Qed.

Lemma shortest_to_end_zero m p : shortest_to_end m p 0 ↔ Some p = end_node m.
Proof.
  split.
  - intros (e & He & ->%walk_zero & _). done.
  - intros He. exists p. split_and!; [done|constructor|].
    intros k'. apply walk_nonneg.
Qed.

Lemma shortest_to_end_next m p k :
  shortest_to_end m p k → Some p ≠ end_node m →
  ∃ q, step m p q ∧ shortest_to_end m q (k - 1).
Proof.
  intros (e & He & Hw & Hmin) Hne.
  destruct (walk_pos_inv _ _ _ _ Hw) as (q & Hs & Hq); [congruence|].
  exists q. split; [done|]. exists e. split_and!; [done..|].
  intros k' Hk'. assert (walk m p e (k' + 1)) as H by (by eapply walk_cons).
  apply Hmin in H. lia.
Qed.

Lemma shortest_to_end_step m p q k j :
  shortest_to_end m p k → step m p q → shortest_to_end m q j → k ≤ j + 1.
Proof.
  intros (e & He & _ & Hmin) Hs (e' & He' & Hw & _).
  assert (e' = e) as -> by congruence.
  apply Hmin. by eapply walk_cons.
Qed.

(** Where the distance of the current cell is [k + 1], the direction that
    [A_star] keeps leads to a cell at distance [k]. *)
Lemma pick_descends m p k :
  wf_maze m → shortest_to_end m p k → Some p ≠ end_node m →
  ∃ least b, foldl (pick m p) (Infinity, None) (available m p) = (least, Some b)
    ∧ b ∈ available m p ∧ shortest_to_end m (add_tuples p b) (k - 1).
Proof.
  intros Hwf Hp Hne.
  destruct (shortest_to_end_next _ _ _ Hp Hne) as (q & Hs & Hq).
  destruct (step_available _ _ _ Hs) as (d0 & Hd0 & ->).
  assert (distance_of m (add_tuples p d0) = Finite (k - 1)) as Hdist0.
  { eapply distance_spec_unique; [by apply distance_of_correct|done]. }
  destruct (foldl_pick_spec m p (available m p))
    as [[_ Hall]|(l1 & b & l2 & kb & Hds & Hfold & Hb & H1 & H2)].
  { rewrite list.Forall_forall in Hall. apply Hall in Hd0. congruence. }
  assert (b ∈ available m p) as Hbin by (rewrite Hds; set_solver).
  exists (Finite kb), b. split_and!; [done..|].
  assert (shortest_to_end m (add_tuples p b) kb) as Hsb.
  { destruct (distance_of_correct m (add_tuples p b) Hwf) as [_ Hspec].
    by rewrite Hb in Hspec. }
  assert (k ≤ kb + 1)
    by (eapply shortest_to_end_step; [done|by apply available_step|done]).
  assert (kb ≤ k - 1).
  { rewrite Hds in Hd0. rewrite list.Forall_forall in H1, H2.
    apply elem_of_app in Hd0 as [Hin|[->|Hin]%elem_of_cons].
    - apply H1 in Hin. rewrite Hdist0 in Hin. simpl in Hin.
      apply bool_decide_eq_true in Hin. lia.
    - rewrite Hdist0 in Hb. injection Hb. lia.
    - apply H2 in Hin. rewrite Hdist0 in Hin. simpl in Hin.
      apply bool_decide_eq_false in Hin. lia. }
  by replace (k - 1) with kb by lia.
Qed.

Lemma pick_none m p :
  wf_maze m → no_path_to_end m p →
  ∃ least, foldl (pick m p) (Infinity, None) (available m p) = (least, None).
Proof.
  intros Hwf Hp.
  destruct (foldl_pick_spec m p (available m p))
    as [[-> _]|(l1 & b & l2 & kb & Hds & Hfold & Hb & H1 & H2)]; [by eexists|].
  assert (b ∈ available m p) as Hbin by (rewrite Hds; set_solver).
  destruct (distance_of_correct m (add_tuples p b) Hwf) as [_ Hspec].
  rewrite Hb in Hspec. destruct Hspec as (e & He & Hw & _).
  destruct (Hp e (kb + 1) He). eapply walk_cons; [|done].
  by apply available_step.
Qed.

(** ** The driver loop *)

Lemma solve_loop_at_end s n :
  current_pos s = end_node (s_maze s) → solve_loop (S n) s = (Ok 1%nat, s).
Proof.
  intros H. simpl. unfold solve_step. by rewrite bool_decide_true.
Qed.

(** From a cell at distance [n] the loop returns at call [n + 1]. *)
Lemma solve_loop_descends n : ∀ s p extra,
  wf_maze (s_maze s) → solver s = "A*"%string → current_pos s = Some p →
  in_bounds (s_maze s) p.1 p.2 = true →
  shortest_to_end (s_maze s) p (Z.of_nat n) →
  ∃ s', solve_loop (S n + extra) s = (Ok (S n), s').
Proof.
  induction n as [|n IH]; intros s p extra Hwf Hsolver Hp Hb Hdist.
  { exists s. apply solve_loop_at_end.
    rewrite Hp. by apply shortest_to_end_zero. }
  assert (Some p ≠ end_node (s_maze s)) as Hne.
  { intros He%shortest_to_end_zero.
    pose proof (shortest_to_end_unique _ _ _ _ Hdist He). lia. }
  destruct (solve_step_wf s p Hwf Hsolver Hp Hb Hne)
    as (g & Hg & Hwf' & Hsame & Hstep).
  destruct (pick_descends _ _ _ Hwf Hdist Hne) as (least & b & Hfold & Hbin & Hnext).
  rewrite Hfold in Hstep.
  set (s2 := with_pos (with_s_maze s (with_maze (s_maze s) g)) (add_tuples p b)) in *.
  destruct (IH s2 (add_tuples p b) extra) as [s' Hs']; try done.
  - apply available_step, step_in_bounds in Hbin.
    by rewrite <- Hbin.
  - destruct (distance_of_correct (s_maze s2) (add_tuples p b) Hwf') as [_ Hspec].
    simpl s_maze in *. 
    rewrite <- (distance_of_same_passages (s_maze s)) in Hspec by done.
    replace (Z.of_nat (S n) - 1) with (Z.of_nat n) in Hnext by lia.
    assert (distance_of (s_maze s) (add_tuples p b) = Finite (Z.of_nat n)) as Hd.
    { eapply distance_spec_unique; [by apply distance_of_correct|done]. }
    by rewrite Hd in Hspec.
  - exists s'. change (S (S n) + extra)%nat with (S (S n + extra)).
    cbn [solve_loop]. rewrite Hstep.
    change (S n + extra)%nat with (S (n + extra)) in *. by rewrite Hs'.
Qed.

Lemma solve_loop_no_path s p n :
  wf_maze (s_maze s) → solver s = "A*"%string → current_pos s = Some p →
  in_bounds (s_maze s) p.1 p.2 = true → no_path_to_end (s_maze s) p →
  ∃ s', solve_loop (S n) s = (Raise NoAvailableMove, s').
Proof.
  intros Hwf Hsolver Hp Hb Hno.
  assert (Some p ≠ end_node (s_maze s)) as Hne.
  { intros He. destruct (Hno p 0); [done|constructor]. }
  destruct (solve_step_wf s p Hwf Hsolver Hp Hb Hne)
    as (g & Hg & Hwf' & Hsame & Hstep).
  destruct (pick_none _ _ Hwf Hno) as [least Hfold].
  rewrite Hfold in Hstep. eexists. cbn [solve_loop]. by rewrite Hstep.
Qed.

(** ** The number of calls *)

(** A shortest path meets pairwise different in-bounds cells. *)
Lemma shortest_path_cells m n : ∀ p,
  in_bounds m p.1 p.2 = true → shortest_to_end m p (Z.of_nat n) →
  ∃ L : list (Z * Z),
    length L = S n ∧ NoDup L
    ∧ ∀ x, x ∈ L → in_bounds m x.1 x.2 = true
                   ∧ ∃ j, j ≤ Z.of_nat n ∧ shortest_to_end m x j.
Proof.
  induction n as [|n IH]; intros p Hb Hp.
  { exists [p]. split_and!; [done|apply NoDup_singleton|].
    intros x ->%list_elem_of_singleton. split; [done|]. by exists 0. }
  assert (Some p ≠ end_node m) as Hne.
  { intros He%shortest_to_end_zero.
    pose proof (shortest_to_end_unique _ _ _ _ Hp He). lia. }
  destruct (shortest_to_end_next _ _ _ Hp Hne) as (q & Hs & Hq).
  replace (Z.of_nat (S n) - 1) with (Z.of_nat n) in Hq by lia.
  destruct (IH q (step_in_bounds _ _ _ Hs) Hq) as (L & Hlen & Hnd & HL).
  exists (p :: L). split_and!.
  - simpl. by rewrite Hlen.
  - apply list.NoDup_cons. split; [|done]. intros (_ & j & Hj & Hpj)%HL.
    pose proof (shortest_to_end_unique _ _ _ _ Hp Hpj). lia.
  - intros x [->|Hx]%elem_of_cons.
    + split; [done|]. exists (Z.of_nat (S n)). split; [lia|done].
    + destruct (HL x Hx) as (? & j & ? & ?). split; [done|].
      exists j. split; [lia|done].
Qed.

Lemma shortest_to_end_bound m p k :
  in_bounds m p.1 p.2 = true → shortest_to_end m p k →
  0 ≤ k ∧ (S (Z.to_nat k) ≤ Z.to_nat (rows m) * Z.to_nat (cols m))%nat.
Proof.
  intros Hb Hp.
  assert (0 ≤ k) as Hk.
  { destruct Hp as (e & _ & Hw & _). by eapply walk_nonneg. }
  split; [done|].
  rewrite <- (Z2Nat.id k) in Hp by done.
  destruct (shortest_path_cells m _ p Hb Hp) as (L & <- & Hnd & HL).
  rewrite <- length_box. apply submseteq_length, NoDup_submseteq; [done|].
  intros x Hx. apply elem_of_box. by apply HL.
Qed.

(** On every well-formed maze, the loop started in bounds returns [True]
    within [rows * cols] calls or raises the error of [A_star]. *)
Lemma solve_loop_total s p :
  wf_maze (s_maze s) → solver s = "A*"%string → current_pos s = Some p →
  in_bounds (s_maze s) p.1 p.2 = true →
  ∃ s',
    (∃ n, (1 ≤ n ≤ Z.to_nat (rows (s_maze s) * cols (s_maze s)))%nat
          ∧ solve_loop (Z.to_nat (rows (s_maze s) * cols (s_maze s))) s = (Ok n, s'))
    ∨ solve_loop (Z.to_nat (rows (s_maze s) * cols (s_maze s))) s
      = (Raise NoAvailableMove, s').
Proof.
  intros Hwf Hsolver Hp Hb.
  pose proof Hb as [Hr Hc]%in_bounds_spec.
  assert (Z.to_nat (rows (s_maze s) * cols (s_maze s))
          = (Z.to_nat (rows (s_maze s)) * Z.to_nat (cols (s_maze s)))%nat) as Hcells
    by (rewrite Z2Nat.inj_mul; lia).
  destruct (distance_of_correct (s_maze s) p Hwf) as [_ Hspec].
  destruct (distance_of (s_maze s) p) as [k|]; simpl in Hspec.
  - destruct (shortest_to_end_bound _ _ _ Hb Hspec) as [Hk Hle].
    rewrite <- (Z2Nat.id k) in Hspec by done.
    destruct (solve_loop_descends (Z.to_nat k) s p
                (Z.to_nat (rows (s_maze s) * cols (s_maze s)) - S (Z.to_nat k))
                Hwf Hsolver Hp Hb Hspec) as [s' Hs'].
    exists s'. left. exists (S (Z.to_nat k)). split; [lia|].
    rewrite <- Hs'. f_equal. lia.
  - assert (∃ n, Z.to_nat (rows (s_maze s) * cols (s_maze s)) = S n) as [n ->].
    { exists (Z.to_nat (rows (s_maze s) * cols (s_maze s)) - 1)%nat. nia. }
    destruct (solve_loop_no_path s p n Hwf Hsolver Hp Hb Hspec) as [s' Hs'].
    exists s'. by right.
Qed.

(** ** set_start and set_end on in-bounds positions *)

Lemma set_start_in_bounds m r c :
  wf_maze m → in_bounds m r c = true →
  ∃ g, py_update2 (maze m) r c mark_start = Ok g
    ∧ set_start m r c = (Ok (), with_start (with_maze m g) (r, c)).
Proof.
  intros Hwf Hb. destruct (update_in_bounds m r c mark_start Hwf Hb) as [g Hg].
  exists g. split; [done|]. unfold set_start. rewrite Hg.
  change (in_bounds (with_maze m g) r c) with (in_bounds m r c). by rewrite Hb.
Qed.

Lemma set_end_in_bounds m r c :
  wf_maze m → in_bounds m r c = true →
  ∃ g, py_update2 (maze m) r c mark_end = Ok g
    ∧ set_end m r c = (Ok (), with_end (with_maze m g) (r, c)).
Proof.
  intros Hwf Hb. destruct (update_in_bounds m r c mark_end Hwf Hb) as [g Hg].
  exists g. split; [done|]. unfold set_end. rewrite Hg.
  change (in_bounds (with_maze m g) r c) with (in_bounds m r c). by rewrite Hb.
Qed.

(** ** The generator keeps the shape of its grid *)

Lemma same_shape_refl g : same_shape g g.
Proof. by repeat split. Qed.

Lemma same_shape_trans g1 g2 g3 :
  same_shape g1 g2 → same_shape g2 g3 → same_shape g1 g3.
Proof. intros (? & ? & ?) (? & ? & ?). repeat split; congruence. Qed.

Lemma foldl_carve_direction_Ok recurse cx cy ds acc st' :
  foldl (carve_direction recurse cx cy) acc ds = Ok st' → ∃ st, acc = Ok st.
Proof.
  revert acc. induction ds as [|d ds IH]; intros acc H; simpl in H; [eauto|].
  apply IH in H as [st H]. destruct acc; [eauto|done..].
Qed.

Lemma carve_direction_shape recurse cx cy st d st' :
  (∀ g k x y r, recurse g k x y = Ok r → same_shape g r.1) →
  carve_direction recurse cx cy (Ok st) d = Ok st' → same_shape st.1 st'.1.
Proof.
  intros Hrec. unfold carve_direction. simpl.
  destruct (_ && _); [|intros [= <-]; apply same_shape_refl].
  destruct (py_get (g_maze st.1) _) as [row| |]; simpl; try done.
  destruct (py_get row _) as [ch| |]; simpl; try done.
  destruct (Ascii.eqb ch "#"); [|intros [= <-]; apply same_shape_refl].
  destruct (py_update2 (g_maze st.1) _ _ _) as [m1| |] eqn:H1; simpl; try done.
  destruct (py_update2 m1 _ _ _) as [m2| |] eqn:H2; simpl; try done.
  intros [Hs [Hw Hh]]%Hrec. simpl in *. repeat split; [|done..].
  rewrite Hs. apply py_update2_shape in H1, H2. congruence.
Qed.

Lemma foldl_carve_direction_shape recurse cx cy ds st st' :
  (∀ g k x y r, recurse g k x y = Ok r → same_shape g r.1) →
  foldl (carve_direction recurse cx cy) (Ok st) ds = Ok st' →
  same_shape st.1 st'.1.
Proof.
  intros Hrec. revert st. induction ds as [|d ds IH]; intros st H; simpl in H.
  { injection H as <-. apply same_shape_refl. }
  destruct (foldl_carve_direction_Ok _ _ _ _ _ _ H) as [st1 H1].
  rewrite H1 in H. apply IH in H.
  eapply same_shape_trans; [|done]. by eapply carve_direction_shape.
Qed.

Lemma carve_passages_from_shape fuel rnd g k cx cy r :
  carve_passages_from fuel rnd g k cx cy = Ok r → same_shape g r.1.
Proof.
  revert g k cx cy r. induction fuel as [|fuel IH]; intros g k cx cy r H; [done|].
  simpl in H. by apply foldl_carve_direction_shape in H.
Qed.

(** ** From the generator to the solver *)

Lemma py_update2_index {A} (l : list (list A)) i j f g :
  0 ≤ i → 0 ≤ j → py_update2 l i j f = Ok g →
  ∃ row, l !! Z.to_nat i = Some row ∧ i < Z.of_nat (length l)
         ∧ j < Z.of_nat (length row).
Proof.
  intros Hi Hj (n & k & row & x & Hn & Hrow & Hk & _)%py_update2_Ok.
  unfold py_index in Hn, Hk. repeat case_bool_decide; try done; try lia.
  injection Hn as <-. exists row. split_and!; [done|lia..].
Qed.

Lemma create_maze_shape (cells : list (list ascii)) :
  map length (create_maze (map string_of_list_ascii cells)) = map length cells.
Proof.
  unfold create_maze. rewrite !map_map. apply map_ext. intros row.
  by rewrite length_map, list_ascii_of_string_of_list_ascii.
Qed.

Lemma generate_layout rnd w h layout g' :
  generate rnd (MazeGenerator_init w h) = Ok (layout, g') →
  2 ≤ w ∧ 2 ≤ h
  ∧ ∃ cells, layout = map string_of_list_ascii cells
      ∧ map length cells = replicate (Z.to_nat h) (Z.to_nat w).
Proof.
  unfold generate. intros H.
  destruct (carve_passages_from _ _ _ _ _ _) as [st| |] eqn:Hc; simpl in H; try done.
  apply carve_passages_from_shape in Hc as (Hs & Hw & Hh).
  destruct (py_update2 (g_maze st.1) 1 1 _) as [m1| |] eqn:H1; simpl in H; try done.
  destruct (py_update2 m1 _ _ _) as [m2| |] eqn:H2; simpl in H; try done.
  injection H as <- <-.
  assert (map length (g_maze st.1) = replicate (Z.to_nat h) (Z.to_nat w)) as Hshape.
  { rewrite Hs. simpl. clear.
    induction (Z.to_nat h) as [|n IH]; simpl; [done|].
    by rewrite IH, length_replicate. }
  pose proof H1 as (row & Hrow & Hlt & Hlt')%py_update2_index; [|lia..].
  assert (length (g_maze st.1) = Z.to_nat h) as Hlen
    by (by rewrite <- (length_map length), Hshape, length_replicate).
  assert (length row = Z.to_nat w) as Hrowlen.
  { assert (map length (g_maze st.1) !! Z.to_nat 1 = Some (length row)) as Hl.
    { change (map length (g_maze st.1)) with (length <$> g_maze st.1).
      by rewrite list_lookup_fmap, Hrow. }
    rewrite Hshape in Hl. by apply lookup_replicate in Hl as [-> _]. }
  split_and!; [lia..|].
  exists m2. split; [done|].
  apply py_update2_shape in H1, H2. congruence.
Qed.

Lemma main_setup_generated rnd w h layout g' strategy :
  generate rnd (MazeGenerator_init w h) = Ok (layout, g') →
  ∃ s, main_setup layout w h strategy = Ok s
    ∧ wf_maze (s_maze s) ∧ rows (s_maze s) = h ∧ cols (s_maze s) = w
    ∧ current_pos s = Some (1, 1)
    ∧ start_node (s_maze s) = Some (1, 1)
    ∧ end_node (s_maze s) = Some (h - 2, w - 2)
    ∧ solver s = strategy.
Proof.
  intros (Hw & Hh & cells & -> & Hshape)%generate_layout.
  unfold main_setup, Maze_init. simpl.
  set (g := create_maze (map string_of_list_ascii cells)).
  assert (map length g = replicate (Z.to_nat h) (Z.to_nat w)) as Hg
    by (subst g; by rewrite create_maze_shape).
  assert (length g = Z.to_nat h) as Hlen
    by (by rewrite <- (length_map length), Hg, length_replicate).
  assert (∀ row, row ∈ g → length row = Z.to_nat w) as Hrows.
  { intros row [i Hi]%list_elem_of_lookup.
    assert (map length g !! i = Some (length row)) as Hl.
    { change (map length g) with (length <$> g).
      by rewrite list_lookup_fmap, Hi. }
    rewrite Hg in Hl. by apply lookup_replicate in Hl as [-> _]. }
  set (m0 := {| maze := g; rows := _; cols := _; start_node := None; end_node := None |}).
  assert (rows m0 = h) as Hr by (simpl; lia).
  assert (cols m0 = w) as Hc.
  { simpl. rewrite bool_decide_true by lia.
    destruct g as [|row g0]; [simpl in Hlen; lia|].
    rewrite (Hrows row) by set_solver. lia. }
  assert (wf_maze m0) as Hwf0.
  { split; [done|]. apply list.Forall_forall. intros row Hrow.
    rewrite Hc, (Hrows row Hrow). lia. }
  destruct (set_start_in_bounds m0 1 1 Hwf0) as (g1 & Hg1 & ->).
  { apply in_bounds_spec. lia. }
  pose proof (wf_maze_update _ _ _ _ _ Hwf0 Hg1) as Hwf1.
  set (m1 := with_start (with_maze m0 g1) (1, 1)).
  assert (wf_maze m1) as Hwf1' by done.
  destruct (set_end_in_bounds m1 (h - 2) (w - 2) Hwf1') as (g2 & Hg2 & ->).
  { apply in_bounds_spec.
    change (rows m1) with (rows m0). change (cols m1) with (cols m0).
    rewrite Hr, Hc. lia. }
  pose proof (wf_maze_update _ _ _ _ _ Hwf1' Hg2) as Hwf2.
  simpl. eexists. split; [done|]. simpl. split_and!; try done.
Qed.

(** ** Reading back a written cell *)

Lemma py_update2_raise {A} (l : list (list A)) i j f e :
  py_update2 l i j f = Raise e → e = IndexError.
Proof.
  unfold py_update2. repeat (case_match; try congruence).
Qed.

(** The write succeeds exactly where the read does, and the cell read back
    is the cell written. *)
Lemma py_update2_read {A} (l : list (list A)) i j f :
  match row ← py_get l i; py_get row j with
  | Ok x => ∃ g, py_update2 l i j f = Ok g
                 ∧ (row ← py_get g i; py_get row j) = Ok (f x)
  | _ => py_update2 l i j f = Raise IndexError
  end.
Proof.
  unfold py_update2, py_get.
  destruct (py_index (Z.of_nat (length l)) i) as [n|] eqn:Hn; simpl; [|done].
  destruct (l !! n) as [row|] eqn:Hrow; simpl; [|done].
  destruct (py_index (Z.of_nat (length row)) j) as [k|] eqn:Hk; simpl; [|done].
  destruct (row !! k) as [x|] eqn:Hx; simpl; [|done].
  eexists. split; [done|].
  rewrite length_insert, Hn.
  rewrite list_lookup_insert_eq by (by eapply lookup_lt_Some). simpl.
  rewrite length_insert, Hk.
  by rewrite list_lookup_insert_eq by (by eapply lookup_lt_Some).
Qed.

Lemma with_maze_id m : with_maze m (maze m) = m.
Proof. by destruct m. Qed.

Lemma with_s_maze_id s : with_s_maze s (s_maze s) = s.
Proof. by destruct s. Qed.

(** Marking a cell that is marked already changes nothing. *)
Lemma py_update2_mark_visited_id (l : list (list MazeNode)) i j g x :
  (row ← py_get l i; py_get row j) = Ok x → visited x = true →
  py_update2 l i j mark_visited = Ok g → g = l.
Proof.
  intros Hget Hv (n & k & row & y & Hn & Hrow & Hk & Hy & ->)%py_update2_Ok.
  unfold py_get in Hget. rewrite Hn, Hrow in Hget. simpl in Hget.
  rewrite Hk, Hy in Hget. injection Hget as ->.
  apply list_insert_id. rewrite Hrow. f_equal. symmetry.
  apply list_insert_id. rewrite Hy. f_equal.
  destruct x; simpl in *; by subst.
Qed.

Lemma length_list_ascii_of_string (s : string) :
  length (list_ascii_of_string s) = String.length s.
Proof. induction s as [|a s IH]; simpl; [done|by rewrite IH]. Qed.

(** A solver built with one cell as start and as end stands on its end:
    either both coordinates are recorded or neither is. *)
Lemma solver_on_same_cell layout p strategy s :
  solver_on layout p p strategy = Ok s → current_pos s = end_node (s_maze s).
Proof.
  unfold solver_on, Maze_init, set_start, set_end, MazeSolver_init. simpl.
  destruct (py_update2 _ p.1 p.2 mark_start) as [g1| |]; simpl; [|done..].
  set (m0 := {| maze := create_maze layout |}).
  change (in_bounds (with_maze m0 g1) p.1 p.2) with (in_bounds m0 p.1 p.2).
  destruct (in_bounds m0 p.1 p.2) eqn:Hb; simpl.
  - destruct (py_update2 _ p.1 p.2 mark_end) as [g2| |]; simpl; [|done..].
    change (in_bounds _ p.1 p.2) with (in_bounds m0 p.1 p.2). rewrite Hb.
    simpl. by intros [= <-].
  - destruct (py_update2 _ p.1 p.2 mark_end) as [g2| |]; simpl; [|done..].
    change (in_bounds _ p.1 p.2) with (in_bounds m0 p.1 p.2). rewrite Hb.
    simpl. by intros [= <-].
Qed.

(** ** The generator returns *)

Lemma sum_list_insert (l : list nat) n a b :
  l !! n = Some a → (sum_list (<[n := b]> l) + a = sum_list l + b)%nat.
Proof.
  revert n. induction l as [|x l IH]; intros [|n] H; simplify_eq/=; [lia|].
  specialize (IH n H). lia.
Qed.

Lemma count_walls_insert (row : list ascii) k x :
  row !! k = Some x →
  (length (filter (λ c, c = "#"%char) (<[k := " "%char]> row))
   + (if decide (x = "#"%char) then 1 else 0)
   = length (filter (λ c, c = "#"%char) row))%nat.
Proof.
  revert k. induction row as [|y row IH]; intros [|k] H; simplify_eq/=.
  - rewrite !filter_cons. rewrite decide_False by done.
    destruct (decide (x = "#"%char)); simpl; lia.
  - rewrite !filter_cons. specialize (IH k H).
    destruct (decide (y = "#"%char)); simpl; lia.
Qed.

Lemma wall_count_insert (l : list (list ascii)) n k row x :
  l !! n = Some row → row !! k = Some x →
  (wall_count (<[n := <[k := " "%char]> row]> l)
   + (if decide (x = "#"%char) then 1 else 0)
   = wall_count l)%nat.
Proof.
  intros Hrow Hx. unfold wall_count.
  change (map ?f ?l) with (f <$> l).
  rewrite list_fmap_insert.
  pose proof (sum_list_insert
    ((λ row, length (filter (λ c, c = "#"%char) row)) <$> l) n
    (length (filter (λ c, c = "#"%char) row))
    (length (filter (λ c, c = "#"%char) (<[k := " "%char]> row)))) as H.
  rewrite list_lookup_fmap, Hrow in H. specialize (H eq_refl).
  pose proof (count_walls_insert row k x Hx). lia.
Qed.

Lemma wall_count_replicate (h w : nat) :
  wall_count (replicate h (replicate w "#"%char)) = (w * h)%nat.
Proof.
  unfold wall_count. induction h as [|h IH]; simpl; [lia|].
  rewrite IH. 
  assert (length (filter (λ c, c = "#"%char) (replicate w "#"%char)) = w) as ->.
  { clear. induction w as [|w IH]; [done|].
    cbn [replicate]. rewrite filter_cons_True by done. simpl. by rewrite IH. }
  lia.
Qed.

Lemma gen_wf_same_shape g g' : gen_wf g → same_shape g g' → gen_wf g'.
Proof.
  intros [Hh Hw] (Hs & Hw' & Hh'). split.
  - rewrite Hh', <- Hh. f_equal.
    by rewrite <- (length_map length (g_maze g')), Hs, length_map.
  - apply Forall_lookup. intros i row Hi.
    assert (map length (g_maze g) !! i = Some (length row)) as H.
    { rewrite <- Hs. change (map length (g_maze g')) with (length <$> g_maze g').
      by rewrite list_lookup_fmap, Hi. }
    change (map length (g_maze g)) with (length <$> g_maze g) in H.
    rewrite list_lookup_fmap in H.
    destruct (g_maze g !! i) as [row'|] eqn:Hrow'; [|done].
    injection H as <-. eapply Forall_lookup_1 in Hw; eauto. congruence.
Qed.

Lemma gen_wf_init w h : 0 ≤ w → 0 ≤ h → gen_wf (MazeGenerator_init w h).
Proof.
  intros Hw Hh. split; simpl.
  - rewrite length_replicate. lia.
  - apply list.Forall_forall. intros row ->%elem_of_replicate_inv.
    rewrite length_replicate. lia.
Qed.

Lemma gen_cell g x y :
  gen_wf g → 0 ≤ x < width g → 0 ≤ y < height g →
  ∃ row c, g_maze g !! Z.to_nat y = Some row ∧ row !! Z.to_nat x = Some c
    ∧ py_get (g_maze g) y = Ok row ∧ py_get row x = Ok c.
Proof.
  intros [Hh Hw] Hx Hy.
  destruct (py_get_in_range (g_maze g) y) as (row & Hrow & Hget); [lia|].
  assert (Z.of_nat (length row) = width g) as Hlen
    by (eapply Forall_lookup_1 in Hw; eauto).
  destruct (py_get_in_range row x) as (c & Hc & Hget'); [lia|].
  by exists row, c.
Qed.

Lemma gen_update g x y v :
  gen_wf g → 0 ≤ x < width g → 0 ≤ y < height g →
  ∃ row c, g_maze g !! Z.to_nat y = Some row ∧ row !! Z.to_nat x = Some c
    ∧ py_update2 (g_maze g) y x (λ _, v)
      = Ok (<[Z.to_nat y := <[Z.to_nat x := v]> row]> (g_maze g)).
Proof.
  intros [Hh Hw] Hx Hy.
  destruct (py_update2_in_range (g_maze g) y x (λ _, v))
    as (row & c & Hrow & Hc & Hupd); [lia| |by exists row, c].
  intros row Hrow. eapply Forall_lookup_1 in Hw; eauto. lia.
Qed.

Lemma same_shape_update g y x v m1 :
  py_update2 (g_maze g) y x (λ _, v) = Ok m1 → same_shape g (with_g_maze g m1).
Proof. intros H%py_update2_shape. by repeat split. Qed.

Lemma DIRS_cases d :
  d ∈ DIRS → d = (0, 1) ∨ d = (1, 0) ∨ d = (0, -1) ∨ d = (-1, 0).
Proof. unfold DIRS. rewrite !elem_of_cons, elem_of_nil. tauto. Qed.

(** One turn of the loop, when the recursive call returns on every grid with
    fewer than [bound] walls. *)
Lemma carve_direction_returns recurse (bound : nat) cx cy st d :
  (∀ g k x y, gen_wf g → 0 ≤ x < width g → 0 ≤ y < height g →
     (wall_count (g_maze g) < bound)%nat →
     ∃ r, recurse g k x y = Ok r ∧ same_shape g r.1
          ∧ (wall_count (g_maze r.1) ≤ wall_count (g_maze g))%nat) →
  gen_wf st.1 → 0 ≤ cx < width st.1 → 0 ≤ cy < height st.1 → d ∈ DIRS →
  (wall_count (g_maze st.1) ≤ bound)%nat →
  ∃ st', carve_direction recurse cx cy (Ok st) d = Ok st'
    ∧ same_shape st.1 st'.1
    ∧ (wall_count (g_maze st'.1) ≤ wall_count (g_maze st.1))%nat.
Proof.
  intros Hrec Hwf Hcx Hcy Hd Hbound. unfold carve_direction. simpl.
  destruct (bool_decide (0 ≤ cx + d.1 * 2 < width st.1)
            && bool_decide (0 ≤ cy + d.2 * 2 < height st.1)) eqn:Hin;
    [|exists st; split_and!; [done|apply same_shape_refl|done]].
  apply andb_true_iff in Hin as [Hnx%bool_decide_eq_true Hny%bool_decide_eq_true].
  destruct (gen_cell st.1 _ _ Hwf Hnx Hny) as (row & c & Hrow & Hc & Hgr & Hgc).
  rewrite Hgr. simpl. rewrite Hgc. simpl. destruct (Ascii.eqb c "#") eqn:Hwall;
    [|exists st; split_and!; [done|apply same_shape_refl|done]].
  apply Ascii.eqb_eq in Hwall as ->.
  assert (0 ≤ cx + d.1 < width st.1 ∧ 0 ≤ cy + d.2 < height st.1) as [Hmx Hmy].
  { destruct (DIRS_cases d Hd) as [-> | [-> | [-> | -> ]]]; simpl in *; lia. }
  destruct (gen_update st.1 _ _ " "%char Hwf Hmx Hmy)
    as (rowm & cm & Hrowm & Hcm & Hm1).
  rewrite Hm1. simpl.
  set (m1 := <[Z.to_nat (cy + d.2) := <[Z.to_nat (cx + d.1) := " "%char]> rowm]>
               (g_maze st.1)) in *.
  pose proof (same_shape_update _ _ _ _ _ Hm1) as Hs1.
  pose proof (gen_wf_same_shape _ _ Hwf Hs1) as Hwf1.
  destruct (gen_update (with_g_maze st.1 m1) _ _ " "%char Hwf1 Hnx Hny)
    as (row2 & c2 & Hrow2 & Hc2 & Hm2).
  simpl in Hrow2, Hm2. rewrite Hm2. simpl.
  set (m2 := <[Z.to_nat (cy + d.2 * 2) :=
                 <[Z.to_nat (cx + d.1 * 2) := " "%char]> row2]> m1) in *.
  assert (c2 = "#"%char) as ->.
  { subst m1.
    destruct (decide (Z.to_nat (cy + d.2) = Z.to_nat (cy + d.2 * 2))) as [Heq|Hneq].
    - rewrite <- Heq in Hrow2, Hrow.
      rewrite list_lookup_insert_eq in Hrow2 by (by eapply lookup_lt_Some).
      injection Hrow2 as <-. assert (rowm = row) as -> by congruence.
      rewrite list_lookup_insert_ne in Hc2; [congruence|].
      destruct (DIRS_cases d Hd) as [-> | [-> | [-> | -> ]]]; simpl in *; lia.
    - rewrite list_lookup_insert_ne in Hrow2 by done. congruence. }
  pose proof (wall_count_insert _ _ _ _ _ Hrowm Hcm) as Hc1.
  pose proof (wall_count_insert _ _ _ _ _ Hrow2 Hc2) as Hcount2.
  rewrite decide_True in Hcount2 by done. fold m1 in Hc1. fold m2 in Hcount2.
  assert (same_shape (with_g_maze st.1 m1) (with_g_maze st.1 m2)) as Hs2
    by exact (same_shape_update (with_g_maze st.1 m1) _ _ _ _ Hm2).
  destruct (Hrec (with_g_maze st.1 m2) st.2 (cx + d.1 * 2) (cy + d.2 * 2))
    as (r & Hr & Hsr & Hwr).
  - eapply gen_wf_same_shape; [exact Hwf1|done].
  - done.
  - done.
  - simpl. destruct (decide (cm = "#"%char)); lia.
  - exists r. split_and!; [done| |].
    + eapply same_shape_trans; [exact Hs1|].
      eapply same_shape_trans; [exact Hs2|done].
    + simpl in Hwr. destruct (decide (cm = "#"%char)); lia.
Qed.

Lemma foldl_carve_direction_returns recurse (bound : nat) cx cy ds : ∀ st,
  (∀ g k x y, gen_wf g → 0 ≤ x < width g → 0 ≤ y < height g →
     (wall_count (g_maze g) < bound)%nat →
     ∃ r, recurse g k x y = Ok r ∧ same_shape g r.1
          ∧ (wall_count (g_maze r.1) ≤ wall_count (g_maze g))%nat) →
  gen_wf st.1 → 0 ≤ cx < width st.1 → 0 ≤ cy < height st.1 →
  Forall (λ d, d ∈ DIRS) ds →
  (wall_count (g_maze st.1) ≤ bound)%nat →
  ∃ st', foldl (carve_direction recurse cx cy) (Ok st) ds = Ok st'
    ∧ same_shape st.1 st'.1
    ∧ (wall_count (g_maze st'.1) ≤ wall_count (g_maze st.1))%nat.
Proof.
  induction ds as [|d ds IH]; intros st Hrec Hwf Hcx Hcy Hds Hbound.
  { exists st. split_and!; [done|apply same_shape_refl|done]. }
  apply list.Forall_cons in Hds as [Hd Hds]. cbn [foldl].
  destruct (carve_direction_returns recurse bound cx cy st d)
    as (st1 & -> & Hs1 & Hw1); try done.
  pose proof Hs1 as (_ & Hwidth & Hheight).
  destruct (IH st1) as (st' & -> & Hs' & Hw'); try done.
  - by eapply gen_wf_same_shape.
  - by rewrite Hwidth.
  - by rewrite Hheight.
  - lia.
  - exists st'. split_and!; [done| |lia].
    by eapply same_shape_trans.
Qed.

Lemma carve_passages_from_returns rnd (fuel : nat) : ∀ g k cx cy,
  shuffle_outcome rnd →
  gen_wf g → 0 ≤ cx < width g → 0 ≤ cy < height g →
  (wall_count (g_maze g) < fuel)%nat →
  ∃ r, carve_passages_from fuel rnd g k cx cy = Ok r ∧ same_shape g r.1
       ∧ (wall_count (g_maze r.1) ≤ wall_count (g_maze g))%nat.
Proof.
  induction fuel as [|fuel IH]; intros g k cx cy Hrnd Hwf Hcx Hcy Hfuel; [lia|].
  cbn [carve_passages_from].
  apply (foldl_carve_direction_returns _ fuel cx cy (rnd k) (g, S k)); try done.
  - intros g0 k0 x y ? ? ? ?. by apply IH.
  - apply list.Forall_forall. intros d Hd. by rewrite <- (Hrnd k).
  - simpl. lia.
Qed.

(** [generate] returns a layout for all extents from 2 x 2 on and all
    outcomes of the shuffles. *)
Lemma generate_returns rnd w h :
  shuffle_outcome rnd → 2 ≤ w → 2 ≤ h →
  ∃ layout g', generate rnd (MazeGenerator_init w h) = Ok (layout, g').
Proof.
  intros Hrnd Hw Hh. unfold generate.
  assert (gen_wf (MazeGenerator_init w h)) as Hwf by (apply gen_wf_init; lia).
  destruct (carve_passages_from_returns rnd (carve_fuel (MazeGenerator_init w h))
              (MazeGenerator_init w h) 0 1 1) as (st & -> & Hs & _); try done.
  - simpl. lia.
  - simpl. lia.
  - unfold carve_fuel. simpl. rewrite wall_count_replicate. lia.
  - simpl. pose proof (gen_wf_same_shape _ _ Hwf Hs) as Hwf1.
    pose proof Hs as (_ & Hwidth & Hheight). simpl in Hwidth, Hheight.
    destruct (gen_update st.1 1 1 "S"%char Hwf1) as (row & c & _ & _ & Hm1);
      [lia..|].
    rewrite Hm1. simpl.
    pose proof (same_shape_update _ _ _ _ _ Hm1) as Hs1.
    pose proof (gen_wf_same_shape _ _ Hwf1 Hs1) as Hwf2.
    destruct (gen_update (with_g_maze st.1 _) (w - 2) (h - 2) "E"%char Hwf2)
      as (row2 & c2 & _ & _ & Hm2); [simpl; lia..|].
    simpl in Hm2. rewrite Hm2. simpl. eauto.
Qed.

(** ** The claims *)

Lemma calculate_distance_to_end_of m p d :
  wf_maze m →
  calculate_distance_to_end m (p.1 + d.1) (p.2 + d.2)
  = Ok (distance_of m (add_tuples p d)).
Proof. intros Hwf. by destruct (distance_of_correct m (add_tuples p d) Hwf). Qed.

Lemma shuffle_outcome_identity : shuffle_outcome identity_shuffles.
Proof. intros k. reflexivity. Qed.

Lemma shuffle_outcome_round_trip : shuffle_outcome round_trip_shuffles.
Proof.
  intros k. do 4 (destruct k as [|k]; [by apply (bool_decide_unpack _)|]).
  reflexivity.
Qed.

(** C1: for every layout that [generate] returns, whatever the shuffles and
    the extents, the calls of [main] build a solver on it, started at
    (1, 1); the driver loop on that solver, allowed [rows * cols] calls of
    [solve_step], either sees a call return [True] (the [n]-th, with
    [n ≤ rows * cols]) or is stopped by the error of [A_star].  It does not
    use up its calls. *)
Theorem solve_loop_generated_terminates
    (rnd : shuffles) (w h : Z) (layout : list string) (g' : MazeGenerator) :
  shuffle_outcome rnd →
  generate rnd (MazeGenerator_init w h) = Ok (layout, g') →
  ∃ s, main_setup layout w h "A*" = Ok s
    ∧ rows (s_maze s) = h ∧ cols (s_maze s) = w
    ∧ current_pos s = start_node (s_maze s)
    ∧ ∃ s',
        (∃ n, (1 ≤ n ≤ Z.to_nat (h * w))%nat
              ∧ solve_loop (Z.to_nat (h * w)) s = (Ok n, s'))
        ∨ solve_loop (Z.to_nat (h * w)) s = (Raise NoAvailableMove, s').
Proof.
  intros _ Hgen.
  pose proof Hgen as (Hw & Hh & _)%generate_layout.
  destruct (main_setup_generated rnd w h layout g' "A*" Hgen)
    as (s & Hs & Hwf & Hrows & Hcols & Hpos & Hstart & Hend & Hsolver).
  exists s. split_and!; try done.
  - congruence.
  - destruct (solve_loop_total s (1, 1) Hwf Hsolver Hpos) as [s' H].
    { apply in_bounds_spec. simpl. lia. }
    rewrite Hrows, Hcols in H. by exists s'.
Qed.

Lemma solve_loop_generated_terminates_witness :
  ∃ s, main_setup layout_6x6 6 6 "A*" = Ok s
    ∧ rows (s_maze s) = 6 ∧ cols (s_maze s) = 6
    ∧ current_pos s = start_node (s_maze s)
    ∧ ∃ s',
        (∃ n, (1 ≤ n ≤ Z.to_nat (6 * 6))%nat
              ∧ solve_loop (Z.to_nat (6 * 6)) s = (Ok n, s'))
        ∨ solve_loop (Z.to_nat (6 * 6)) s = (Raise NoAvailableMove, s').
Proof.
  eapply (solve_loop_generated_terminates identity_shuffles 6 6 layout_6x6).
  - intros k. reflexivity.
  - vm_compute. reflexivity.
Defined.

(** C2, at a failing input: for width 6 and height 6, with shuffles that
    leave the directions in their order, [generate] returns a layout of 19
    open cells with 20 pairs of adjacent open cells, where a tree has 18.
    With the shuffles of [round_trip_shuffles] the passages carved from
    (1, 1) run around the wall at (2, 2) and back into (1, 1). *)
Theorem generate_6x6_not_a_tree :
  shuffle_outcome identity_shuffles
  ∧ (∃ g', generate identity_shuffles (MazeGenerator_init 6 6) = Ok (layout_6x6, g'))
  ∧ open_cell_count layout_6x6 = 19%nat
  ∧ open_pair_count layout_6x6 = 20%nat
  ∧ shuffle_outcome round_trip_shuffles
  ∧ (∃ g', generate round_trip_shuffles (MazeGenerator_init 6 6)
           = Ok (layout_round_trip, g'))
  ∧ open_cell_count layout_round_trip = 19%nat
  ∧ open_pair_count layout_round_trip = 20%nat
  ∧ Forall (λ p, layout_open layout_round_trip p.1 p.2 = true)
           [(1, 1); (1, 2); (1, 3); (2, 3); (3, 3); (3, 2); (3, 1); (2, 1)]%nat.
Proof.
  split_and!.
  - apply shuffle_outcome_identity.
  - eexists. vm_compute. reflexivity.
  - reflexivity.
  - reflexivity.
  - apply shuffle_outcome_round_trip.
  - eexists. vm_compute. reflexivity.
  - reflexivity.
  - reflexivity.
  - repeat constructor.
Qed.





(** C5: on a well-formed maze, from a position that is not the end and from
    which no available direction leads to a cell at finite distance (there
    may be no available direction at all), [A_star] raises its error and
    moves nothing.  [solve_step], called there with the strategy "A*",
    raises that error instead of returning, and the driver loop stops with
    it at that call, whatever number of calls it was allowed: nothing
    catches the error or tries again. *)
Theorem solve_step_no_available_move (s : MazeSolver) (row col : Z) :
  wf_maze (s_maze s) →
  current_pos s = Some (row, col) →
  Some (row, col) ≠ end_node (s_maze s) →
  (∀ d, d ∈ available (s_maze s) (row, col) →
        calculate_distance_to_end (s_maze s) (row + d.1) (col + d.2) = Ok Infinity) →
  A_star s row col = (Raise NoAvailableMove, s)
  ∧ (solver s = "A*"%string →
     in_bounds (s_maze s) row col = true →
     ∃ s', solve_step s = (Raise NoAvailableMove, s')
           ∧ current_pos s' = Some (row, col)
           ∧ ∀ calls, solve_loop (S calls) s = (Raise NoAvailableMove, s')).
Proof.
  intros Hwf Hp Hne Hinf.
  assert (∃ least, foldl (pick (s_maze s) (row, col)) (Infinity, None)
                     (available (s_maze s) (row, col)) = (least, None))
    as [least Hfold].
  { destruct (foldl_pick_spec (s_maze s) (row, col) (available (s_maze s) (row, col)))
      as [[Hfold _]|(l1 & b & l2 & k & Hds & _ & Hbk & _)]; [by eexists|].
    assert (b ∈ available (s_maze s) (row, col)) as Hin
      by (rewrite Hds; set_solver).
    apply Hinf in Hin.
    rewrite (calculate_distance_to_end_of _ (row, col)) in Hin by done.
    congruence. }
  split.
  - pose proof (A_star_wf s (row, col) Hwf Hp) as HA. simpl in HA.
    by rewrite HA, Hfold.
  - intros Hsolver Hb.
    destruct (solve_step_wf s (row, col) Hwf Hsolver Hp Hb Hne)
      as (g & Hg & _ & _ & Hstep).
    rewrite Hfold in Hstep. eexists. split_and!; [done|done|].
    intros calls. cbn [solve_loop]. by rewrite Hstep.
Qed.

Lemma solve_step_no_available_move_witness :
  A_star blocked_solver 0 0 = (Raise NoAvailableMove, blocked_solver)
  ∧ (solver blocked_solver = "A*"%string →
     in_bounds (s_maze blocked_solver) 0 0 = true →
     ∃ s', solve_step blocked_solver = (Raise NoAvailableMove, s')
           ∧ current_pos s' = Some (0, 0)
           ∧ ∀ calls, solve_loop (S calls) blocked_solver
                      = (Raise NoAvailableMove, s')).
Proof.
  apply (solve_step_no_available_move blocked_solver 0 0).
  - split; [reflexivity|]. repeat constructor.
  - reflexivity.
  - discriminate.
  - intros d [_ Hd]%list_elem_of_filter.
    repeat (apply elem_of_cons in Hd as [->|Hd]; [by vm_compute|]).
    by apply elem_of_nil in Hd.
Defined.

(** C6: when the current position is the recorded end, one call of
    [solve_step] returns [True] and the solver, its maze and every flag of
    every cell are what they were; the driver loop therefore stops at its
    first call.  A solver built with the same cell as start and as end is in
    such a state, so its first call returns [True]. *)
Theorem solve_step_at_end (s : MazeSolver) :
  current_pos s = end_node (s_maze s) →
  solve_step s = (Ok true, s)
  ∧ (∀ calls, solve_loop (S calls) s = (Ok 1%nat, s))
  ∧ ∀ layout p strategy s0,
      solver_on layout p p strategy = Ok s0 → solve_step s0 = (Ok true, s0).
Proof.
  intros H.
  assert (∀ s1, current_pos s1 = end_node (s_maze s1) →
                solve_step s1 = (Ok true, s1)) as Hstep.
  { intros s1 H1. unfold solve_step. by rewrite bool_decide_true. }
  split_and!.
  - by apply Hstep.
  - intros calls. simpl. by rewrite Hstep.
  - intros layout p strategy s0 Hs0. by eapply Hstep, solver_on_same_cell.
Qed.

Lemma solve_step_at_end_witness :
  solver_on layout_3x3 (1, 1) (1, 1) "A*" = Ok solver_3x3
  ∧ solve_step solver_3x3 = (Ok true, solver_3x3)
  ∧ (∀ calls, solve_loop (S calls) solver_3x3 = (Ok 1%nat, solver_3x3))
  ∧ ∀ layout p strategy s0,
      solver_on layout p p strategy = Ok s0 → solve_step s0 = (Ok true, s0).
Proof.
  split; [reflexivity|]. apply (solve_step_at_end solver_3x3). reflexivity.
Defined.

(** C7 (as the code has it): [Maze.__init__] checks nothing.  Every layout,
    ragged and empty ones included, yields a maze whose [rows] is the number
    of rows of the layout and whose [cols] is the length of its first row
    (0 for the empty layout). *)
Theorem Maze_init_accepts_every_layout (layout : list string) :
  ∃ m, Maze_init layout = Ok m
    ∧ maze m = create_maze layout
    ∧ rows m = Z.of_nat (length layout)
    ∧ cols m = match layout with
               | row :: _ => Z.of_nat (String.length row)
               | [] => 0
               end
    ∧ start_node m = None ∧ end_node m = None.
Proof.
  eexists. split; [reflexivity|]. simpl. split_and!; try done.
  - unfold create_maze. by rewrite length_map.
  - destruct layout as [|row layout]; [done|].
    rewrite bool_decide_true by (simpl; lia). simpl.
    by rewrite length_map, length_list_ascii_of_string.
Qed.

(** C7, refuted as stated: the ragged layout ["##", "###"] and the empty
    layout are both accepted. *)
Lemma Maze_init_ragged_accepted :
  (∃ m, Maze_init ragged_layout = Ok m ∧ rows m = 2 ∧ cols m = 2
        ∧ map length (maze m) = [2%nat; 3%nat])
  ∧ Maze_init [] = Ok empty_maze.
Proof. split; [eexists; split; [reflexivity|done]|reflexivity]. Qed.

(** C8 (as the code has it): [MazeSolver.__init__] accepts every strategy
    string.  With a string other than "A*", [find_move] does nothing: a call
    of [solve_step] away from the end marks the current cell, leaves the
    position where it was and returns [False]. *)
Theorem MazeSolver_init_accepts_every_strategy (m : Maze) (strategy : string) :
  strategy ≠ "A*"%string →
  ∃ s, MazeSolver_init m strategy = Ok s
    ∧ s_maze s = m ∧ current_pos s = start_node m ∧ solver s = strategy
    ∧ ∀ s' : MazeSolver, solver s' = strategy →
        (∀ row col, find_move s' row col = (Ok (), s'))
        ∧ ∀ row col g,
            current_pos s' = Some (row, col) →
            Some (row, col) ≠ end_node (s_maze s') →
            py_update2 (maze (s_maze s')) row col mark_visited = Ok g →
            solve_step s'
            = (Ok false, with_s_maze s' (with_maze (s_maze s') g)).
Proof.
  intros Hne. eexists. split; [reflexivity|]. simpl. split_and!; try done.
  intros s' Hs'.
  assert (∀ s'' row col, solver s'' = strategy → find_move s'' row col = (Ok (), s''))
    as Hfind.
  { intros s'' row col Hs''. unfold find_move.
    rewrite bool_decide_false; [done|congruence]. }
  split; [by intros; apply Hfind|].
  intros row col g Hp Hend Hg. unfold solve_step.
  rewrite Hp, bool_decide_false by done. rewrite Hg.
  by rewrite Hfind.
Qed.

Lemma MazeSolver_init_accepts_every_strategy_witness :
  ∃ s, MazeSolver_init maze_3x3 "dijkstra" = Ok s
    ∧ s_maze s = maze_3x3 ∧ current_pos s = start_node maze_3x3
    ∧ solver s = "dijkstra"%string
    ∧ ∀ s' : MazeSolver, solver s' = "dijkstra"%string →
        (∀ row col, find_move s' row col = (Ok (), s'))
        ∧ ∀ row col g,
            current_pos s' = Some (row, col) →
            Some (row, col) ≠ end_node (s_maze s') →
            py_update2 (maze (s_maze s')) row col mark_visited = Ok g →
            solve_step s'
            = (Ok false, with_s_maze s' (with_maze (s_maze s') g)).
Proof.
  apply (MazeSolver_init_accepts_every_strategy maze_3x3 "dijkstra").
  discriminate.
Defined.

(** C8, refuted as stated: constructing a solver with the strategy
    "dijkstra" raises nothing. *)
Lemma MazeSolver_init_unknown_strategy :
  ∃ s, MazeSolver_init maze_3x3 "dijkstra" = Ok s
       ∧ solver s = "dijkstra"%string
       ∧ ∀ e, MazeSolver_init maze_3x3 "dijkstra" ≠ Raise e.
Proof. eexists. split; [reflexivity|]. split; [done|]. discriminate. Qed.

(** C9 (as the code has it): [set_start] and [set_end] write the flag of
    [self.maze[row][col]] first, with Python's indexing, and record the
    coordinate only when it lies within the extents.  In bounds, the flag is
    set and the coordinate recorded.  Out of bounds, the coordinate is never
    recorded; when the index still resolves to a cell (a negative index
    counts from the end), that cell gets the flag and the call returns; when
    it does not, the call raises [IndexError] and changes nothing. *)
Theorem set_start_set_end_bounds (m : Maze) (row col : Z) :
  wf_maze m →
  if in_bounds m row col then
    ∃ n ms me,
      get_node m row col = Ok n
      ∧ set_start m row col = (Ok (), ms)
      ∧ start_node ms = Some (row, col)
      ∧ get_node ms row col = Ok (mark_start n)
      ∧ set_end m row col = (Ok (), me)
      ∧ end_node me = Some (row, col)
      ∧ get_node me row col = Ok (mark_end n)
  else
    match get_node m row col with
    | Ok n =>
        ∃ ms me,
          set_start m row col = (Ok (), ms)
          ∧ start_node ms = start_node m
          ∧ get_node ms row col = Ok (mark_start n)
          ∧ set_end m row col = (Ok (), me)
          ∧ end_node me = end_node m
          ∧ get_node me row col = Ok (mark_end n)
    | _ =>
        set_start m row col = (Raise IndexError, m)
        ∧ set_end m row col = (Raise IndexError, m)
    end.
Proof.
  intros Hwf.
  pose proof (py_update2_read (maze m) row col mark_start) as Hs.
  pose proof (py_update2_read (maze m) row col mark_end) as He.
  fold (get_node m row col) in Hs, He.
  unfold set_start, set_end.
  destruct (in_bounds m row col) eqn:Hb.
  - destruct (get_node_in_bounds m Hwf row col Hb) as (n & _ & Hn).
    rewrite Hn in Hs, He.
    destruct Hs as (gs & -> & Hgs), He as (ge & -> & Hge).
    change (in_bounds (with_maze m gs) row col) with (in_bounds m row col).
    change (in_bounds (with_maze m ge) row col) with (in_bounds m row col).
    rewrite Hb. exists n. eexists. eexists. split_and!; done.
  - destruct (get_node m row col) as [n| |].
    + destruct Hs as (gs & -> & Hgs), He as (ge & -> & Hge).
      change (in_bounds (with_maze m gs) row col) with (in_bounds m row col).
      change (in_bounds (with_maze m ge) row col) with (in_bounds m row col).
      rewrite Hb. eexists. eexists. split_and!; done.
    + by rewrite Hs, He.
    + by rewrite Hs, He.
Qed.

Lemma set_start_set_end_bounds_witness :
  ∃ ms me,
    set_start maze_3x3 (-1) (-2) = (Ok (), ms)
    ∧ start_node ms = start_node maze_3x3
    ∧ get_node ms (-1) (-2) = Ok (mark_start (MazeNode_init false))
    ∧ set_end maze_3x3 (-1) (-2) = (Ok (), me)
    ∧ end_node me = end_node maze_3x3
    ∧ get_node me (-1) (-2) = Ok (mark_end (MazeNode_init false)).
Proof.
  apply (set_start_set_end_bounds maze_3x3 (-1) (-2)).
  split; [reflexivity|]. repeat constructor.
Defined.

(** C9, refuted as stated: on the 3 x 3 maze, [set_start(3, 0)] and
    [set_end(0, 3)] do not return; they raise [IndexError]. *)
Lemma set_start_beyond_extent_raises :
  in_bounds maze_3x3 3 0 = false
  ∧ set_start maze_3x3 3 0 = (Raise IndexError, maze_3x3)
  ∧ in_bounds maze_3x3 0 3 = false
  ∧ set_end maze_3x3 0 3 = (Raise IndexError, maze_3x3).
Proof. by split_and!. Qed.

(** C10 (as the code has it): when [solve_step] raises the error of
    [A_star], the flag [visited] of the current cell has been set, and
    nothing else has changed.  The solver after the failed call differs from
    the solver before it exactly when the cell had not been visited. *)
Theorem failed_step_keeps_mark (s s' : MazeSolver) :
  solve_step s = (Raise NoAvailableMove, s') →
  ∃ row col n g,
    current_pos s = Some (row, col)
    ∧ get_node (s_maze s) row col = Ok n
    ∧ py_update2 (maze (s_maze s)) row col mark_visited = Ok g
    ∧ s' = with_s_maze s (with_maze (s_maze s) g)
    ∧ get_node (s_maze s') row col = Ok (mark_visited n)
    ∧ (visited n = false → s' ≠ s)
    ∧ (visited n = true → s' = s).
Proof.
  unfold solve_step. case_bool_decide; [done|].
  destruct (current_pos s) as [[row col]|]; [|done].
  pose proof (py_update2_read (maze (s_maze s)) row col mark_visited) as Hread.
  fold (get_node (s_maze s) row col) in Hread.
  destruct (py_update2 _ row col _) as [g|e|] eqn:Hg; [| |done].
  2:{ apply py_update2_raise in Hg as ->. done. }
  destruct (get_node (s_maze s) row col) as [n| |] eqn:Hn; [|done..].
  destruct Hread as (g' & [= <-] & Hback).
  destruct (find_move _ row col) as [[[]|e|] s2] eqn:Hfind; [done| |done].
  intros [= -> <-]. apply find_move_raise_state in Hfind as ->.
  exists row, col, n, g. split_and!; try done.
  - intros Hv Heq.
    assert (get_node (s_maze s) row col = Ok (mark_visited n)) as Hn'
      by (by rewrite <- Heq).
    rewrite Hn in Hn'. injection Hn' as Hn'. rewrite Hn' in Hv. done.
  - intros Hv. rewrite (py_update2_mark_visited_id _ _ _ _ _ Hn Hv Hg).
    by rewrite with_maze_id, with_s_maze_id.
Qed.

Lemma failed_step_keeps_mark_witness :
  ∃ row col n g,
    current_pos blocked_solver = Some (row, col)
    ∧ get_node (s_maze blocked_solver) row col = Ok n
    ∧ py_update2 (maze (s_maze blocked_solver)) row col mark_visited = Ok g
    ∧ blocked_solver_failed
      = with_s_maze blocked_solver (with_maze (s_maze blocked_solver) g)
    ∧ get_node (s_maze blocked_solver_failed) row col = Ok (mark_visited n)
    ∧ (visited n = false → blocked_solver_failed ≠ blocked_solver)
    ∧ (visited n = true → blocked_solver_failed = blocked_solver).
Proof.
  apply (failed_step_keeps_mark blocked_solver blocked_solver_failed).
  vm_compute. reflexivity.
Defined.

(** C10, refuted as stated: a second call after a failed one raises again
    and leaves the solver as it found it. *)
Lemma failed_step_repeated :
  solver_on blocked_layout (0, 0) (0, 3) "A*" = Ok blocked_solver
  ∧ solve_step blocked_solver = (Raise NoAvailableMove, blocked_solver_failed)
  ∧ solve_step blocked_solver_failed
    = (Raise NoAvailableMove, blocked_solver_failed).
Proof. split_and!; vm_compute; reflexivity. Qed.

(** ** Further properties of the solver *)

Lemma same_passages_refl m : same_passages m m.
Proof. by repeat split. Qed.

Lemma same_passages_trans m1 m2 m3 :
  same_passages m1 m2 → same_passages m2 m3 → same_passages m1 m3.
Proof. intros (? & ? & ? & ?) (? & ? & ? & ?). repeat split; congruence. Qed.

Lemma shortest_to_end_same_passages m m' p k :
  wf_maze m → wf_maze m' → same_passages m m' →
  shortest_to_end m p k → shortest_to_end m' p k.
Proof.
  intros Hwf Hwf' Hsame Hk.
  destruct (distance_of_correct m p Hwf) as [_ Hspec].
  destruct (distance_of_correct m' p Hwf') as [_ Hspec'].
  rewrite <- (distance_of_same_passages m m') in Hspec' by done.
  assert (distance_of m p = Finite k) as Hd
    by (by apply (distance_spec_unique m p)).
  by rewrite Hd in Hspec'.
Qed.

(** From a cell at distance [n] the loop needs call [n + 1], returns there,
    and leaves the solver on the end. *)
Lemma solve_loop_shortest n : ∀ s p,
  wf_maze (s_maze s) → solver s = "A*"%string → current_pos s = Some p →
  in_bounds (s_maze s) p.1 p.2 = true →
  shortest_to_end (s_maze s) p (Z.of_nat n) →
  (∀ calls, (calls ≤ n)%nat → (solve_loop calls s).1 = OutOfFuel)
  ∧ ∃ s', (∀ extra, solve_loop (S n + extra) s = (Ok (S n), s'))
          ∧ current_pos s' = end_node (s_maze s')
          ∧ wf_maze (s_maze s')
          ∧ same_passages (s_maze s) (s_maze s').
Proof.
  induction n as [|n IH]; intros s p Hwf Hsolver Hp Hb Hdist.
  { split.
    - intros calls Hc. by replace calls with 0%nat by lia.
    - exists s. split_and!; [|..|done|apply same_passages_refl].
      + intros extra. apply solve_loop_at_end.
        rewrite Hp. by apply shortest_to_end_zero.
      + rewrite Hp. by apply shortest_to_end_zero. }
  assert (Some p ≠ end_node (s_maze s)) as Hne.
  { intros He%shortest_to_end_zero.
    pose proof (shortest_to_end_unique _ _ _ _ Hdist He). lia. }
  destruct (solve_step_wf s p Hwf Hsolver Hp Hb Hne)
    as (g & Hg & Hwf' & Hsame & Hstep).
  destruct (pick_descends _ _ _ Hwf Hdist Hne) as (least & b & Hfold & Hbin & Hnext).
  rewrite Hfold in Hstep.
  set (s2 := with_pos (with_s_maze s (with_maze (s_maze s) g)) (add_tuples p b)) in *.
  replace (Z.of_nat (S n) - 1) with (Z.of_nat n) in Hnext by lia.
  destruct (IH s2 (add_tuples p b)) as (Hless & s' & Hs' & Hend & Hwfs' & Hsame');
    try done.
  - apply available_step, step_in_bounds in Hbin. by rewrite <- Hbin.
  - by apply (shortest_to_end_same_passages (s_maze s)).
  - split.
    + intros [|calls] Hc; [done|]. cbn [solve_loop]. rewrite Hstep.
      specialize (Hless calls ltac:(lia)).
      destruct (solve_loop calls s2) as [[?| |] ?]; simpl in *; done.
    + exists s'. split_and!; [|done|done|].
      * intros extra. change (S (S n) + extra)%nat with (S (S n + extra)).
        cbn [solve_loop]. by rewrite Hstep, Hs'.
      * by apply (same_passages_trans _ (s_maze s2)).
Qed.

(** X10: the solver walks a shortest path.  On a well-formed maze, with the
    strategy "A*", from an in-bounds position for which
    [calculate_distance_to_end] returns [k], the driver loop returns at call
    [k + 1] however many more calls it is allowed, with fewer calls it has not
    returned yet, and the solver it leaves stands on the end, on a maze with
    the same passages. *)
Theorem solve_loop_follows_shortest_path (s : MazeSolver) (row col k : Z) :
  wf_maze (s_maze s) →
  solver s = "A*"%string →
  current_pos s = Some (row, col) →
  in_bounds (s_maze s) row col = true →
  calculate_distance_to_end (s_maze s) row col = Ok (Finite k) →
  0 ≤ k
  ∧ (∀ calls, (calls ≤ Z.to_nat k)%nat → (solve_loop calls s).1 = OutOfFuel)
  ∧ ∃ s', (∀ extra, solve_loop (S (Z.to_nat k) + extra) s
                    = (Ok (S (Z.to_nat k)), s'))
          ∧ current_pos s' = end_node (s_maze s')
          ∧ same_passages (s_maze s) (s_maze s').
Proof.
  intros Hwf Hsolver Hp Hb Hk.
  destruct (calculate_distance_to_end_correct _ row col Hwf) as (d & Hd & Hspec).
  rewrite Hk in Hd. injection Hd as <-. simpl in Hspec.
  assert (0 ≤ k) as Hk0.
  { destruct Hspec as (e & _ & Hw & _). by eapply walk_nonneg. }
  rewrite <- (Z2Nat.id k) in Hspec by done.
  destruct (solve_loop_shortest _ s (row, col) Hwf Hsolver Hp Hb Hspec)
    as (Hless & s' & Hs' & Hend & _ & Hsame).
  split_and!; [done|done|]. by exists s'.
Qed.

Lemma solve_loop_follows_shortest_path_witness :
  0 ≤ 8
  ∧ (∀ calls, (calls ≤ Z.to_nat 8)%nat → (solve_loop calls solver_6x6).1 = OutOfFuel)
  ∧ ∃ s', (∀ extra, solve_loop (S (Z.to_nat 8) + extra) solver_6x6
                    = (Ok (S (Z.to_nat 8)), s'))
          ∧ current_pos s' = end_node (s_maze s')
          ∧ same_passages (s_maze solver_6x6) (s_maze s').
Proof.
  apply (solve_loop_follows_shortest_path solver_6x6 1 1 8).
  - split; [reflexivity|]. repeat constructor.
  - reflexivity.
  - reflexivity.
  - reflexivity.
  - vm_compute. reflexivity.
Defined.

(** ** What solve_step changes *)

Lemma only_marks_refl m : only_marks m m.
Proof. by split_and!. Qed.

Lemma only_marks_trans m1 m2 m3 :
  only_marks m1 m2 → only_marks m2 m3 → only_marks m1 m3.
Proof.
  intros (Hp & Hs & Hst & He & Hv) (Hp' & Hs' & Hst' & He' & Hv').
  split_and!; try congruence; [by eapply same_passages_trans|auto].
Qed.

Lemma flag_update g i j x n k row (f : MazeNode → bool) (h : MazeNode → MazeNode) :
  g !! n = Some row → row !! k = Some x →
  flag f (<[n := <[k := h x]> row]> g) i j
  = if decide (i = n ∧ j = k) then f (h x) else flag f g i j.
Proof.
  intros Hrow Hx. unfold flag.
  destruct (decide (i = n)) as [->|Hi].
  - rewrite list_lookup_insert_eq by (by eapply lookup_lt_Some). simpl.
    rewrite Hrow. simpl.
    destruct (decide (j = k)) as [->|Hj].
    + rewrite list_lookup_insert_eq by (by eapply lookup_lt_Some).
      by rewrite decide_True.
    + rewrite list_lookup_insert_ne by done. by rewrite decide_False by tauto.
  - rewrite list_lookup_insert_ne by done. by rewrite decide_False by tauto.
Qed.

Lemma only_marks_update m r c g :
  py_update2 (maze m) r c mark_visited = Ok g → only_marks m (with_maze m g).
Proof.
  intros Hg. split_and!.
  - by apply (same_passages_update m r c mark_visited g).
  - done.
  - by apply (py_update2_map is_start _ r c mark_visited).
  - by apply (py_update2_map is_end _ r c mark_visited).
  - apply py_update2_Ok in Hg as (n & k & row & x & _ & Hrow & _ & Hx & ->).
    intros i j Hv. simpl. rewrite (flag_update _ _ _ _ _ _ _ _ _ Hrow Hx).
    by case_decide.
Qed.

Lemma A_star_maze s r c : 
  s_maze (A_star s r c).2 = s_maze s ∧ solver (A_star s r c).2 = solver s
  ∧ facing (A_star s r c).2 = facing s.
Proof.
  unfold A_star.
  destruct (get_available_directions _ _ _) as [ds| |]; [|done..].
  destruct (foldl _ _ _) as [[least [best|]]| |]; [|done..].
  by destruct (current_pos s).
Qed.

Lemma find_move_maze s r c :
  s_maze (find_move s r c).2 = s_maze s ∧ solver (find_move s r c).2 = solver s
  ∧ facing (find_move s r c).2 = facing s.
Proof. unfold find_move. case_bool_decide; [apply A_star_maze|done]. Qed.

Lemma solve_step_only_marks s :
  only_marks (s_maze s) (s_maze (solve_step s).2)
  ∧ solver (solve_step s).2 = solver s ∧ facing (solve_step s).2 = facing s.
Proof.
  unfold solve_step. case_bool_decide; [by split; [apply only_marks_refl|]|].
  destruct (current_pos s) as [[row col]|]; [|by split; [apply only_marks_refl|]].
  destruct (py_update2 _ row col _) as [g| |] eqn:Hg;
    [|by split; [apply only_marks_refl|]..].
  pose proof (find_move_maze (with_s_maze s (with_maze (s_maze s) g)) row col)
    as (Hm & Hs & Hf).
  destruct (find_move _ row col) as [[[]| |] s2]; simpl in *;
    rewrite Hm, Hs, Hf; (split; [by eapply only_marks_update|done]).
Qed.

(** X9: whatever a call of [solve_step] does (return, move, raise), it
    changes nothing of the maze but [visited] flags, and those only from
    [False] to [True]: extents, recorded start and end, and the
    [traversable], [is_start] and [is_end] flags of every cell stay, and so
    do the strategy and [facing].  The same holds after any number of calls
    of the driver loop. *)
Theorem solve_loop_only_marks (s : MazeSolver) (calls : nat) :
  only_marks (s_maze s) (s_maze (solve_step s).2)
  ∧ solver (solve_step s).2 = solver s
  ∧ facing (solve_step s).2 = facing s
  ∧ only_marks (s_maze s) (s_maze (solve_loop calls s).2)
  ∧ solver (solve_loop calls s).2 = solver s
  ∧ facing (solve_loop calls s).2 = facing s.
Proof.
  destruct (solve_step_only_marks s) as (H1 & H2 & H3).
  split_and!; [done..| | |]; revert s H1 H2 H3.
  all: induction calls as [|calls IH]; intros s H1 H2 H3;
    [try done; apply only_marks_refl|].
  all: cbn [solve_loop].
  all: destruct (solve_step s) as [[[]| |] s1] eqn:Hs1; simpl in *; try done.
  all: destruct (solve_step_only_marks s1) as (H1' & H2' & H3').
  all: specialize (IH s1 H1' H2' H3').
  all: destruct (solve_loop calls s1) as [[?| |] s2]; simpl in *.
  all: try (by eapply only_marks_trans); congruence.
Qed.

(** ** One move *)

(** X8: on a well-formed maze, a call of [solve_step] with the strategy "A*"
    that returns [False] has marked the cell it left as visited and moved by
    one of the four directions to an in-bounds traversable cell; the maze is
    still well-formed, so the solver is again in a state from which it can
    be called. *)
Theorem solve_step_moves_to_open_neighbour (s s' : MazeSolver) (row col : Z) :
  wf_maze (s_maze s) →
  solver s = "A*"%string →
  current_pos s = Some (row, col) →
  in_bounds (s_maze s) row col = true →
  solve_step s = (Ok false, s') →
  wf_maze (s_maze s')
  ∧ (∃ n, get_node (s_maze s') row col = Ok n ∧ visited n = true)
  ∧ ∃ d, d ∈ DIRS
         ∧ current_pos s' = Some (row + d.1, col + d.2)
         ∧ in_bounds (s_maze s') (row + d.1) (col + d.2) = true
         ∧ ∃ n, get_node (s_maze s') (row + d.1) (col + d.2) = Ok n
                ∧ traversable n = true.
Proof.
  intros Hwf Hsolver Hp Hb Hstep.
  assert (Some (row, col) ≠ end_node (s_maze s)) as Hne.
  { intros He. unfold solve_step in Hstep.
    rewrite Hp, bool_decide_true in Hstep by done. done. }
  destruct (solve_step_wf s (row, col) Hwf Hsolver Hp Hb Hne)
    as (g & Hg & Hwf' & Hsame & Hstep').
  rewrite Hstep in Hstep'.
  destruct (foldl_pick_spec (s_maze s) (row, col) (available (s_maze s) (row, col)))
    as [[Hfold _]|(l1 & b & l2 & k & Hds & Hfold & _)];
    rewrite Hfold in Hstep'; [done|].
  injection Hstep' as ->.
  assert (b ∈ available (s_maze s) (row, col)) as Hbin
    by (rewrite Hds; set_solver).
  apply list_elem_of_filter in Hbin as [Hopen Hdir].
  rewrite (is_open_same_passages _ _ _ Hwf Hwf' Hsame) in Hopen.
  apply andb_true_iff in Hopen as [Hbt Ht].
  split_and!; [done| |].
  - pose proof (py_update2_read (maze (s_maze s)) row col mark_visited) as Hread.
    simpl in Hg. rewrite Hg in Hread.
    destruct (_ ≫= _) as [x| |]; [|done..].
    destruct Hread as (g' & [= <-] & Hback). by exists (mark_visited x).
  - exists b. split_and!; [done..|].
    destruct (get_node_in_bounds _ Hwf' _ _ Hbt) as (n & Hn & Hget).
    exists n. split; [done|].
    unfold cell in *. simpl in *. by rewrite Hn in Ht.
Qed.

Lemma solve_step_moves_to_open_neighbour_witness :
  wf_maze (s_maze (solve_step solver_6x6).2)
  ∧ (∃ n, get_node (s_maze (solve_step solver_6x6).2) 1 1 = Ok n
          ∧ visited n = true)
  ∧ ∃ d, d ∈ DIRS
         ∧ current_pos (solve_step solver_6x6).2 = Some (1 + d.1, 1 + d.2)
         ∧ in_bounds (s_maze (solve_step solver_6x6).2) (1 + d.1) (1 + d.2) = true
         ∧ ∃ n, get_node (s_maze (solve_step solver_6x6).2) (1 + d.1) (1 + d.2) = Ok n
                ∧ traversable n = true.
Proof.
  apply (solve_step_moves_to_open_neighbour solver_6x6 _ 1 1).
  - split; [reflexivity|]. repeat constructor.
  - reflexivity.
  - reflexivity.
  - reflexivity.
  - vm_compute. reflexivity.
Defined.

(** X11: the error of [A_star] can only end a run at its first call.  On a
    well-formed maze, with the strategy "A*", once a call of [solve_step]
    from an in-bounds position has returned [False], the driver loop
    continued from there returns [True] within [rows * cols] calls and
    leaves the solver on the end. *)
Theorem solve_loop_after_first_move (s s1 : MazeSolver) (row col : Z) :
  wf_maze (s_maze s) →
  solver s = "A*"%string →
  current_pos s = Some (row, col) →
  in_bounds (s_maze s) row col = true →
  solve_step s = (Ok false, s1) →
  ∃ n s', (1 ≤ n ≤ Z.to_nat (rows (s_maze s) * cols (s_maze s)))%nat
          ∧ solve_loop (Z.to_nat (rows (s_maze s) * cols (s_maze s))) s1 = (Ok n, s')
          ∧ current_pos s' = end_node (s_maze s').
Proof.
  intros Hwf Hsolver Hp Hb Hstep.
  assert (Some (row, col) ≠ end_node (s_maze s)) as Hne.
  { intros He. unfold solve_step in Hstep.
    rewrite Hp, bool_decide_true in Hstep by done. done. }
  destruct (solve_step_wf s (row, col) Hwf Hsolver Hp Hb Hne)
    as (g & Hg & Hwf' & Hsame & Hstep').
  rewrite Hstep in Hstep'.
  destruct (foldl_pick_spec (s_maze s) (row, col) (available (s_maze s) (row, col)))
    as [[Hfold _]|(l1 & b & l2 & k & Hds & Hfold & Hbk & _)];
    rewrite Hfold in Hstep'; [done|].
  injection Hstep' as ->.
  assert (b ∈ available (s_maze s) (row, col)) as Hbin
    by (rewrite Hds; set_solver).
  pose proof (available_step _ _ _ Hbin) as Hst.
  pose proof (step_in_bounds _ _ _ Hst) as Hbb.
  destruct (distance_of_correct (s_maze s) (add_tuples (row, col) b) Hwf)
    as [_ Hspec].
  rewrite Hbk in Hspec. simpl in Hspec.
  destruct (shortest_to_end_bound _ _ _ Hbb Hspec) as [Hk Hle].
  set (s1 := with_pos (with_s_maze s (with_maze (s_maze s) g))
                      (add_tuples (row, col) b)).
  rewrite <- (Z2Nat.id k) in Hspec by done.
  destruct (solve_loop_shortest (Z.to_nat k) s1 (add_tuples (row, col) b))
    as (_ & s' & Hs' & Hend & _); try done.
  { by apply (shortest_to_end_same_passages (s_maze s)). }
  pose proof Hb as [Hr Hc]%in_bounds_spec.
  assert (Z.to_nat (rows (s_maze s) * cols (s_maze s))
          = (Z.to_nat (rows (s_maze s)) * Z.to_nat (cols (s_maze s)))%nat) as Hcells
    by (rewrite Z2Nat.inj_mul; lia).
  exists (S (Z.to_nat k)), s'. split; [lia|]. split; [|done].
  rewrite <- (Hs' (Z.to_nat (rows (s_maze s) * cols (s_maze s)) - S (Z.to_nat k))%nat).
  f_equal. lia.
Qed.

Lemma solve_loop_after_first_move_witness :
  ∃ n s', (1 ≤ n ≤ Z.to_nat (rows (s_maze solver_6x6) * cols (s_maze solver_6x6)))%nat
          ∧ solve_loop (Z.to_nat (rows (s_maze solver_6x6) * cols (s_maze solver_6x6)))
                       (solve_step solver_6x6).2 = (Ok n, s')
          ∧ current_pos s' = end_node (s_maze s').
Proof.
  apply (solve_loop_after_first_move solver_6x6 _ 1 1).
  - split; [reflexivity|]. repeat constructor.
  - reflexivity.
  - reflexivity.
  - reflexivity.
  - vm_compute. reflexivity.
Defined.

(** ** Further properties of the distance *)

Lemma distance_of_walk m p e k :
  wf_maze m → end_node m = Some e → walk m p e k →
  ∃ j, distance_of m p = Finite j ∧ 0 ≤ j ≤ k ∧ shortest_to_end m p j.
Proof.
  intros Hwf He Hw. destruct (distance_of_correct m p Hwf) as [_ Hspec].
  destruct (distance_of m p) as [j|]; simpl in Hspec.
  - exists j. split; [done|]. pose proof Hspec as (e' & He' & Hw' & Hmin).
    assert (e' = e) as -> by congruence.
    split_and!; [by eapply walk_nonneg|by apply Hmin|done].
  - by destruct (Hspec e k He).
Qed.

Lemma distance_of_Finite m p k :
  wf_maze m → distance_of m p = Finite k ↔ shortest_to_end m p k.
Proof.
  intros Hwf. destruct (distance_of_correct m p Hwf) as [_ Hspec]. split.
  - intros Hk. by rewrite Hk in Hspec.
  - intros Hk. by apply (distance_spec_unique m p).
Qed.

Lemma calculate_distance_to_end_at m row col :
  wf_maze m →
  calculate_distance_to_end m row col = Ok (distance_of m (row, col)).
Proof. intros Hwf. by destruct (distance_of_correct m (row, col) Hwf). Qed.

Lemma walk_last_open m p e k : walk m p e k → p ≠ e → is_open m e = true.
Proof.
  induction 1 as [p|p q r k Hs Hw IH]; [done|]. intros _.
  destruct (decide (q = r)) as [->|Hne]; [|by apply IH].
  by destruct Hs as (d & _ & _ & Ho).
Qed.

(** X5: the distance obeys the recurrence of shortest paths.  On a
    well-formed maze, [calculate_distance_to_end] returns 0 on the recorded
    end; on any other cell it returns one more than the least distance it
    returns for the targets of [get_available_directions], and infinity
    exactly when it returns infinity for all of them (in particular when
    there are none). *)
Theorem calculate_distance_to_end_recurrence (m : Maze) (row col : Z) :
  wf_maze m →
  ∃ ds, get_available_directions m row col = Ok ds
    ∧ (Some (row, col) = end_node m →
       calculate_distance_to_end m row col = Ok (Finite 0))
    ∧ (Some (row, col) ≠ end_node m →
       (∀ k, calculate_distance_to_end m row col = Ok (Finite k) ↔
          (∃ d, d ∈ ds
                ∧ calculate_distance_to_end m (row + d.1) (col + d.2)
                  = Ok (Finite (k - 1)))
          ∧ ∀ d j, d ∈ ds →
              calculate_distance_to_end m (row + d.1) (col + d.2) = Ok (Finite j) →
              k - 1 ≤ j)
       ∧ (calculate_distance_to_end m row col = Ok Infinity ↔
          ∀ d, d ∈ ds →
            calculate_distance_to_end m (row + d.1) (col + d.2) = Ok Infinity)).
Proof.
  intros Hwf. exists (available m (row, col)).
  split; [by apply get_available_directions_wf|].
  assert (∀ d, calculate_distance_to_end m (row + d.1) (col + d.2)
               = Ok (distance_of m (add_tuples (row, col) d))) as Hcalc
    by (intros d; by apply (calculate_distance_to_end_of m (row, col))).
  rewrite (calculate_distance_to_end_at m row col Hwf).
  split.
  { intros He. f_equal. apply distance_of_Finite; [done|].
    by apply shortest_to_end_zero. }
  intros Hne. split.
  - intros k. split.
    + intros [= Hk]. apply distance_of_Finite in Hk; [|done]. split.
      * destruct (shortest_to_end_next _ _ _ Hk Hne) as (q & Hs & Hq).
        destruct (step_available _ _ _ Hs) as (d & Hd & ->).
        exists d. split; [done|]. rewrite Hcalc. f_equal.
        by apply distance_of_Finite.
      * intros d j Hd. rewrite Hcalc. intros [= Hj].
        apply distance_of_Finite in Hj; [|done].
        pose proof (shortest_to_end_step _ _ _ _ _ Hk (available_step _ _ _ Hd) Hj).
        lia.
    + intros [(d & Hd & Hdk) Hmin]. f_equal.
      rewrite Hcalc in Hdk. injection Hdk as Hdk.
      apply distance_of_Finite in Hdk; [|done].
      apply distance_of_Finite; [done|].
      pose proof Hdk as (e & He & Hw & _).
      exists e. split_and!; [done| |].
      * replace k with (k - 1 + 1) by lia.
        eapply walk_cons; [by apply available_step|done].
      * intros k' Hw'.
        destruct (walk_pos_inv _ _ _ _ Hw') as (q & Hs & Hq); [congruence|].
        destruct (step_available _ _ _ Hs) as (d' & Hd' & ->).
        destruct (distance_of_walk _ _ _ _ Hwf He Hq) as (j & Hj & Hjk & _).
        specialize (Hmin d' j Hd'). rewrite Hcalc, Hj in Hmin.
        specialize (Hmin eq_refl). lia.
  - split.
    + intros [= Hinf] d Hd. rewrite Hcalc. f_equal.
      destruct (distance_of m (add_tuples (row, col) d)) as [j|] eqn:Hj; [|done].
      apply distance_of_Finite in Hj as (e & He & Hw & _); [|done].
      destruct (distance_of_walk m (row, col) e (j + 1) Hwf He) as (k & Hk & _).
      { eapply walk_cons; [by apply available_step|done]. }
      congruence.
    + intros Hall. f_equal.
      destruct (distance_of m (row, col)) as [k|] eqn:Hk; [|done].
      apply distance_of_Finite in Hk; [|done].
      destruct (shortest_to_end_next _ _ _ Hk Hne) as (q & Hs & Hq).
      destruct (step_available _ _ _ Hs) as (d & Hd & ->).
      specialize (Hall d Hd). rewrite Hcalc in Hall. injection Hall as Hall.
      apply (distance_of_Finite m _ _ Hwf) in Hq. congruence.
Qed.

Lemma calculate_distance_to_end_recurrence_witness :
  ∃ ds, get_available_directions (s_maze solver_6x6) 1 1 = Ok ds
    ∧ (Some (1, 1) = end_node (s_maze solver_6x6) →
       calculate_distance_to_end (s_maze solver_6x6) 1 1 = Ok (Finite 0))
    ∧ (Some (1, 1) ≠ end_node (s_maze solver_6x6) →
       (∀ k, calculate_distance_to_end (s_maze solver_6x6) 1 1 = Ok (Finite k) ↔
          (∃ d, d ∈ ds
                ∧ calculate_distance_to_end (s_maze solver_6x6) (1 + d.1) (1 + d.2)
                  = Ok (Finite (k - 1)))
          ∧ ∀ d j, d ∈ ds →
              calculate_distance_to_end (s_maze solver_6x6) (1 + d.1) (1 + d.2)
              = Ok (Finite j) →
              k - 1 ≤ j)
       ∧ (calculate_distance_to_end (s_maze solver_6x6) 1 1 = Ok Infinity ↔
          ∀ d, d ∈ ds →
            calculate_distance_to_end (s_maze solver_6x6) (1 + d.1) (1 + d.2)
            = Ok Infinity)).
Proof.
  apply (calculate_distance_to_end_recurrence (s_maze solver_6x6) 1 1).
  split; [reflexivity|]. repeat constructor.
Defined.

(** X6: on a well-formed maze, a distance that
    [calculate_distance_to_end] returns for an in-bounds cell is at least 0
    and less than [rows * cols]. *)
Theorem calculate_distance_to_end_bound (m : Maze) (row col k : Z) :
  wf_maze m →
  in_bounds m row col = true →
  calculate_distance_to_end m row col = Ok (Finite k) →
  0 ≤ k < rows m * cols m.
Proof.
  intros Hwf Hb Hk.
  rewrite (calculate_distance_to_end_at m row col Hwf) in Hk. injection Hk as Hk.
  apply distance_of_Finite in Hk; [|done].
  destruct (shortest_to_end_bound m (row, col) k Hb Hk) as [Hk0 Hle].
  apply in_bounds_spec in Hb as [Hr Hc]. nia.
Qed.

Lemma calculate_distance_to_end_bound_witness :
  0 ≤ 8 < rows (s_maze solver_6x6) * cols (s_maze solver_6x6).
Proof.
  apply (calculate_distance_to_end_bound (s_maze solver_6x6) 1 1 8).
  - split; [reflexivity|]. repeat constructor.
  - reflexivity.
  - vm_compute. reflexivity.
Defined.



(** ** Further properties of the maze *)

Lemma lookup_list_ascii_of_string (s : string) (c : nat) :
  list_ascii_of_string s !! c = String.get c s.
Proof.
  revert c. induction s as [|a s IH]; intros [|c]; simpl; try done.
Qed.

Lemma create_maze_lookup layout (r c : nat) :
  create_maze layout !! r ≫= (.!! c)
  = row ← layout !! r; ch ← String.get c row;
    Some (MazeNode_init (negb (Ascii.eqb ch "#"))).
Proof.
  unfold create_maze. change (map ?f ?l) with (f <$> l).
  rewrite list_lookup_fmap. destruct (layout !! r) as [row|]; simpl; [|done].
  change (map ?f ?l) with (f <$> l).
  rewrite list_lookup_fmap, lookup_list_ascii_of_string.
  by destruct (String.get c row).
Qed.

Lemma string_get_Some (s : string) (c : nat) :
  is_Some (String.get c s) ↔ (c < String.length s)%nat.
Proof.
  rewrite <- lookup_list_ascii_of_string, <- length_list_ascii_of_string.
  apply lookup_lt_is_Some.
Qed.

(** X1: [Maze(layout)] on a rectangular layout.  The maze built is
    well-formed exactly when all rows of the layout have the length of the
    first; then a cell is in bounds and traversable exactly when the layout
    has a character other than '#' there.  In every case all [is_start],
    [is_end] and [visited] flags are off. *)
Theorem Maze_init_passages (layout : list string) :
  ∃ m, Maze_init layout = Ok m
    ∧ (wf_maze m ↔
       Forall (λ row, String.length row
                      = match layout with
                        | first :: _ => String.length first
                        | [] => 0%nat
                        end) layout)
    ∧ (wf_maze m →
       ∀ r c : nat, is_open m (Z.of_nat r, Z.of_nat c) = layout_open layout r c)
    ∧ ∀ i j, flag is_start (maze m) i j = false
             ∧ flag is_end (maze m) i j = false
             ∧ flag visited (maze m) i j = false.
Proof.
  eexists. split; [reflexivity|].
  set (w := match layout with first :: _ => String.length first | [] => 0%nat end).
  set (m := {| maze := create_maze layout |}).
  assert (cols m = Z.of_nat w) as Hcols.
  { subst m w. simpl. destruct layout as [|first layout]; [done|].
    rewrite bool_decide_true by (simpl; lia). simpl.
    by rewrite length_map, length_list_ascii_of_string. }
  assert (rows m = Z.of_nat (length layout)) as Hrows.
  { subst m. simpl. unfold create_maze. by rewrite length_map. }
  assert (wf_maze m ↔ Forall (λ row, String.length row = w) layout) as Hwf.
  { unfold wf_maze. rewrite Hcols. change (maze m) with (create_maze layout).
    unfold create_maze. rewrite Forall_map. split.
    - intros [_ H]. eapply list.Forall_impl; [exact H|]. simpl. intros row.
      rewrite length_map, length_list_ascii_of_string. lia.
    - intros H. split; [by rewrite Hrows, length_map|].
      eapply list.Forall_impl; [exact H|]. simpl. intros row.
      rewrite length_map, length_list_ascii_of_string. lia. }
  split_and!; [done| |].
  - intros Hrect%Hwf r c. unfold is_open, in_bounds, cell, layout_open.
    cbn [fst snd]. rewrite Hrows, Hcols, !Nat2Z.id.
    change (maze m) with (create_maze layout). rewrite create_maze_lookup.
    destruct (layout !! r) as [row|] eqn:Hrow; simpl.
    + assert (String.length row = w) as Hlen.
      { rewrite list.Forall_forall in Hrect. apply Hrect.
        by eapply list_elem_of_lookup_2. }
      apply lookup_lt_Some in Hrow as Hr.
      rewrite bool_decide_true by lia.
      destruct (String.get c row) as [ch|] eqn:Hch; simpl.
      * assert (c < w)%nat by (rewrite <- Hlen; apply string_get_Some; eauto).
        by rewrite bool_decide_true by lia.
      * apply andb_false_r.
    + apply andb_false_r.
  - intros i j. unfold flag. change (maze m) with (create_maze layout).
    rewrite create_maze_lookup.
    destruct (layout !! i) as [row|]; simpl; [|done].
    by destruct (String.get j row).
Qed.

(** ** set_start and set_end *)

Lemma update_frame m row col (h : MazeNode → MazeNode) :
  wf_maze m → in_bounds m row col = true →
  ∃ g x, py_update2 (maze m) row col h = Ok g
    ∧ wf_maze (with_maze m g)
    ∧ (∀ f : MazeNode → bool,
         flag f (maze m) (Z.to_nat row) (Z.to_nat col) = f x)
    ∧ ∀ (f : MazeNode → bool) i j,
        flag f g i j
        = if decide (i = Z.to_nat row ∧ j = Z.to_nat col)
          then f (h x) else flag f (maze m) i j.
Proof.
  intros Hwf Hb. pose proof Hwf as [Hr Hc].
  apply in_bounds_spec in Hb as [Hrow Hcol].
  destruct (py_update2_in_range (maze m) row col h)
    as (rw & x & Hrw & Hx & Hg); [lia| |].
  { intros rw Hrw. eapply Forall_lookup_1 in Hc; eauto. lia. }
  eexists _, x. split_and!; [done|by eapply wf_maze_update| |].
  - intros f. unfold flag. rewrite Hrw. simpl. by rewrite Hx.
  - intros f i j. by apply flag_update.
Qed.

(** X2: [set_start] and [set_end] at an in-bounds cell of a well-formed
    maze return, keep the maze well-formed, and change one thing besides the
    recorded coordinate: the [is_start] (or [is_end]) flag of that cell,
    which is set.  All other flags of all cells, the extents and the other
    recorded coordinate are as before; no flag is cleared. *)
Theorem set_start_set_end_frame (m : Maze) (row col : Z) :
  wf_maze m →
  in_bounds m row col = true →
  ∃ ms me,
    set_start m row col = (Ok (), ms)
    ∧ set_end m row col = (Ok (), me)
    ∧ wf_maze ms ∧ wf_maze me
    ∧ rows ms = rows m ∧ cols ms = cols m ∧ rows me = rows m ∧ cols me = cols m
    ∧ start_node ms = Some (row, col) ∧ end_node ms = end_node m
    ∧ end_node me = Some (row, col) ∧ start_node me = start_node m
    ∧ ∀ i j,
        flag is_start (maze ms) i j
        = (if decide (i = Z.to_nat row ∧ j = Z.to_nat col)
           then true else flag is_start (maze m) i j)
        ∧ flag is_end (maze me) i j
          = (if decide (i = Z.to_nat row ∧ j = Z.to_nat col)
             then true else flag is_end (maze m) i j)
        ∧ flag is_end (maze ms) i j = flag is_end (maze m) i j
        ∧ flag is_start (maze me) i j = flag is_start (maze m) i j
        ∧ flag traversable (maze ms) i j = flag traversable (maze m) i j
        ∧ flag traversable (maze me) i j = flag traversable (maze m) i j
        ∧ flag visited (maze ms) i j = flag visited (maze m) i j
        ∧ flag visited (maze me) i j = flag visited (maze m) i j.
Proof.
  intros Hwf Hb.
  destruct (update_frame m row col mark_start Hwf Hb)
    as (gs & xs & Hgs & Hwfs & Hxs & Hfs).
  destruct (update_frame m row col mark_end Hwf Hb)
    as (ge & xe & Hge & Hwfe & Hxe & Hfe).
  unfold set_start, set_end. rewrite Hgs, Hge.
  change (in_bounds (with_maze m gs) row col) with (in_bounds m row col).
  change (in_bounds (with_maze m ge) row col) with (in_bounds m row col).
  rewrite Hb. eexists. eexists. split_and!; try done.
  intros i j. simpl. rewrite !Hfs, !Hfe.
  case_decide as Hij; [|done]. destruct Hij as [-> ->].
  split_and!; simpl; first [done | by rewrite Hxs | by rewrite Hxe].
Qed.

Lemma set_start_set_end_frame_witness :
  ∃ ms me,
    set_start maze_3x3 1 1 = (Ok (), ms)
    ∧ set_end maze_3x3 1 1 = (Ok (), me)
    ∧ wf_maze ms ∧ wf_maze me
    ∧ rows ms = rows maze_3x3 ∧ cols ms = cols maze_3x3
    ∧ rows me = rows maze_3x3 ∧ cols me = cols maze_3x3
    ∧ start_node ms = Some (1, 1) ∧ end_node ms = end_node maze_3x3
    ∧ end_node me = Some (1, 1) ∧ start_node me = start_node maze_3x3
    ∧ ∀ i j,
        flag is_start (maze ms) i j
        = (if decide (i = Z.to_nat 1 ∧ j = Z.to_nat 1)
           then true else flag is_start (maze maze_3x3) i j)
        ∧ flag is_end (maze me) i j
          = (if decide (i = Z.to_nat 1 ∧ j = Z.to_nat 1)
             then true else flag is_end (maze maze_3x3) i j)
        ∧ flag is_end (maze ms) i j = flag is_end (maze maze_3x3) i j
        ∧ flag is_start (maze me) i j = flag is_start (maze maze_3x3) i j
        ∧ flag traversable (maze ms) i j = flag traversable (maze maze_3x3) i j
        ∧ flag traversable (maze me) i j = flag traversable (maze maze_3x3) i j
        ∧ flag visited (maze ms) i j = flag visited (maze maze_3x3) i j
        ∧ flag visited (maze me) i j = flag visited (maze maze_3x3) i j.
Proof.
  apply (set_start_set_end_frame maze_3x3 1 1).
  - split; [reflexivity|]. repeat constructor.
  - reflexivity.
Defined.

Lemma set_start_in_bounds_frame m row col :
  wf_maze m → in_bounds m row col = true →
  ∃ ms, set_start m row col = (Ok (), ms) ∧ wf_maze ms
    ∧ rows ms = rows m ∧ cols ms = cols m ∧ start_node ms = Some (row, col)
    ∧ ∀ i j, flag is_start (maze ms) i j
             = if decide (i = Z.to_nat row ∧ j = Z.to_nat col)
               then true else flag is_start (maze m) i j.
Proof.
  intros Hwf Hb.
  destruct (update_frame m row col mark_start Hwf Hb) as (g & x & Hg & Hwf' & _ & Hf).
  unfold set_start. rewrite Hg.
  change (in_bounds (with_maze m g) row col) with (in_bounds m row col).
  rewrite Hb. eexists. by split_and!.
Qed.

Lemma set_end_in_bounds_frame m row col :
  wf_maze m → in_bounds m row col = true →
  ∃ me, set_end m row col = (Ok (), me) ∧ wf_maze me
    ∧ rows me = rows m ∧ cols me = cols m ∧ end_node me = Some (row, col)
    ∧ ∀ i j, flag is_end (maze me) i j
             = if decide (i = Z.to_nat row ∧ j = Z.to_nat col)
               then true else flag is_end (maze m) i j.
Proof.
  intros Hwf Hb.
  destruct (update_frame m row col mark_end Hwf Hb) as (g & x & Hg & Hwf' & _ & Hf).
  unfold set_end. rewrite Hg.
  change (in_bounds (with_maze m g) row col) with (in_bounds m row col).
  rewrite Hb. eexists. by split_and!.
Qed.

(** X3: nothing keeps the start (or the end) unique.  On a well-formed maze,
    [set_start] at one in-bounds cell followed by [set_start] at another
    records the second coordinate and leaves the [is_start] flag of both
    cells set; likewise [set_end] and [is_end]. *)
Theorem set_start_twice_keeps_both (m : Maze) (r1 c1 r2 c2 : Z) :
  wf_maze m →
  in_bounds m r1 c1 = true →
  in_bounds m r2 c2 = true →
  ∃ m1 m2 m1' m2',
    set_start m r1 c1 = (Ok (), m1)
    ∧ set_start m1 r2 c2 = (Ok (), m2)
    ∧ start_node m2 = Some (r2, c2)
    ∧ flag is_start (maze m2) (Z.to_nat r1) (Z.to_nat c1) = true
    ∧ flag is_start (maze m2) (Z.to_nat r2) (Z.to_nat c2) = true
    ∧ set_end m r1 c1 = (Ok (), m1')
    ∧ set_end m1' r2 c2 = (Ok (), m2')
    ∧ end_node m2' = Some (r2, c2)
    ∧ flag is_end (maze m2') (Z.to_nat r1) (Z.to_nat c1) = true
    ∧ flag is_end (maze m2') (Z.to_nat r2) (Z.to_nat c2) = true.
Proof.
  intros Hwf Hb1 Hb2.
  destruct (set_start_in_bounds_frame m r1 c1 Hwf Hb1)
    as (m1 & Hs1 & Hwf1 & Hr1 & Hc1 & _ & Hf1).
  destruct (set_start_in_bounds_frame m1 r2 c2 Hwf1)
    as (m2 & Hs2 & _ & _ & _ & Hn2 & Hf2).
  { unfold in_bounds in *. by rewrite Hr1, Hc1. }
  destruct (set_end_in_bounds_frame m r1 c1 Hwf Hb1)
    as (m1' & He1 & Hwf1' & Hr1' & Hc1' & _ & Hf1').
  destruct (set_end_in_bounds_frame m1' r2 c2 Hwf1')
    as (m2' & He2 & _ & _ & _ & Hn2' & Hf2').
  { unfold in_bounds in *. by rewrite Hr1', Hc1'. }
  exists m1, m2, m1', m2'. split_and!; try done.
  - rewrite Hf2. case_decide; [done|]. rewrite Hf1. by rewrite decide_True.
  - rewrite Hf2. by rewrite decide_True.
  - rewrite Hf2'. case_decide; [done|]. rewrite Hf1'. by rewrite decide_True.
  - rewrite Hf2'. by rewrite decide_True.
Qed.

Lemma set_start_twice_keeps_both_witness :
  ∃ m1 m2 m1' m2',
    set_start maze_3x3 0 0 = (Ok (), m1)
    ∧ set_start m1 1 1 = (Ok (), m2)
    ∧ start_node m2 = Some (1, 1)
    ∧ flag is_start (maze m2) (Z.to_nat 0) (Z.to_nat 0) = true
    ∧ flag is_start (maze m2) (Z.to_nat 1) (Z.to_nat 1) = true
    ∧ set_end maze_3x3 0 0 = (Ok (), m1')
    ∧ set_end m1' 1 1 = (Ok (), m2')
    ∧ end_node m2' = Some (1, 1)
    ∧ flag is_end (maze m2') (Z.to_nat 0) (Z.to_nat 0) = true
    ∧ flag is_end (maze m2') (Z.to_nat 1) (Z.to_nat 1) = true.
Proof.
  apply (set_start_twice_keeps_both maze_3x3 0 0 1 1).
  - split; [reflexivity|]. repeat constructor.
  - reflexivity.
  - reflexivity.
Defined.

(** ** get_available_directions *)

Lemma DIRS_opposite d : d ∈ DIRS → (- d.1, - d.2) ∈ DIRS.
Proof.
  intros Hd. destruct (DIRS_cases d Hd) as [-> | [-> | [-> | -> ]]];
    unfold DIRS; simpl; set_solver.
Qed.

(** X4: on a well-formed maze [get_available_directions] returns for all
    integers [row], [col], inside the grid or not, and raises nothing.  The
    list it returns has no repetition, keeps the order right, down, left,
    up, and holds exactly the directions whose target is in bounds and
    traversable.  Moves can be taken back: from an in-bounds traversable
    cell, the opposite of every direction returned is returned at its
    target. *)
Theorem get_available_directions_exact (m : Maze) (row col : Z) :
  wf_maze m →
  ∃ ds, get_available_directions m row col = Ok ds
    ∧ NoDup ds
    ∧ sublist ds [(0, 1); (1, 0); (0, -1); (-1, 0)]
    ∧ (∀ d, d ∈ ds ↔
         d ∈ [(0, 1); (1, 0); (0, -1); (-1, 0)]
         ∧ in_bounds m (row + d.1) (col + d.2) = true
         ∧ ∃ n, get_node m (row + d.1) (col + d.2) = Ok n ∧ traversable n = true)
    ∧ ((∃ n, in_bounds m row col = true ∧ get_node m row col = Ok n
             ∧ traversable n = true) →
       ∀ d, d ∈ ds →
         ∃ ds', get_available_directions m (row + d.1) (col + d.2) = Ok ds'
                ∧ (- d.1, - d.2) ∈ ds').
Proof.
  intros Hwf. exists (available m (row, col)).
  assert (∀ r c, is_open m (r, c) = true ↔
            in_bounds m r c = true
            ∧ ∃ n, get_node m r c = Ok n ∧ traversable n = true) as Hopen.
  { intros r c. unfold is_open. rewrite andb_true_iff. simpl. split.
    - intros [Hb Ht]. split; [done|].
      destruct (get_node_in_bounds m Hwf r c Hb) as (n & Hn & Hget).
      rewrite Hn in Ht. eauto.
    - intros (Hb & n & Hget & Ht). split; [done|].
      destruct (get_node_in_bounds m Hwf r c Hb) as (n' & -> & Hget').
      congruence. }
  split_and!.
  - by apply get_available_directions_wf.
  - apply list.NoDup_filter. unfold DIRS.
    repeat (apply list.NoDup_cons; split; [set_solver|]). apply NoDup_nil_2.
  - apply sublist_filter.
  - intros d. unfold available. rewrite list_elem_of_filter.
    change (add_tuples (row, col) d) with (row + d.1, col + d.2).
    rewrite Hopen. tauto.
  - intros (n & Hb & Hn & Ht) d [Hd Hdir]%list_elem_of_filter.
    exists (available m (row + d.1, col + d.2)).
    split; [by apply get_available_directions_wf|].
    apply list_elem_of_filter. split; [|by apply DIRS_opposite].
    unfold add_tuples. simpl.
    replace (row + d.1 + - d.1) with row by lia.
    replace (col + d.2 + - d.2) with col by lia.
    apply Hopen. eauto.
Qed.

Lemma get_available_directions_exact_witness :
  ∃ ds, get_available_directions (s_maze solver_6x6) 1 1 = Ok ds
    ∧ NoDup ds
    ∧ sublist ds [(0, 1); (1, 0); (0, -1); (-1, 0)]
    ∧ (∀ d, d ∈ ds ↔
         d ∈ [(0, 1); (1, 0); (0, -1); (-1, 0)]
         ∧ in_bounds (s_maze solver_6x6) (1 + d.1) (1 + d.2) = true
         ∧ ∃ n, get_node (s_maze solver_6x6) (1 + d.1) (1 + d.2) = Ok n
                ∧ traversable n = true)
    ∧ ((∃ n, in_bounds (s_maze solver_6x6) 1 1 = true ∧ get_node (s_maze solver_6x6) 1 1 = Ok n
             ∧ traversable n = true) →
       ∀ d, d ∈ ds →
         ∃ ds', get_available_directions (s_maze solver_6x6) (1 + d.1) (1 + d.2) = Ok ds'
                ∧ (- d.1, - d.2) ∈ ds').
Proof.
  apply (get_available_directions_exact (s_maze solver_6x6) 1 1).
  split; [reflexivity|]. repeat constructor.
Defined.

(** ** The grid of the generator, cell by cell *)

Lemma grid_char_insert (cells : list (list ascii)) n k row x v q :
  cells !! n = Some row → row !! k = Some x →
  grid_char (<[n := <[k := v]> row]> cells) q
  = if decide (q = (Z.of_nat n, Z.of_nat k)) then Some v else grid_char cells q.
Proof.
  intros Hrow Hx. unfold grid_char. destruct q as [r c]. simpl.
  case_bool_decide as Hpos.
  - destruct (decide (Z.to_nat r = n)) as [<-|Hn].
    + rewrite list_lookup_insert_eq by (by eapply lookup_lt_Some). simpl.
      rewrite Hrow. simpl.
      destruct (decide (Z.to_nat c = k)) as [<-|Hk].
      * rewrite list_lookup_insert_eq by (by eapply lookup_lt_Some).
        rewrite decide_True; [done|]. f_equal; lia.
      * rewrite list_lookup_insert_ne by done.
        rewrite decide_False; [done|]. intros [= ? ?]. lia.
    + rewrite list_lookup_insert_ne by done.
      rewrite decide_False; [done|]. intros [= ? ?]. lia.
  - rewrite decide_False; [done|]. intros [= ? ?]. lia.
Qed.

Lemma grid_char_in_range g q :
  gen_wf g → 0 ≤ q.1 < height g → 0 ≤ q.2 < width g →
  ∃ ch, grid_char (g_maze g) q = Some ch
    ∧ ∃ row, py_get (g_maze g) q.1 = Ok row ∧ py_get row q.2 = Ok ch.
Proof.
  intros Hwf H1 H2.
  destruct (gen_cell g q.2 q.1 Hwf H2 H1) as (row & c & Hrow & Hc & Hg1 & Hg2).
  exists c. split; [|by exists row].
  unfold grid_char. rewrite bool_decide_true by lia. by rewrite Hrow.
Qed.

Lemma grid_char_Some g q ch :
  gen_wf g → grid_char (g_maze g) q = Some ch →
  0 ≤ q.1 < height g ∧ 0 ≤ q.2 < width g.
Proof.
  intros [Hh Hw]. unfold grid_char. case_bool_decide as Hpos; [|done].
  destruct (g_maze g !! Z.to_nat q.1) as [row|] eqn:Hrow; simpl; [|done].
  intros Hc. apply lookup_lt_Some in Hrow as Hr. apply lookup_lt_Some in Hc.
  eapply Forall_lookup_1 in Hw; eauto. simpl in Hw. lia.
Qed.

(** Writing one in-range cell of the grid. *)
Lemma gen_write g x y v :
  gen_wf g → 0 ≤ x < width g → 0 ≤ y < height g →
  ∃ m1, py_update2 (g_maze g) y x (λ _, v) = Ok m1
    ∧ gen_wf (with_g_maze g m1)
    ∧ same_shape g (with_g_maze g m1)
    ∧ ∀ q, grid_char m1 q
           = if decide (q = (y, x)) then Some v else grid_char (g_maze g) q.
Proof.
  intros Hwf Hx Hy.
  destruct (gen_update g x y v Hwf Hx Hy) as (row & c & Hrow & Hc & Hm1).
  eexists. split; [done|].
  pose proof (same_shape_update _ _ _ _ _ Hm1) as Hs.
  split_and!; [by eapply gen_wf_same_shape|done|].
  intros q. rewrite (grid_char_insert _ _ _ _ _ _ _ Hrow Hc).
  rewrite !Z2Nat.id by lia. done.
Qed.

Lemma grid_open_char cells q :
  grid_open cells q = true ↔
  ∃ ch, grid_char cells q = Some ch ∧ ch ≠ "#"%char.
Proof.
  unfold grid_open. destruct (grid_char cells q) as [ch|]; [|naive_solver].
  destruct (Ascii.eqb ch "#") eqn:Heq.
  - apply Ascii.eqb_eq in Heq. naive_solver.
  - apply Ascii.eqb_neq in Heq. naive_solver.
Qed.

Lemma grid_reach_mono cells cells' root q :
  (∀ p, grid_open cells p = true → grid_open cells' p = true) →
  grid_reach cells root q → grid_reach cells' root q.
Proof.
  intros Hmono. induction 1 as [|p d _ IH Hd Ho]; [constructor|].
  apply grid_reach_step; auto.
Qed.

Lemma grid_done_mono cells cells' h w q :
  (∀ p, grid_open cells p = true → grid_open cells' p = true) →
  grid_done cells h w q → grid_done cells' h w q.
Proof. intros Hmono Hd d ? ? ?. apply Hmono. by apply Hd. Qed.

Lemma carve_evolves_refl g : carve_evolves g g.
Proof. split; [apply same_shape_refl|done..]. Qed.

Lemma carve_evolves_trans g1 g2 g3 :
  carve_evolves g1 g2 → carve_evolves g2 g3 → carve_evolves g1 g3.
Proof.
  intros [Hs Hm Hb] [Hs' Hm' Hb']. split.
  - by eapply same_shape_trans.
  - auto.
  - intros q Hq. by rewrite Hb', Hb.
Qed.

Lemma carve_new_done_refl g : carve_new_done g g.
Proof. intros q _ Ho Hc. congruence. Qed.

Lemma carve_new_done_trans g1 g2 g3 :
  carve_evolves g1 g2 → carve_evolves g2 g3 →
  carve_new_done g1 g2 → carve_new_done g2 g3 → carve_new_done g1 g3.
Proof.
  intros H12 H23 Hn12 Hn23 q Hq Ho3 Hc1.
  destruct (evolves_shape _ _ H12) as (_ & Hw & Hh).
  destruct (grid_open (g_maze g2) q) eqn:Ho2.
  - eapply grid_done_mono; [apply (evolves_mono _ _ H23)|]. by apply Hn12.
  - rewrite <- Hw, <- Hh. by apply Hn23.
Qed.

(** ** The carving: connected, and complete on the lattice *)

Lemma DIRS_swap d : d ∈ DIRS → (d.2, d.1) ∈ DIRS.
Proof.
  intros Hd. destruct (DIRS_cases d Hd) as [-> | [-> | [-> | -> ]]];
    unfold DIRS; simpl; set_solver.
Qed.

(** Opening the cell between [p] and the lattice cell two steps on, and
    that cell. *)
Lemma carve_two_cells g cy cx d m1 m2 :
  carve_inv g → d ∈ DIRS → lattice (cy, cx) →
  0 ≤ cx < width g → 0 ≤ cy < height g →
  0 ≤ cx + d.1 * 2 < width g → 0 ≤ cy + d.2 * 2 < height g →
  grid_reach (g_maze g) (1, 1) (cy, cx) →
  py_update2 (g_maze g) (cy + d.2) (cx + d.1) (λ _, " "%char) = Ok m1 →
  py_update2 m1 (cy + d.2 * 2) (cx + d.1 * 2) (λ _, " "%char) = Ok m2 →
  carve_inv (with_g_maze g m2)
  ∧ carve_evolves g (with_g_maze g m2)
  ∧ grid_open m2 (cy + d.2 * 2, cx + d.1 * 2) = true
  ∧ grid_reach m2 (1, 1) (cy + d.2 * 2, cx + d.1 * 2)
  ∧ ∀ q, lattice q → grid_open m2 q = true → grid_open (g_maze g) q = false →
         q = (cy + d.2 * 2, cx + d.1 * 2).
Proof.
  intros [Hwf Halpha Hconn] Hd (i & j & [= -> ->]) Hcx Hcy Hnx Hny Hreach H1 H2.
  assert (0 ≤ 2 * j + 1 + d.1 < width g ∧ 0 ≤ 2 * i + 1 + d.2 < height g)
    as [Hmx Hmy].
  { destruct (DIRS_cases d Hd) as [-> | [-> | [-> | -> ]]]; simpl in *; lia. }
  destruct (gen_write g _ _ " "%char Hwf Hmx Hmy) as (m1' & H1' & Hwf1 & Hs1 & Hc1).
  rewrite H1 in H1'. injection H1' as <-.
  destruct (gen_write (with_g_maze g m1) _ _ " "%char Hwf1 Hnx Hny)
    as (m2' & H2' & Hwf2 & Hs2 & Hc2).
  simpl in H2'. rewrite H2 in H2'. injection H2' as <-. simpl in Hc2.
  set (mid := (2 * i + 1 + d.2, 2 * j + 1 + d.1)) in *.
  set (tgt := (2 * i + 1 + d.2 * 2, 2 * j + 1 + d.1 * 2)) in *.
  assert (∀ q, grid_char m2 q
               = if decide (q = tgt) then Some " "%char
                 else if decide (q = mid) then Some " "%char
                 else grid_char (g_maze g) q) as Hchar.
  { intros q. rewrite Hc2. case_decide; [done|]. by rewrite Hc1. }
  assert (∀ q, grid_open m2 q = true ↔
               q = tgt ∨ q = mid ∨ grid_open (g_maze g) q = true) as Hopen.
  { intros q. unfold grid_open at 1. rewrite Hchar.
    repeat case_decide; simpl; naive_solver. }
  assert (∀ q, grid_open (g_maze g) q = true → grid_open m2 q = true) as Hmono
    by (intros q Hq; apply Hopen; auto).
  assert (mid = add_tuples (2 * i + 1, 2 * j + 1) (d.2, d.1)) as Hmid by done.
  assert (tgt = add_tuples mid (d.2, d.1)) as Htgt.
  { subst mid tgt. unfold add_tuples. simpl. f_equal; lia. }
  assert (grid_reach m2 (1, 1) mid) as Hrmid.
  { rewrite Hmid. apply grid_reach_step; [|by apply DIRS_swap|].
    - by eapply grid_reach_mono.
    - rewrite <- Hmid. apply Hopen. auto. }
  assert (grid_reach m2 (1, 1) tgt) as Hrtgt.
  { rewrite Htgt. apply grid_reach_step; [done|by apply DIRS_swap|].
    rewrite <- Htgt. apply Hopen. auto. }
  split_and!.
  - split; [done| |].
    + intros q ch. simpl. rewrite Hchar. repeat case_decide; [naive_solver..|].
      apply Halpha.
    + intros q [->|[->|Hq]]%Hopen; [done..|].
      eapply grid_reach_mono; [exact Hmono|]. by apply Hconn.
  - split.
    + eapply same_shape_trans; [exact Hs1|]. done.
    + done.
    + intros q Hq. simpl. rewrite Hchar.
      rewrite !decide_False; [done|..]; subst mid tgt; intros ->; simpl in *;
        destruct (DIRS_cases d Hd) as [-> | [-> | [-> | -> ]]]; simpl in *; lia.
  - apply Hopen. auto.
  - done.
  - intros q (i' & j' & ->) [Hq|[Hq|Hq]]%Hopen Hclosed; [done| |congruence].
    exfalso. subst mid. injection Hq as Hq1 Hq2.
    destruct (DIRS_cases d Hd) as [-> | [-> | [-> | -> ]]]; simpl in *; lia.
Qed.

(** One turn of the loop of [_carve_passages_from] at the lattice cell
    [(cy, cx)], given what the recursive call does at lattice cells. *)
Lemma carve_direction_post recurse cy cx st d st' :
  (∀ g k x y r,
     recurse g k x y = Ok r → carve_inv g → lattice (y, x) →
     0 ≤ x < width g → 0 ≤ y < height g →
     grid_reach (g_maze g) (1, 1) (y, x) →
     carve_inv r.1 ∧ carve_evolves g r.1 ∧ carve_new_done g r.1
     ∧ grid_done (g_maze r.1) (height g) (width g) (y, x)) →
  carve_direction recurse cx cy (Ok st) d = Ok st' →
  carve_inv st.1 → d ∈ DIRS → lattice (cy, cx) →
  0 ≤ cx < width st.1 → 0 ≤ cy < height st.1 →
  grid_reach (g_maze st.1) (1, 1) (cy, cx) →
  carve_inv st'.1 ∧ carve_evolves st.1 st'.1 ∧ carve_new_done st.1 st'.1
  ∧ (0 ≤ cy + 2 * d.2 < height st.1 → 0 ≤ cx + 2 * d.1 < width st.1 →
     grid_open (g_maze st'.1) (cy + 2 * d.2, cx + 2 * d.1) = true).
Proof.
  intros Hrec Hstep Hinv Hd Hlat Hcx Hcy Hreach.
  unfold carve_direction in Hstep. simpl in Hstep.
  destruct (bool_decide (0 ≤ cx + d.1 * 2 < width st.1)
            && bool_decide (0 ≤ cy + d.2 * 2 < height st.1)) eqn:Hin.
  2:{ injection Hstep as <-.
      split_and!; [done|apply carve_evolves_refl|apply carve_new_done_refl|].
      intros ? ?. apply andb_false_iff in Hin as [Hin|Hin];
        apply bool_decide_eq_false in Hin; lia. }
  apply andb_true_iff in Hin as [Hnx%bool_decide_eq_true Hny%bool_decide_eq_true].
  destruct (grid_char_in_range st.1 (cy + d.2 * 2, cx + d.1 * 2))
    as (ch & Hch & row & Hg1 & Hg2); [apply Hinv|done..|].
  simpl in Hg1, Hg2. rewrite Hg1 in Hstep. simpl in Hstep.
  rewrite Hg2 in Hstep. simpl in Hstep.
  replace (cy + 2 * d.2) with (cy + d.2 * 2) by lia.
  replace (cx + 2 * d.1) with (cx + d.1 * 2) by lia.
  destruct (Ascii.eqb ch "#") eqn:Hwall.
  2:{ injection Hstep as <-.
      split_and!; [done|apply carve_evolves_refl|apply carve_new_done_refl|].
      intros _ _. unfold grid_open. rewrite Hch. by rewrite Hwall. }
  apply Ascii.eqb_eq in Hwall as ->.
  destruct (py_update2 (g_maze st.1) _ _ _) as [m1| |] eqn:H1; simpl in Hstep;
    [|done..].
  destruct (py_update2 m1 _ _ _) as [m2| |] eqn:H2; simpl in Hstep; [|done..].
  destruct (carve_two_cells st.1 cy cx d m1 m2)
    as (Hinv2 & Hev2 & Hopen2 & Hreach2 & Hnew2); try done.
  destruct Hlat as (i & j & [= -> ->]).
  destruct (Hrec _ _ _ _ _ Hstep Hinv2) as (Hinv' & Hev' & Hnew' & Hdone'); try done.
  { destruct (DIRS_cases d Hd) as [-> | [-> | [-> | -> ]]]; simpl.
    - exists (i + 1), j. f_equal; lia.
    - exists i, (j + 1). f_equal; lia.
    - exists (i - 1), j. f_equal; lia.
    - exists i, (j - 1). f_equal; lia. }
  split_and!.
  - done.
  - by eapply carve_evolves_trans.
  - intros q Hq Ho Hc.
    destruct (grid_open m2 q) eqn:Ho2.
    + rewrite (Hnew2 q Hq Ho2 Hc). exact Hdone'.
    + by apply (Hnew' q Hq Ho).
  - intros _ _. by apply (evolves_mono _ _ Hev').
Qed.

Lemma foldl_carve_direction_post recurse cy cx ds : ∀ st st',
  (∀ g k x y r,
     recurse g k x y = Ok r → carve_inv g → lattice (y, x) →
     0 ≤ x < width g → 0 ≤ y < height g →
     grid_reach (g_maze g) (1, 1) (y, x) →
     carve_inv r.1 ∧ carve_evolves g r.1 ∧ carve_new_done g r.1
     ∧ grid_done (g_maze r.1) (height g) (width g) (y, x)) →
  foldl (carve_direction recurse cx cy) (Ok st) ds = Ok st' →
  carve_inv st.1 → Forall (λ d, d ∈ DIRS) ds → lattice (cy, cx) →
  0 ≤ cx < width st.1 → 0 ≤ cy < height st.1 →
  grid_reach (g_maze st.1) (1, 1) (cy, cx) →
  carve_inv st'.1 ∧ carve_evolves st.1 st'.1 ∧ carve_new_done st.1 st'.1
  ∧ ∀ d, d ∈ ds →
      0 ≤ cy + 2 * d.2 < height st.1 → 0 ≤ cx + 2 * d.1 < width st.1 →
      grid_open (g_maze st'.1) (cy + 2 * d.2, cx + 2 * d.1) = true.
Proof.
  induction ds as [|d ds IH]; intros st st' Hrec Hfold Hinv Hds Hlat Hcx Hcy Hreach.
  { injection Hfold as <-.
    split_and!; [done|apply carve_evolves_refl|apply carve_new_done_refl|].
    intros d Hd. by apply elem_of_nil in Hd. }
  apply list.Forall_cons in Hds as [Hd Hds]. cbn [foldl] in Hfold.
  destruct (foldl_carve_direction_Ok _ _ _ _ _ _ Hfold) as [st1 H1].
  rewrite H1 in Hfold.
  destruct (carve_direction_post recurse cy cx st d st1)
    as (Hinv1 & Hev1 & Hnew1 & Hopen1); try done.
  destruct (evolves_shape _ _ Hev1) as (_ & Hw1 & Hh1).
  destruct (IH st1 st') as (Hinv' & Hev' & Hnew' & Hopen'); try done.
  { by rewrite Hw1. }
  { by rewrite Hh1. }
  { eapply grid_reach_mono; [apply (evolves_mono _ _ Hev1)|done]. }
  split_and!.
  - done.
  - by eapply carve_evolves_trans.
  - by eapply carve_new_done_trans.
  - intros d' [->|Hd']%elem_of_cons ? ?.
    + apply (evolves_mono _ _ Hev'). by apply Hopen1.
    + apply Hopen'; [done|by rewrite Hh1|by rewrite Hw1].
Qed.

Lemma carve_passages_from_post rnd (fuel : nat) : ∀ g k cx cy r,
  shuffle_outcome rnd →
  carve_passages_from fuel rnd g k cx cy = Ok r →
  carve_inv g → lattice (cy, cx) →
  0 ≤ cx < width g → 0 ≤ cy < height g →
  grid_reach (g_maze g) (1, 1) (cy, cx) →
  carve_inv r.1 ∧ carve_evolves g r.1 ∧ carve_new_done g r.1
  ∧ grid_done (g_maze r.1) (height g) (width g) (cy, cx).
Proof.
  induction fuel as [|fuel IH]; intros g k cx cy r Hrnd Hcarve Hinv Hlat Hcx Hcy Hreach;
    [done|].
  cbn [carve_passages_from] in Hcarve.
  destruct (foldl_carve_direction_post (carve_passages_from fuel rnd)
              cy cx (rnd k) (g, S k) r)
    as (Hinv' & Hev' & Hnew' & Hopen'); try done.
  { intros g0 k0 x y r0 ? ? ? ? ? ?. by apply (IH g0 k0 x y r0). }
  { apply list.Forall_forall. intros d Hd. by rewrite <- (Hrnd k). }
  split_and!; [done..|].
  intros d Hd ? ?. simpl in *.
  apply (Hopen' (d.2, d.1)); [|done..].
  rewrite (Hrnd k). by apply DIRS_swap.
Qed.

(** ** What generate returns *)

Lemma grid_char_init w h q ch :
  grid_char (g_maze (MazeGenerator_init w h)) q = Some ch → ch = "#"%char.
Proof.
  unfold grid_char. case_bool_decide; [|done]. simpl.
  destruct (replicate _ _ !! _) as [row|] eqn:Hrow; simpl; [|done].
  apply lookup_replicate in Hrow as [-> _].
  by intros [-> _]%lookup_replicate.
Qed.

Lemma carve_inv_init w h : 0 ≤ w → 0 ≤ h → carve_inv (MazeGenerator_init w h).
Proof.
  intros Hw Hh. split.
  - by apply gen_wf_init.
  - intros q ch Hch. left. by eapply grid_char_init.
  - intros q (ch & Hch & Hne)%grid_open_char.
    by apply grid_char_init in Hch.
Qed.

Lemma grid_open_init w h q : grid_open (g_maze (MazeGenerator_init w h)) q = false.
Proof.
  destruct (grid_open _ q) eqn:Ho; [|done].
  apply grid_open_char in Ho as (ch & Hch & Hne).
  by apply grid_char_init in Hch.
Qed.

(** The grid [generate] leaves: the carved grid with the two markers. *)
Lemma generate_cells rnd w h layout g' :
  shuffle_outcome rnd →
  generate rnd (MazeGenerator_init w h) = Ok (layout, g') →
  2 ≤ w ∧ 2 ≤ h
  ∧ layout = map string_of_list_ascii (g_maze g')
  ∧ gen_wf g' ∧ width g' = w ∧ height g' = h
  ∧ ∃ g1, carve_inv g1
      ∧ carve_evolves (MazeGenerator_init w h) g1
      ∧ carve_new_done (MazeGenerator_init w h) g1
      ∧ grid_done (g_maze g1) h w (1, 1)
      ∧ ∀ q, grid_char (g_maze g') q
             = if decide (q = (h - 2, w - 2)) then Some "E"%char
               else if decide (q = (1, 1)) then Some "S"%char
               else grid_char (g_maze g1) q.
Proof.
  intros Hrnd Hgen.
  pose proof Hgen as (Hw & Hh & _)%generate_layout.
  unfold generate in Hgen.
  destruct (carve_passages_from _ _ _ _ _ _) as [st| |] eqn:Hc; simpl in Hgen;
    [|done..].
  destruct (carve_passages_from_post _ _ _ _ _ _ _ Hrnd Hc)
    as (Hinv & Hev & Hnew & Hdone).
  { apply carve_inv_init; lia. }
  { by exists 0, 0. }
  { simpl. lia. }
  { simpl. lia. }
  { constructor. }
  destruct (evolves_shape _ _ Hev) as (_ & Hw1 & Hh1). simpl in Hw1, Hh1.
  destruct (gen_write st.1 1 1 "S"%char) as (m1 & H1 & Hwf1 & _ & Hc1);
    [apply Hinv|lia..|].
  rewrite H1 in Hgen. simpl in Hgen.
  destruct (gen_write (with_g_maze st.1 m1) (w - 2) (h - 2) "E"%char)
    as (m2 & H2 & Hwf2 & _ & Hc2); [done|simpl; lia..|].
  simpl in H2. rewrite H2 in Hgen. simpl in Hgen. injection Hgen as <- <-.
  split_and!; try done.
  exists st.1. split_and!; try done.
  intros q. simpl. rewrite Hc2. case_decide; [done|]. by rewrite Hc1.
Qed.

Lemma grid_reach_open cells root q :
  grid_reach cells root q → q = root ∨ grid_open cells q = true.
Proof. destruct 1; auto. Qed.

(** Every lattice cell within the extents is open after the carving, but
    for (1, 1), which [generate] opens afterwards. *)
Lemma lattice_covered g1 w h :
  carve_inv g1 → carve_evolves (MazeGenerator_init w h) g1 →
  carve_new_done (MazeGenerator_init w h) g1 →
  grid_done (g_maze g1) h w (1, 1) →
  ∀ i j : nat, 2 * Z.of_nat i + 1 < h → 2 * Z.of_nat j + 1 < w →
    (i = 0%nat ∧ j = 0%nat)
    ∨ grid_open (g_maze g1) (2 * Z.of_nat i + 1, 2 * Z.of_nat j + 1) = true.
Proof.
  intros Hinv Hev Hnew Hdone.
  assert (∀ q, lattice q →
            q = (1, 1) ∨ grid_open (g_maze g1) q = true →
            grid_done (g_maze g1) h w q) as Hclosed.
  { intros q Hq [->|Ho]; [done|].
    apply (Hnew q Hq Ho). apply grid_open_init. }
  assert (∀ i : nat, 2 * Z.of_nat i + 1 < h → 1 < w →
            (i = 0%nat) ∨ grid_open (g_maze g1) (2 * Z.of_nat i + 1, 1) = true)
    as Hcol.
  { induction i as [|i IH]; intros Hi Hw; [by left|right].
    pose proof (Hclosed (2 * Z.of_nat i + 1, 1)) as Hd.
    assert (grid_done (g_maze g1) h w (2 * Z.of_nat i + 1, 1)) as Hdi.
    { apply Hd; [by exists (Z.of_nat i), 0|].
      destruct IH as [->|IH]; [lia|done|by left|by right]. }
    specialize (Hdi (1, 0)). simpl in Hdi.
    replace (2 * Z.of_nat (S i) + 1) with (2 * Z.of_nat i + 1 + 2 * 1) by lia.
    apply Hdi; [unfold DIRS; set_solver|lia..]. }
  intros i j. revert i. induction j as [|j IH]; intros i Hi Hj.
  { destruct (Hcol i Hi) as [->|Ho]; [lia|by left|by right]. }
  right.
  assert (grid_done (g_maze g1) h w (2 * Z.of_nat i + 1, 2 * Z.of_nat j + 1))
    as Hdj.
  { apply Hclosed; [by exists (Z.of_nat i), (Z.of_nat j)|].
    destruct (IH i) as [[-> ->]|Ho]; [lia..|by left|by right]. }
  specialize (Hdj (0, 1)). simpl in Hdj.
  replace (2 * Z.of_nat (S j) + 1) with (2 * Z.of_nat j + 1 + 2 * 1) by lia.
  replace (2 * Z.of_nat i + 1) with (2 * Z.of_nat i + 1 + 2 * 0) at 1 by lia.
  apply Hdj; [unfold DIRS; set_solver|lia..].
Qed.

(** ** The open cells of a generated grid hang together *)

Section Marked.
(** [g1] is the generator after the carving, [cells'] its grid after the
    two markers are written. *)
Context (g1 : MazeGenerator) (cells' : list (list ascii)) (w h : Z).
Context (Hinv : carve_inv g1).
Context (Hev : carve_evolves (MazeGenerator_init w h) g1).
Context (Hnew : carve_new_done (MazeGenerator_init w h) g1).
Context (Hdone : grid_done (g_maze g1) h w (1, 1)).
Context (Hchar : ∀ q, grid_char cells' q
           = if decide (q = (h - 2, w - 2)) then Some "E"%char
             else if decide (q = (1, 1)) then Some "S"%char
             else grid_char (g_maze g1) q).

Lemma marked_open q :
  grid_open cells' q = true ↔
  q = (h - 2, w - 2) ∨ q = (1, 1) ∨ grid_open (g_maze g1) q = true.
Proof.
  unfold grid_open at 1. rewrite Hchar.
  case_decide; [naive_solver|]. case_decide; [naive_solver|].
  unfold grid_open. naive_solver.
Qed.

Lemma carved_reach q :
  grid_reach (g_maze g1) (1, 1) q → grid_reach cells' (1, 1) q.
Proof.
  apply grid_reach_mono. intros p Hp. apply marked_open. auto.
Qed.

Lemma carved_in_range p :
  grid_reach (g_maze g1) (1, 1) p → 2 ≤ w → 2 ≤ h →
  0 ≤ p.1 < h ∧ 0 ≤ p.2 < w.
Proof.
  intros [->|Ho]%grid_reach_open Hw Hh; [simpl; lia|].
  apply grid_open_char in Ho as (ch & Hch & _).
  apply grid_char_Some in Hch; [|apply Hinv].
  destruct (evolves_shape _ _ Hev) as (_ & Hw1 & Hh1). simpl in Hw1, Hh1.
  lia.
Qed.

Lemma lattice_reach (i j : Z) :
  0 ≤ i → 0 ≤ j → 2 * i + 1 < h → 2 * j + 1 < w →
  grid_reach (g_maze g1) (1, 1) (2 * i + 1, 2 * j + 1).
Proof.
  intros Hi Hj Hih Hjw.
  pose proof (lattice_covered g1 w h Hinv Hev Hnew Hdone
                (Z.to_nat i) (Z.to_nat j)) as Hc.
  rewrite !Z2Nat.id in Hc by done.
  destruct Hc as [[Hi0 Hj0]|Ho]; [done..| |].
  - replace i with 0 by lia. replace j with 0 by lia. constructor.
  - by apply (carve_connected _ Hinv).
Qed.

Lemma marked_reach q :
  grid_open cells' q = true → q ≠ (h - 2, w - 2) →
  grid_reach cells' (1, 1) q.
Proof.
  intros [->|[->|Ho]]%marked_open Hne; [done|constructor|].
  by apply carved_reach, (carve_connected _ Hinv).
Qed.

Lemma end_next_to p d :
  grid_reach (g_maze g1) (1, 1) p → d ∈ DIRS →
  add_tuples p d = (h - 2, w - 2) →
  grid_reach cells' (1, 1) (h - 2, w - 2).
Proof.
  intros Hp Hd Heq. rewrite <- Heq.
  apply grid_reach_step; [by apply carved_reach|done|].
  rewrite Heq. apply marked_open. by left.
Qed.

(** The end marker is written on a carved cell, or next to one. *)
Lemma end_reach :
  3 ≤ w → 3 ≤ h → grid_reach cells' (1, 1) (h - 2, w - 2).
Proof.
  intros Hw Hh.
  destruct (Z.Even_or_Odd h) as [[a Ha]|[a Ha]],
           (Z.Even_or_Odd w) as [[b Hb]|[b Hb]].
  - (* both even: the cell before the corner (h - 1, w - 1) on the way from
       (1, 1) is next to the end *)
    pose proof (lattice_reach (a - 1) (b - 1)
                  ltac:(lia) ltac:(lia) ltac:(lia) ltac:(lia)) as Hc.
    inversion Hc as [Heq|p d Hp Hd Hopen [Heq1 Heq2]]; [lia|].
    pose proof (carved_in_range p Hp ltac:(lia) ltac:(lia)) as [Hp1 Hp2].
    destruct (DIRS_cases d Hd) as [-> | [-> | [-> | -> ]]]; simpl in *.
    + apply (end_next_to p (-1, 0) Hp); [unfold DIRS; set_solver|].
      unfold add_tuples. simpl. f_equal; lia.
    + apply (end_next_to p (0, -1) Hp); [unfold DIRS; set_solver|].
      unfold add_tuples. simpl. f_equal; lia.
    + lia.
    + lia.
  - (* h even, w odd: (h - 3, w - 2) is a cell of the lattice *)
    apply (end_next_to (2 * (a - 2) + 1, 2 * (b - 1) + 1) (1, 0));
      [apply lattice_reach; lia|unfold DIRS; set_solver|].
    unfold add_tuples. simpl. f_equal; lia.
  - (* h odd, w even: (h - 2, w - 3) is a cell of the lattice *)
    apply (end_next_to (2 * (a - 1) + 1, 2 * (b - 2) + 1) (0, 1));
      [apply lattice_reach; lia|unfold DIRS; set_solver|].
    unfold add_tuples. simpl. f_equal; lia.
  - (* both odd: the end is a cell of the lattice *)
    replace (h - 2) with (2 * (a - 1) + 1) by lia.
    replace (w - 2) with (2 * (b - 1) + 1) by lia.
    apply carved_reach, lattice_reach; lia.
Qed.

Lemma carved_inside q :
  grid_open (g_maze g1) q = true → 1 ≤ q.1 < h ∧ 1 ≤ q.2 < w.
Proof.
  intros (ch & Hch & Hne)%grid_open_char.
  pose proof (grid_char_Some _ _ _ (carve_wf _ Hinv) Hch) as [H1 H2].
  destruct (evolves_shape _ _ Hev) as (_ & Hw1 & Hh1). simpl in Hw1, Hh1.
  destruct (decide (q.1 = 0 ∨ q.2 = 0)) as [H0|H0]; [|lia].
  rewrite (evolves_border _ _ Hev) in Hch by done.
  by apply grid_char_init in Hch.
Qed.

(** With two rows the carving stays in row 1, and a passage that reaches a
    column has passed all columns before it. *)
Lemma row_reach q :
  h = 2 → grid_reach (g_maze g1) (1, 1) q →
  q.1 = 1 ∧ ∀ c, 1 ≤ c ≤ q.2 → grid_reach (g_maze g1) (1, 1) (1, c).
Proof.
  intros Hh2. induction 1 as [|p d Hp [IH1 IH2] Hd Ho].
  { split; [done|]. simpl. intros c Hc. replace c with 1 by lia. constructor. }
  pose proof (carved_inside _ Ho) as [Ht1 Ht2].
  unfold add_tuples in Ht1, Ht2 |- *. simpl in Ht1, Ht2 |- *.
  split; [lia|]. intros c Hc.
  destruct (decide (c ≤ p.2)) as [Hle|Hgt]; [apply IH2; lia|].
  destruct (DIRS_cases d Hd) as [-> | [-> | [-> | -> ]]]; simpl in *; try lia.
  assert ((1, c) = add_tuples p (0, 1)) as ->.
  { unfold add_tuples. simpl. f_equal; lia. }
  by apply grid_reach_step.
Qed.

Lemma col_reach q :
  w = 2 → grid_reach (g_maze g1) (1, 1) q →
  q.2 = 1 ∧ ∀ r, 1 ≤ r ≤ q.1 → grid_reach (g_maze g1) (1, 1) (r, 1).
Proof.
  intros Hw2. induction 1 as [|p d Hp [IH1 IH2] Hd Ho].
  { split; [done|]. simpl. intros r Hr. replace r with 1 by lia. constructor. }
  pose proof (carved_inside _ Ho) as [Ht1 Ht2].
  unfold add_tuples in Ht1, Ht2 |- *. simpl in Ht1, Ht2 |- *.
  split; [lia|]. intros r Hr.
  destruct (decide (r ≤ p.1)) as [Hle|Hgt]; [apply IH2; lia|].
  destruct (DIRS_cases d Hd) as [-> | [-> | [-> | -> ]]]; simpl in *; try lia.
  assert ((r, 1) = add_tuples p (1, 0)) as ->.
  { unfold add_tuples. simpl. f_equal; lia. }
  by apply grid_reach_step.
Qed.

Lemma end_reach_row :
  h = 2 → 3 ≤ w → grid_reach cells' (1, 1) (h - 2, w - 2).
Proof.
  intros Hh2 Hw.
  assert (∃ j, 0 ≤ j ∧ w - 2 ≤ 2 * j + 1 < w) as (j & Hj & Hjw).
  { destruct (Z.Even_or_Odd w) as [[b Hb]|[b Hb]];
      [exists (b - 1)|exists (b - 1)]; lia. }
  pose proof (lattice_reach 0 j ltac:(lia) Hj ltac:(lia) ltac:(lia)) as Hc.
  apply (row_reach _ Hh2) in Hc as [_ Hc]. simpl in Hc.
  apply (end_next_to (1, w - 2) (-1, 0)); [apply Hc; lia|unfold DIRS; set_solver|].
  unfold add_tuples. simpl. f_equal; lia.
Qed.

Lemma end_reach_col :
  w = 2 → 3 ≤ h → grid_reach cells' (1, 1) (h - 2, w - 2).
Proof.
  intros Hw2 Hh.
  assert (∃ i, 0 ≤ i ∧ h - 2 ≤ 2 * i + 1 < h) as (i & Hi & Hih).
  { destruct (Z.Even_or_Odd h) as [[a Ha]|[a Ha]];
      [exists (a - 1)|exists (a - 1)]; lia. }
  pose proof (lattice_reach i 0 Hi ltac:(lia) ltac:(lia) ltac:(lia)) as Hc.
  apply (col_reach _ Hw2) in Hc as [_ Hc]. simpl in Hc.
  apply (end_next_to (h - 2, 1) (0, -1)); [apply Hc; lia|unfold DIRS; set_solver|].
  unfold add_tuples. simpl. f_equal; lia.
Qed.

(** From (1, 1) the end is reached through open cells, but for the
    2 x 2 grid, whose end lies in the corner (0, 0). *)
Lemma end_reach_all :
  2 ≤ w → 2 ≤ h → ¬ (w = 2 ∧ h = 2) →
  grid_reach cells' (1, 1) (h - 2, w - 2).
Proof.
  intros Hw Hh Hne.
  destruct (decide (h = 2)) as [Hh2|Hh2]; [apply end_reach_row; lia|].
  destruct (decide (w = 2)) as [Hw2|Hw2]; [apply end_reach_col; lia|].
  apply end_reach; lia.
Qed.
End Marked.

(** ** Calls of _carve_passages_from that carve nothing *)

Lemma carve_direction_skip recurse cx cy st d :
  bool_decide (0 ≤ cx + d.1 * 2 < width st.1)
  && bool_decide (0 ≤ cy + d.2 * 2 < height st.1) = false →
  carve_direction recurse cx cy (Ok st) d = Ok st.
Proof. intros H. unfold carve_direction. simpl. by rewrite H. Qed.

Lemma carve_direction_open recurse cx cy st d :
  gen_wf st.1 →
  grid_open (g_maze st.1) (cy + d.2 * 2, cx + d.1 * 2) = true →
  carve_direction recurse cx cy (Ok st) d = Ok st.
Proof.
  intros Hwf (ch & Hch & Hne)%grid_open_char.
  pose proof (grid_char_Some _ _ _ Hwf Hch) as [Hy Hx]. simpl in Hy, Hx.
  destruct (grid_char_in_range st.1 (cy + d.2 * 2, cx + d.1 * 2) Hwf Hy Hx)
    as (ch' & Hch' & row & Hrow & Hget).
  assert (ch' = ch) as -> by congruence. simpl in Hrow, Hget.
  unfold carve_direction. simpl.
  rewrite !bool_decide_true by done. simpl.
  rewrite Hrow. simpl. rewrite Hget. simpl.
  by apply Ascii.eqb_neq in Hne as ->.
Qed.

Lemma foldl_carve_direction_id recurse cx cy st ds :
  (∀ d, d ∈ ds → carve_direction recurse cx cy (Ok st) d = Ok st) →
  foldl (carve_direction recurse cx cy) (Ok st) ds = Ok st.
Proof.
  induction ds as [|d ds IH]; intros H; [done|].
  cbn [foldl]. rewrite H by set_solver. apply IH. intros d' Hd'.
  apply H. set_solver.
Qed.

Lemma shuffle_outcome_elem rnd k d : shuffle_outcome rnd → d ∈ rnd k → d ∈ DIRS.
Proof. intros Hrnd Hd. by rewrite <- (Hrnd k). Qed.

(** Below 2 x 2 no target of a move from (1, 1) is inside the grid. *)
Lemma carve_passages_from_small rnd fuel w h k :
  shuffle_outcome rnd → w < 2 ∨ h < 2 →
  carve_passages_from (S fuel) rnd (MazeGenerator_init w h) k 1 1
  = Ok (MazeGenerator_init w h, S k).
Proof.
  intros Hrnd Hsmall. cbn [carve_passages_from].
  apply foldl_carve_direction_id. intros d Hd%(shuffle_outcome_elem _ _ _ Hrnd).
  apply carve_direction_skip. simpl.
  apply andb_false_iff. rewrite !bool_decide_eq_false.
  destruct (DIRS_cases d Hd) as [-> | [-> | [-> | -> ]]]; simpl; lia.
Qed.

(** Where all neighbours of (1, 1) on the lattice are open already, the call
    at (1, 1) returns without a write. *)
Lemma carve_passages_from_done rnd fuel g k :
  shuffle_outcome rnd → gen_wf g →
  grid_done (g_maze g) (height g) (width g) (1, 1) →
  carve_passages_from (S fuel) rnd g k 1 1 = Ok (g, S k).
Proof.
  intros Hrnd Hwf Hdone. cbn [carve_passages_from].
  apply foldl_carve_direction_id. intros d Hd%(shuffle_outcome_elem _ _ _ Hrnd).
  destruct (bool_decide (0 ≤ 1 + d.1 * 2 < width g)
            && bool_decide (0 ≤ 1 + d.2 * 2 < height g)) eqn:Hguard.
  - apply andb_true_iff in Hguard as [Hx Hy].
    apply bool_decide_eq_true in Hx, Hy.
    apply carve_direction_open; [done|]. simpl.
    specialize (Hdone (d.2, d.1) (DIRS_swap d Hd)). simpl in Hdone.
    replace (1 + d.2 * 2) with (1 + 2 * d.2) by lia.
    replace (1 + d.1 * 2) with (1 + 2 * d.1) by lia.
    apply Hdone; lia.
  - by apply carve_direction_skip.
Qed.

Lemma py_update2_init_small {A} w h (x : A) f :
  w < 2 ∨ h < 2 →
  py_update2 (replicate (Z.to_nat h) (replicate (Z.to_nat w) x)) 1 1 f
  = Raise IndexError.
Proof.
  intros Hsmall. unfold py_update2. rewrite length_replicate. unfold py_index.
  destruct (decide (2 ≤ h)) as [Hh|Hh].
  - rewrite bool_decide_true by lia.
    rewrite lookup_replicate_2 by lia. rewrite length_replicate.
    rewrite bool_decide_false by lia. by rewrite bool_decide_false by lia.
  - rewrite bool_decide_false by lia. by rewrite bool_decide_false by lia.
Qed.

Lemma generate_small rnd w h :
  shuffle_outcome rnd → w < 2 ∨ h < 2 →
  generate rnd (MazeGenerator_init w h) = Raise IndexError.
Proof.
  intros Hrnd Hsmall. unfold generate, carve_fuel.
  rewrite carve_passages_from_small by done. simpl.
  by rewrite py_update2_init_small.
Qed.

(** ** The characters of a generated layout *)

Lemma layout_char_grid (cells : list (list ascii)) (r c : nat) :
  layout_char (map string_of_list_ascii cells) r c
  = grid_char cells (Z.of_nat r, Z.of_nat c).
Proof.
  unfold layout_char, grid_char. simpl. rewrite bool_decide_true by lia.
  rewrite !Nat2Z.id. change (map ?f ?l) with (f <$> l).
  rewrite list_lookup_fmap. destruct (cells !! r) as [row|]; simpl; [|done].
  by rewrite <- lookup_list_ascii_of_string, list_ascii_of_string_of_list_ascii.
Qed.

Lemma grid_char_is_Some g q :
  gen_wf g →
  is_Some (grid_char (g_maze g) q) ↔ 0 ≤ q.1 < height g ∧ 0 ≤ q.2 < width g.
Proof.
  intros Hwf. split.
  - intros [ch Hch]. by eapply grid_char_Some.
  - intros [H1 H2].
    destruct (grid_char_in_range g q Hwf H1 H2) as (ch & -> & _). eauto.
Qed.

(** ** Further properties of the generator *)

Lemma string_length_of_list_ascii (row : list ascii) :
  String.length (string_of_list_ascii row) = length row.
Proof.
  by rewrite <- length_list_ascii_of_string, list_ascii_of_string_of_list_ascii.
Qed.



(** X13: the characters of a generated layout.  Row [r], column [c] holds a
    character exactly when [r < h] and [c < w]; the character is 'E' exactly
    at (h - 2, w - 2) and 'S' exactly at (1, 1), unless that is where 'E' is
    (the 3 x 3 layout, which has no 'S'); every other character is '#' or
    ' '. *)
Theorem generate_layout_markers
    (rnd : shuffles) (w h : Z) (layout : list string) (g' : MazeGenerator) :
  shuffle_outcome rnd →
  generate rnd (MazeGenerator_init w h) = Ok (layout, g') →
  ∀ r c : nat,
    (is_Some (layout_char layout r c) ↔ Z.of_nat r < h ∧ Z.of_nat c < w)
    ∧ (layout_char layout r c = Some "E"%char ↔
       (Z.of_nat r, Z.of_nat c) = (h - 2, w - 2))
    ∧ (layout_char layout r c = Some "S"%char ↔
       (r, c) = (1%nat, 1%nat) ∧ (h, w) ≠ (3, 3))
    ∧ ∀ ch, layout_char layout r c = Some ch →
        ch = "E"%char ∨ ch = "S"%char ∨ ch = "#"%char ∨ ch = " "%char.
Proof.
  intros Hrnd Hgen r c.
  destruct (generate_cells _ _ _ _ _ Hrnd Hgen)
    as (Hw & Hh & -> & Hwf & Hw' & Hh' & g1 & Hinv & _ & _ & _ & Hchar).
  rewrite layout_char_grid.
  split_and!.
  - rewrite (grid_char_is_Some g' _ Hwf), Hw', Hh'. simpl. lia.
  - rewrite Hchar. case_decide as HE; [done|]. case_decide as HS.
    + split; [done|]. intros ?. done.
    + split; [|done]. intros Hch.
      by destruct (carve_alphabet _ Hinv _ _ Hch).
  - rewrite Hchar. case_decide as HE.
    + split; [done|]. intros [[= -> ->] Hne]. injection HE as ? ?.
      destruct Hne. f_equal; lia.
    + case_decide as HS.
      * split; [|done]. intros _. injection HS as ? ?.
        split; [f_equal; lia|]. intros [= -> ->]. destruct HE. f_equal; lia.
      * split.
        -- intros Hch. by destruct (carve_alphabet _ Hinv _ _ Hch).
        -- intros [[= -> ->] _]. by destruct HS.
  - intros ch. rewrite Hchar. repeat case_decide.
    + intros [= <-]. auto.
    + intros [= <-]. auto.
    + intros Hch. destruct (carve_alphabet _ Hinv _ _ Hch); auto.
Qed.

Lemma generate_layout_markers_witness :
  (is_Some (layout_char layout_6x6 4 4) ↔ Z.of_nat 4 < 6 ∧ Z.of_nat 4 < 6)
  ∧ (layout_char layout_6x6 4 4 = Some "E"%char ↔
     (Z.of_nat 4, Z.of_nat 4) = (6 - 2, 6 - 2))
  ∧ (layout_char layout_6x6 4 4 = Some "S"%char ↔
     (4%nat, 4%nat) = (1%nat, 1%nat) ∧ (6, 6) ≠ (3, 3))
  ∧ ∀ ch, layout_char layout_6x6 4 4 = Some ch →
      ch = "E"%char ∨ ch = "S"%char ∨ ch = "#"%char ∨ ch = " "%char.
Proof.
  apply (generate_layout_markers identity_shuffles 6 6 layout_6x6
           (with_g_maze (MazeGenerator_init 6 6)
              (map list_ascii_of_string layout_6x6))).
  - intros k. reflexivity.
  - vm_compute. reflexivity.
Defined.

Lemma layout_open_grid (cells : list (list ascii)) (r c : nat) :
  layout_open (map string_of_list_ascii cells) r c
  = grid_open cells (Z.of_nat r, Z.of_nat c).
Proof.
  unfold grid_open. rewrite <- layout_char_grid.
  unfold layout_open, layout_char.
  by destruct (_ !! r) as [row|].
Qed.

(** X14: the passages of a generated layout.  Every cell in an odd row and
    an odd column is open, whatever the shuffles; every cell of row 0 and of
    column 0 is a wall, but for the cell of the 'E', which lies there when
    the height or the width is 2. *)
Theorem generate_layout_lattice
    (rnd : shuffles) (w h : Z) (layout : list string) (g' : MazeGenerator) :
  shuffle_outcome rnd →
  generate rnd (MazeGenerator_init w h) = Ok (layout, g') →
  ∀ r c : nat, Z.of_nat r < h → Z.of_nat c < w →
    (Nat.Odd r → Nat.Odd c → layout_open layout r c = true)
    ∧ (r = 0%nat ∨ c = 0%nat →
       layout_open layout r c
       = bool_decide ((Z.of_nat r, Z.of_nat c) = (h - 2, w - 2))).
Proof.
  intros Hrnd Hgen r c Hr Hc.
  destruct (generate_cells _ _ _ _ _ Hrnd Hgen)
    as (Hw & Hh & -> & Hwf & Hw' & Hh' & g1 & Hinv & Hev & Hnew & Hdone & Hchar).
  rewrite layout_open_grid. split.
  - intros [i ->] [j ->].
    apply (marked_open g1 (g_maze g') w h Hchar).
    pose proof (lattice_covered g1 w h Hinv Hev Hnew Hdone i j) as Hcov.
    replace (Z.of_nat (2 * i + 1)) with (2 * Z.of_nat i + 1) by lia.
    replace (Z.of_nat (2 * j + 1)) with (2 * Z.of_nat j + 1) by lia.
    destruct Hcov as [[-> ->]|Ho]; [lia..| |]; auto.
  - intros Hborder. case_bool_decide as HE.
    + apply (marked_open g1 (g_maze g') w h Hchar). by left.
    + apply not_true_is_false.
      intros [?|[[= ? ?]|Ho]]%(marked_open g1 (g_maze g') w h Hchar);
        [done|lia|].
      apply grid_open_char in Ho as (ch & Hch & Hne).
      rewrite (evolves_border _ _ Hev) in Hch by (simpl; lia).
      by apply grid_char_init in Hch.
Qed.

Lemma generate_layout_lattice_witness :
  (Nat.Odd 3 → Nat.Odd 5 → layout_open layout_6x6 3 5 = true)
  ∧ (3%nat = 0%nat ∨ 5%nat = 0%nat →
     layout_open layout_6x6 3 5
     = bool_decide ((Z.of_nat 3, Z.of_nat 5) = (6 - 2, 6 - 2))).
Proof.
  apply (generate_layout_lattice identity_shuffles 6 6 layout_6x6
           (with_g_maze (MazeGenerator_init 6 6)
              (map list_ascii_of_string layout_6x6))).
  - intros k. reflexivity.
  - vm_compute. reflexivity.
  - lia.
  - lia.
Defined.

(** ** A second call of generate *)

Lemma grid_char_ext (l1 l2 : list (list ascii)) :
  length l1 = length l2 → (∀ q, grid_char l1 q = grid_char l2 q) → l1 = l2.
Proof.
  intros Hlen Hq. apply list_eq. intros i.
  destruct (l1 !! i) as [r1|] eqn:H1, (l2 !! i) as [r2|] eqn:H2.
  - f_equal. apply list_eq. intros j.
    specialize (Hq (Z.of_nat i, Z.of_nat j)). unfold grid_char in Hq.
    simpl in Hq. rewrite bool_decide_true, !Nat2Z.id, H1, H2 in Hq by lia.
    done.
  - apply lookup_lt_Some in H1. apply lookup_ge_None in H2. lia.
  - apply lookup_lt_Some in H2. apply lookup_ge_None in H1. lia.
  - done.
Qed.

(** The generator that [generate] leaves is a fixed point of [generate]. *)
Lemma generate_fixed
    (rnd rnd' : shuffles) (w h : Z) (layout : list string) (g' : MazeGenerator) :
  shuffle_outcome rnd →
  shuffle_outcome rnd' →
  generate rnd (MazeGenerator_init w h) = Ok (layout, g') →
  generate rnd' g' = Ok (layout, g').
Proof.
  intros Hrnd Hrnd' Hgen.
  destruct (generate_cells _ _ _ _ _ Hrnd Hgen)
    as (Hw & Hh & -> & Hwf & Hw' & Hh' & g1 & Hinv & Hev & Hnew & Hdone & Hchar).
  unfold generate, carve_fuel.
  rewrite carve_passages_from_done; [|done|done|].
  2:{ rewrite Hw', Hh'. eapply grid_done_mono; [|exact Hdone].
      intros p Hp. apply (marked_open g1 (g_maze g') w h Hchar). auto. }
  simpl.
  destruct (gen_write g' 1 1 "S"%char) as (m1 & H1 & Hwf1 & Hs1 & Hc1);
    [done|lia..|].
  rewrite H1. simpl.
  destruct (gen_write (with_g_maze g' m1) (w - 2) (h - 2) "E"%char)
    as (m2 & H2 & Hwf2 & Hs2 & Hc2); [done|simpl; lia..|].
  simpl in H2. rewrite Hw', Hh', H2. simpl.
  assert (m2 = g_maze g') as ->.
  { apply grid_char_ext.
    - destruct Hs1 as (Hl1 & _), Hs2 as (Hl2 & _). simpl in Hl1, Hl2.
      rewrite <- (length_map length m2), Hl2, Hl1. apply length_map.
    - intros q. rewrite Hc2. simpl. rewrite Hc1, !Hchar.
      by repeat case_decide. }
  by destruct g'.
Qed.

(** X15: [generate] called again on the generator it has left, as the test
    mode of [main] does for every run, carves nothing: whatever the shuffles
    of the second call, it returns the layout of the first and leaves the
    generator as it is. *)
Theorem generate_again
    (rnd rnd' : shuffles) (w h : Z) (layout : list string) (g' : MazeGenerator) :
  shuffle_outcome rnd →
  shuffle_outcome rnd' →
  generate rnd (MazeGenerator_init w h) = Ok (layout, g') →
  generate rnd' g' = Ok (layout, g').
Proof. apply generate_fixed. Qed.

Lemma generate_again_witness :
  generate round_trip_shuffles
    (with_g_maze (MazeGenerator_init 6 6) (map list_ascii_of_string layout_6x6))
  = Ok (layout_6x6,
        with_g_maze (MazeGenerator_init 6 6) (map list_ascii_of_string layout_6x6)).
Proof.
  apply (generate_again identity_shuffles round_trip_shuffles 6 6).
  - intros k. reflexivity.
  - intros k. do 4 (destruct k as [|k]; [by apply (bool_decide_unpack _)|]).
    reflexivity.
  - vm_compute. reflexivity.
Defined.

(** ** The maze of a generated layout *)

Lemma walk_app m p q r k j : walk m p q k → walk m q r j → walk m p r (k + j).
Proof.
  induction 1 as [p|p x q k Hs Hw IH]; intros Hqr.
  - by replace (0 + j) with j by lia.
  - replace (k + 1 + j) with (k + j + 1) by lia.
    eapply walk_cons; [done|]. by apply IH.
Qed.

Lemma lookup2_map {A B} (f : A → B) (g : list (list A)) (r c : nat) :
  map (map f) g !! r ≫= (.!! c) = f <$> (g !! r ≫= (.!! c)).
Proof.
  change (map (map f) g) with (map f <$> g). rewrite list_lookup_fmap.
  destruct (g !! r) as [row|]; simpl; [|done].
  change (map f row) with (f <$> row). by rewrite list_lookup_fmap.
Qed.

(** [set_start] and [set_end] write flags only: the passages of the solver's
    maze are those of the layout. *)
Lemma main_setup_passages layout w h strategy s :
  main_setup layout w h strategy = Ok s →
  map (map traversable) (maze (s_maze s))
  = map (map traversable) (create_maze layout).
Proof.
  unfold main_setup, Maze_init, set_start, set_end. simpl.
  destruct (py_update2 (create_maze layout) 1 1 mark_start) as [g1| |] eqn:H1;
    simpl; [|done..].
  apply (py_update2_map traversable) in H1; [|done].
  destruct (in_bounds _ 1 1); simpl;
    (destruct (py_update2 g1 _ _ mark_end) as [g2| |] eqn:H2; simpl; [|done..]);
    (apply (py_update2_map traversable) in H2; [|done]);
    destruct (in_bounds _ _ _); simpl; intros [= <-]; simpl; congruence.
Qed.

Section GeneratedMaze.
Context (rnd : shuffles) (w h : Z) (layout : list string) (g' : MazeGenerator).
Context (strategy : string) (s : MazeSolver).
Context (Hrnd : shuffle_outcome rnd).
Context (Hgen : generate rnd (MazeGenerator_init w h) = Ok (layout, g')).
Context (Hs : main_setup layout w h strategy = Ok s).

Lemma main_setup_facts :
  wf_maze (s_maze s) ∧ rows (s_maze s) = h ∧ cols (s_maze s) = w
  ∧ current_pos s = Some (1, 1)
  ∧ end_node (s_maze s) = Some (h - 2, w - 2)
  ∧ solver s = strategy.
Proof.
  destruct (main_setup_generated rnd w h layout g' strategy Hgen)
    as (s0 & Hs0 & Hwf & Hrows & Hcols & Hpos & _ & Hend & Hsolver).
  assert (s0 = s) as -> by congruence. done.
Qed.

(** A cell of the maze is in bounds and traversable exactly where the
    grid of the generator has a character other than '#'. *)
Lemma main_setup_open q : is_open (s_maze s) q = grid_open (g_maze g') q.
Proof.
  destruct main_setup_facts as (Hwf & Hrows & Hcols & _).
  destruct (generate_cells _ _ _ _ _ Hrnd Hgen)
    as (_ & _ & Hlayout & Hgwf & Hw' & Hh' & _).
  unfold is_open, in_bounds, grid_open. rewrite Hrows, Hcols.
  destruct (grid_char (g_maze g') q) as [ch|] eqn:Hch.
  - pose proof (grid_char_Some _ _ _ Hgwf Hch) as [H1 H2].
    rewrite !bool_decide_true by lia. simpl.
    pose proof (lookup2_map traversable (maze (s_maze s))
                  (Z.to_nat q.1) (Z.to_nat q.2)) as Hlk.
    rewrite (main_setup_passages _ _ _ _ _ Hs), lookup2_map in Hlk.
    rewrite create_maze_lookup in Hlk.
    pose proof (layout_char_grid (g_maze g') (Z.to_nat q.1) (Z.to_nat q.2))
      as Hlc.
    rewrite <- Hlayout, !Z2Nat.id in Hlc by lia.
    unfold layout_char in Hlc. destruct q as [q1 q2]. simpl in *.
    rewrite Hch in Hlc.
    destruct (layout !! Z.to_nat q1) as [row|]; simpl in Hlc; [|done].
    simpl in Hlk. rewrite Hlc in Hlk. simpl in Hlk. unfold cell. simpl.
    destruct (maze (s_maze s) !! Z.to_nat q1 ≫= _) as [n|]; simpl in Hlk;
      [|done].
    by injection Hlk as <-.
  - destruct (decide (0 ≤ q.1 < h ∧ 0 ≤ q.2 < w)) as [[H1 H2]|Hout].
    + destruct (grid_char_in_range g' q Hgwf) as (ch & Hch' & _); [lia..|].
      congruence.
    + apply andb_false_iff. left. apply andb_false_iff.
      rewrite !bool_decide_eq_false.
      destruct (decide (0 ≤ q.1 < h)); [right|left]; lia.
Qed.

Lemma grid_reach_walk root q :
  grid_reach (g_maze g') root q → ∃ k, walk (s_maze s) root q k.
Proof.
  induction 1 as [|p d Hp [k IH] Hd Ho]; [exists 0; constructor|].
  exists (k + 1). eapply walk_snoc; [done|].
  exists d. split_and!; [done..|]. by rewrite main_setup_open.
Qed.

Lemma grid_reach_walk_back root q :
  grid_open (g_maze g') root = true →
  grid_reach (g_maze g') root q → ∃ k, walk (s_maze s) q root k.
Proof.
  intros Hroot. induction 1 as [|p d Hp [k IH] Hd Ho]; [exists 0; constructor|].
  exists (k + 1). eapply walk_cons; [|done].
  exists (- d.1, - d.2). split_and!.
  - by apply DIRS_opposite.
  - unfold add_tuples. destruct p. simpl. f_equal; lia.
  - rewrite main_setup_open.
    by destruct (grid_reach_open _ _ _ Hp) as [->|?].
Qed.

(** All open cells are joined to the end. *)
Lemma generated_walk_to_end q :
  ¬ (w = 2 ∧ h = 2) → is_open (s_maze s) q = true →
  ∃ k, walk (s_maze s) q (h - 2, w - 2) k.
Proof.
  intros Hne Ho. rewrite main_setup_open in Ho.
  destruct (generate_cells _ _ _ _ _ Hrnd Hgen)
    as (Hw & Hh & _ & _ & _ & _ & g1 & Hinv & Hev & Hnew & Hdone & Hchar).
  destruct (decide (q = (h - 2, w - 2))) as [->|HE]; [exists 0; constructor|].
  pose proof (marked_reach g1 _ w h Hinv Hchar q Ho HE) as Hq.
  pose proof (end_reach_all g1 _ w h Hinv Hev Hnew Hdone Hchar Hw Hh Hne) as He.
  apply grid_reach_walk_back in Hq as [k Hk].
  2:{ apply (marked_open g1 _ w h Hchar). auto. }
  apply grid_reach_walk in He as [j Hj].
  exists (k + j). by eapply walk_app.
Qed.

(** In the 2 x 2 maze no move leaves (1, 1). *)
Lemma generated_2x2_stuck q :
  w = 2 → h = 2 → ¬ step (s_maze s) (1, 1) q.
Proof.
  intros Hw2 Hh2 (d & Hd & -> & Ho). rewrite main_setup_open in Ho.
  destruct (generate_cells _ _ _ _ _ Hrnd Hgen)
    as (? & ? & ? & ? & ? & ? & g1 & Hinv & Hev & ? & ? & Hchar).
  apply (marked_open g1 _ w h Hchar) in Ho as [Ho|[Ho|Ho]].
  - unfold add_tuples in Ho. simpl in Ho. injection Ho as ? ?.
    destruct (DIRS_cases d Hd) as [-> | [-> | [-> | -> ]]]; simpl in *; lia.
  - unfold add_tuples in Ho. simpl in Ho. injection Ho as ? ?.
    destruct (DIRS_cases d Hd) as [-> | [-> | [-> | -> ]]]; simpl in *; lia.
  - apply (carved_inside g1 w h Hinv Hev) in Ho as [Hq1 Hq2].
    unfold add_tuples in Hq1, Hq2. simpl in Hq1, Hq2.
    destruct (DIRS_cases d Hd) as [-> | [-> | [-> | -> ]]]; simpl in *; lia.
Qed.
End GeneratedMaze.

(** X16: a generated maze is connected.  For every layout that [generate]
    returns, other than the 2 x 2 one, [main]'s calls build a solver, and on
    its maze [calculate_distance_to_end] returns a finite distance, under
    [h * w], from every cell that is in bounds and traversable: no passage is
    cut off from the end, whatever the shuffles. *)
Theorem generated_maze_connected
    (rnd : shuffles) (w h : Z) (layout : list string) (g' : MazeGenerator)
    (strategy : string) :
  shuffle_outcome rnd →
  ¬ (w = 2 ∧ h = 2) →
  generate rnd (MazeGenerator_init w h) = Ok (layout, g') →
  ∃ s, main_setup layout w h strategy = Ok s
    ∧ ∀ row col, open_cell (s_maze s) row col = Ok true →
        ∃ k, calculate_distance_to_end (s_maze s) row col = Ok (Finite k)
             ∧ 0 ≤ k < h * w.
Proof.
  intros Hrnd Hne Hgen.
  destruct (main_setup_generated rnd w h layout g' strategy Hgen)
    as (s & Hs & _).
  exists s. split; [done|]. intros row col Ho.
  destruct (main_setup_facts rnd w h layout g' strategy s Hgen Hs)
    as (Hwf & Hrows & Hcols & _ & Hend & _).
  rewrite (open_cell_wf _ Hwf) in Ho. injection Ho as Ho.
  destruct (generated_walk_to_end rnd w h layout g' strategy s
              Hrnd Hgen Hs (row, col) Hne Ho) as [j Hj].
  destruct (distance_of_walk _ _ _ _ Hwf Hend Hj) as (k & Hk & Hkj & Hshort).
  exists k. rewrite (calculate_distance_to_end_at _ _ _ Hwf), Hk.
  split; [done|].
  apply shortest_to_end_bound in Hshort as [Hk0 Hbound].
  2:{ simpl. unfold is_open in Ho. by apply andb_true_iff in Ho as [? _]. }
  rewrite Hrows, Hcols in Hbound.
  pose proof Hgen as (Hw & Hh & _)%generate_layout.
  rewrite <- Z2Nat.inj_mul in Hbound by lia. split; [done|]. lia.
Qed.

Lemma generated_maze_connected_witness :
  ∃ s, main_setup layout_6x6 6 6 "A*" = Ok s
    ∧ ∀ row col, open_cell (s_maze s) row col = Ok true →
        ∃ k, calculate_distance_to_end (s_maze s) row col = Ok (Finite k)
             ∧ 0 ≤ k < 6 * 6.
Proof.
  apply (generated_maze_connected identity_shuffles 6 6 layout_6x6
           (with_g_maze (MazeGenerator_init 6 6)
              (map list_ascii_of_string layout_6x6))).
  - intros k. reflexivity.
  - lia.
  - vm_compute. reflexivity.
Defined.

Lemma walk_manhattan m p q k :
  walk m p q k → Z.abs (q.1 - p.1) + Z.abs (q.2 - p.2) ≤ k.
Proof.
  induction 1 as [p|p x q k (d & Hd & -> & _) Hw IH]; [lia|].
  unfold add_tuples in IH. simpl in IH.
  destruct (DIRS_cases d Hd) as [-> | [-> | [-> | -> ]]]; simpl in IH; lia.
Qed.

(** On a generated maze other than the 2 x 2 one the driver loop returns,
    after more calls than the end is rows and columns away from (1, 1). *)
Lemma generated_solve_loop rnd w h layout g' s :
  shuffle_outcome rnd → ¬ (w = 2 ∧ h = 2) →
  generate rnd (MazeGenerator_init w h) = Ok (layout, g') →
  main_setup layout w h "A*" = Ok s →
  ∃ n s', (Z.to_nat (Z.abs (h - 3) + Z.abs (w - 3)) < n ≤ Z.to_nat (h * w))%nat
    ∧ (∀ extra, solve_loop (n + extra) s = (Ok n, s'))
    ∧ current_pos s' = end_node (s_maze s')
    ∧ end_node (s_maze s') = Some (h - 2, w - 2).
Proof.
  intros Hrnd H22 Hgen Hs.
  pose proof Hgen as (Hw & Hh & _)%generate_layout.
  destruct (main_setup_facts rnd w h layout g' "A*" s Hgen Hs)
    as (Hwf & Hrows & Hcols & Hpos & Hend & Hsolver).
  assert (in_bounds (s_maze s) 1 1 = true) as Hb.
  { apply in_bounds_spec. lia. }
  assert (is_open (s_maze s) (1, 1) = true) as Ho.
  { rewrite (main_setup_open rnd w h layout g' "A*" s Hrnd Hgen Hs).
    destruct (generate_cells _ _ _ _ _ Hrnd Hgen)
      as (? & ? & ? & ? & ? & ? & g1 & ? & ? & ? & ? & Hchar).
    apply (marked_open g1 _ w h Hchar). auto. }
  destruct (generated_walk_to_end rnd w h layout g' "A*" s
              Hrnd Hgen Hs (1, 1) H22 Ho) as [j Hj].
  destruct (distance_of_walk _ _ _ _ Hwf Hend Hj) as (k & _ & Hkj & Hshort).
  pose proof (shortest_to_end_bound _ (1, 1) _ Hb Hshort) as [Hk0 Hbound].
  rewrite Hrows, Hcols, <- Z2Nat.inj_mul in Hbound by lia.
  assert (Z.abs (h - 3) + Z.abs (w - 3) ≤ k) as Hfar.
  { destruct Hshort as (e & He & Hwalk & _). rewrite Hend in He.
    injection He as <-. apply walk_manhattan in Hwalk. simpl in Hwalk. lia. }
  rewrite <- (Z2Nat.id k) in Hshort by done.
  destruct (solve_loop_shortest _ s (1, 1) Hwf Hsolver Hpos Hb Hshort)
    as (_ & s' & Hs' & Hpos' & _ & Hsame).
  exists (S (Z.to_nat k)), s'. split_and!; [lia|lia|done|done|].
  destruct Hsame as (_ & _ & He & _). by rewrite <- He.
Qed.



(** ** Runs that do not end, and runs that do not start *)

(** X18: with a strategy other than "A*" the driver loop never returns.  On
    a well-formed maze, from an in-bounds position that is not the end,
    every call of [solve_step] returns [False] and leaves the position where
    it was, so no number of calls ends the loop; after the first call the
    cell is marked visited. *)
Theorem solve_loop_unknown_strategy_spins
    (s : MazeSolver) (row col : Z) (calls : nat) :
  wf_maze (s_maze s) →
  solver s ≠ "A*"%string →
  current_pos s = Some (row, col) →
  in_bounds (s_maze s) row col = true →
  Some (row, col) ≠ end_node (s_maze s) →
  (solve_loop calls s).1 = OutOfFuel
  ∧ current_pos (solve_loop calls s).2 = Some (row, col)
  ∧ ((0 < calls)%nat →
     ∃ n, get_node (s_maze (solve_loop calls s).2) row col = Ok n
          ∧ visited n = true).
Proof.
  intros Hwf Hsolver Hpos Hb Hne.
  assert (∀ s0, wf_maze (s_maze s0) → solver s0 ≠ "A*"%string →
            current_pos s0 = Some (row, col) →
            in_bounds (s_maze s0) row col = true →
            Some (row, col) ≠ end_node (s_maze s0) →
            ∃ g n, py_update2 (maze (s_maze s0)) row col mark_visited = Ok g
              ∧ solve_step s0
                = (Ok false, with_s_maze s0 (with_maze (s_maze s0) g))
              ∧ wf_maze (with_maze (s_maze s0) g)
              ∧ get_node (with_maze (s_maze s0) g) row col = Ok (mark_visited n))
    as Hstep.
  { intros s0 Hwf0 Hsolver0 Hpos0 Hb0 Hne0.
    destruct (update_in_bounds _ _ _ mark_visited Hwf0 Hb0) as [g Hg].
    pose proof (py_update2_read (maze (s_maze s0)) row col mark_visited) as Hread.
    destruct (get_node_in_bounds _ Hwf0 row col Hb0) as (n & _ & Hn).
    unfold get_node in Hn. rewrite Hn in Hread.
    destruct Hread as (g' & Hg' & Hread). rewrite Hg in Hg'. injection Hg' as <-.
    exists g, n. split_and!; [done| |by eapply wf_maze_update|done].
    unfold solve_step. rewrite Hpos0, bool_decide_false by done.
    rewrite Hg. unfold find_move. simpl solver.
    by rewrite bool_decide_false by done. }
  assert (∀ n s0, wf_maze (s_maze s0) → solver s0 ≠ "A*"%string →
            current_pos s0 = Some (row, col) →
            in_bounds (s_maze s0) row col = true →
            Some (row, col) ≠ end_node (s_maze s0) →
            (∃ x, get_node (s_maze s0) row col = Ok x ∧ visited x = true) →
            (solve_loop n s0).1 = OutOfFuel
            ∧ current_pos (solve_loop n s0).2 = Some (row, col)
            ∧ ∃ x, get_node (s_maze (solve_loop n s0).2) row col = Ok x
                   ∧ visited x = true) as Hloop.
  { induction n as [|n IH]; intros s0 Hwf0 Hsolver0 Hpos0 Hb0 Hne0 Hv0; [done|].
    destruct (Hstep s0 Hwf0 Hsolver0 Hpos0 Hb0 Hne0) as (g & x & Hg & Hs0 & Hwf1 & Hx).
    cbn [solve_loop]. rewrite Hs0.
    destruct (IH (with_s_maze s0 (with_maze (s_maze s0) g)))
      as (Hout & Hp & Hv); try done.
    { by exists (mark_visited x). }
    destruct (solve_loop n _) as [[k| |] s2]; simpl in *; done. }
  destruct calls as [|calls]; [split_and!; [done|done|lia]|].
  destruct (Hstep s Hwf Hsolver Hpos Hb Hne) as (g & x & Hg & Hs0 & Hwf1 & Hx).
  cbn [solve_loop]. rewrite Hs0.
  destruct (Hloop calls (with_s_maze s (with_maze (s_maze s) g)))
    as (Hout & Hp & Hv); try done.
  { by exists (mark_visited x). }
  destruct (solve_loop calls _) as [[k| |] s2]; simpl in *; done.
Qed.

Lemma solve_loop_unknown_strategy_spins_witness :
  (solve_loop 5 (value_or no_solver (main_setup layout_6x6 6 6 "dfs"))).1
  = OutOfFuel
  ∧ current_pos (solve_loop 5 (value_or no_solver
                                 (main_setup layout_6x6 6 6 "dfs"))).2
    = Some (1, 1)
  ∧ ((0 < 5)%nat →
     ∃ n, get_node (s_maze (solve_loop 5 (value_or no_solver
                                 (main_setup layout_6x6 6 6 "dfs"))).2) 1 1
          = Ok n
          ∧ visited n = true).
Proof.
  apply (solve_loop_unknown_strategy_spins
           (value_or no_solver (main_setup layout_6x6 6 6 "dfs")) 1 1 5).
  - split; [reflexivity|]. repeat constructor.
  - discriminate.
  - reflexivity.
  - reflexivity.
  - discriminate.
Defined.

(** X19: a solver on a maze whose start was never recorded.  [Maze(layout)]
    records neither start nor end, and [MazeSolver] takes its position from
    the recorded start: on the maze as constructed the first call of
    [solve_step] returns [True], for every layout and strategy, because the
    missing position equals the missing end.  Once [set_end] has recorded an
    end, the first call raises [TypeError] at the unpacking of the position,
    and the driver loop stops with it; when [set_end] returned without
    recording (an index that resolves from the end of the list), the call
    returns [True] as before. *)
Theorem solver_without_start
    (layout : list string) (strategy : string) (row col : Z) :
  ∃ m s0, Maze_init layout = Ok m
    ∧ MazeSolver_init m strategy = Ok s0
    ∧ (∀ calls, solve_loop (S calls) s0 = (Ok 1%nat, s0))
    ∧ ∀ me, set_end m row col = (Ok (), me) →
        ∃ s, MazeSolver_init me strategy = Ok s
          ∧ ∀ calls, solve_loop (S calls) s
                     = (if in_bounds m row col then Raise TypeError
                        else Ok 1%nat, s).
Proof.
  eexists. eexists. split; [reflexivity|]. split; [reflexivity|]. split.
  - intros calls. by apply solve_loop_at_end.
  - intros me Hme. eexists. split; [reflexivity|]. intros calls.
    unfold set_end in Hme.
    destruct (py_update2 _ row col mark_end) as [g| |]; [|done..].
    change (in_bounds (with_maze ?m g) row col) with (in_bounds m row col) in Hme.
    destruct (in_bounds _ row col); injection Hme as <-.
    + cbn [solve_loop]. unfold solve_step. by simpl.
    + by apply solve_loop_at_end.
Qed.

(** ** The test mode of main *)

Lemma Maze_init_generated rnd w h layout g' :
  generate rnd (MazeGenerator_init w h) = Ok (layout, g') →
  ∃ m, Maze_init layout = Ok m ∧ wf_maze m ∧ rows m = h ∧ cols m = w.
Proof.
  intros (Hw & Hh & cells & -> & Hshape)%generate_layout.
  unfold Maze_init.
  set (g := create_maze (map string_of_list_ascii cells)).
  assert (map length g = replicate (Z.to_nat h) (Z.to_nat w)) as Hg
    by (subst g; by rewrite create_maze_shape).
  assert (length g = Z.to_nat h) as Hlen
    by (by rewrite <- (length_map length), Hg, length_replicate).
  assert (∀ row, row ∈ g → length row = Z.to_nat w) as Hrows.
  { intros row [i Hi]%list_elem_of_lookup.
    assert (map length g !! i = Some (length row)) as Hl.
    { change (map length g) with (length <$> g).
      by rewrite list_lookup_fmap, Hi. }
    rewrite Hg in Hl. by apply lookup_replicate in Hl as [-> _]. }
  eexists. split; [reflexivity|].
  set (m0 := {| maze := g |}).
  assert (rows m0 = h) as Hr by (simpl; lia).
  assert (cols m0 = w) as Hc.
  { simpl. rewrite bool_decide_true by lia.
    destruct g as [|row g0]; [simpl in Hlen; lia|].
    rewrite (Hrows row) by set_solver. lia. }
  split_and!; [|done..]. split; [done|].
  apply list.Forall_forall. intros row Hrow.
  rewrite Hc, (Hrows row Hrow). lia.
Qed.

(** Once the solver stands on its end, every run of the loop is one call. *)
Lemma main_test_runs_at_end rnds calls g layout s :
  (∀ i, generate (rnds i) g = Ok (layout, g)) →
  (∃ m, Maze_init layout = Ok m ∧ wf_maze m
        ∧ in_bounds m 1 1 = true ∧ in_bounds m 25 31 = true) →
  current_pos s = end_node (s_maze s) →
  ∀ tests i,
    main_test_runs tests rnds i (S calls) g s = Ok (replicate tests 1%nat, g, s).
Proof.
  intros Hgen (m & Hm & Hwf & Hb1 & Hb2) Hend.
  induction tests as [|tests IH]; intros i; [done|].
  cbn [main_test_runs]. rewrite Hgen. cbn [mbind outcome_bind fst snd].
  rewrite Hm. cbn [mbind outcome_bind].
  destruct (set_start_in_bounds m 1 1 Hwf Hb1) as (g1 & Hg1 & ->).
  cbn [mbind outcome_bind].
  destruct (set_end_in_bounds (with_start (with_maze m g1) (1, 1)) 25 31)
    as (g2 & Hg2 & ->); [by eapply wf_maze_update|done|].
  cbn [mbind outcome_bind]. rewrite solve_loop_at_end by done. by rewrite IH.
Qed.



(** ** draw_maze *)

Lemma NoDup_box m : NoDup (box m).
Proof.
  unfold box. apply NoDup_bind.
  - intros r1 r2 p _ _ H1 H2.
    apply list_elem_of_bind in H1 as (c1 & Hp1 & _).
    apply list_elem_of_bind in H2 as (c2 & Hp2 & _).
    apply list_elem_of_singleton in Hp1, Hp2. congruence.
  - intros r _. apply NoDup_bind.
    + intros c1 c2 p _ _ H1 H2.
      apply list_elem_of_singleton in H1, H2. congruence.
    + intros c _. apply NoDup_singleton.
    + apply NoDup_seqZ.
  - apply NoDup_seqZ.
Qed.

Section Draw.
Context (m : Maze) (s : MazeSolver) (Hwf : wf_maze m).

Lemma foldl_draw_node row cs : ∀ tr,
  0 ≤ row < rows m → Forall (λ c, 0 ≤ c < cols m) cs →
  foldl (draw_node m s row) (tr, Ok ()) cs
  = (tr ++ (cell_rect m s <$> (cs ≫= λ c, [(row, c)])), Ok ()).
Proof.
  induction cs as [|c cs IH]; intros tr Hrow Hcs.
  { simpl. by rewrite app_nil_r. }
  apply list.Forall_cons in Hcs as [Hc Hcs]. cbn [foldl].
  assert (in_bounds m row c = true) as Hb by (apply in_bounds_spec; lia).
  destruct (get_node_in_bounds m Hwf row c Hb) as (n & Hcell & Hn).
  unfold draw_node at 2. simpl. rewrite Hn. rewrite IH by done.
  f_equal. rewrite <- app_assoc. f_equal. simpl. f_equal.
  unfold cell_rect. simpl. by rewrite Hcell.
Qed.

Lemma foldl_draw_rows rs : ∀ tr,
  Forall (λ r, 0 ≤ r < rows m) rs →
  foldl (λ acc row, foldl (draw_node m s row) acc (seqZ 0 (cols m)))
        (tr, Ok ()) rs
  = (tr ++ (cell_rect m s <$> (rs ≫= λ r, seqZ 0 (cols m) ≫= λ c, [(r, c)])), Ok ()).
Proof.
  induction rs as [|r rs IH]; intros tr Hrs.
  { simpl. by rewrite app_nil_r. }
  apply list.Forall_cons in Hrs as [Hr Hrs]. cbn [foldl].
  rewrite foldl_draw_node; [|done|].
  2:{ apply list.Forall_forall. intros c Hc%elem_of_seqZ. lia. }
  rewrite IH by done. f_equal. rewrite <- app_assoc. f_equal.
  change ((r :: rs) ≫= ?f) with (f r ++ (rs ≫= f)).
  by rewrite fmap_app.
Qed.

Lemma draw_maze_box :
  draw_maze m s = (Fill BLACK :: (cell_rect m s <$> box m) ++ [Flip], Ok ()).
Proof.
  unfold draw_maze. rewrite foldl_draw_rows; [done|].
  apply list.Forall_forall. intros r Hr%elem_of_seqZ. lia.
Qed.

Lemma rect_get_node row col :
  in_bounds m row col = true →
  ∃ node, get_node m row col = Ok node
    ∧ cell_rect m s (row, col)
      = Rect (node_color node (bool_decide (Some (row, col) = current_pos s)))
             (col * (CELL_SIZE + MARGIN) + MARGIN)
             (row * (CELL_SIZE + MARGIN) + MARGIN)
             CELL_SIZE CELL_SIZE.
Proof.
  intros Hb. destruct (get_node_in_bounds m Hwf row col Hb) as (n & Hcell & Hn).
  exists n. split; [done|]. unfold cell_rect. simpl. by rewrite Hcell.
Qed.
End Draw.

(** X21: what [draw_maze] paints.  On a well-formed maze, whatever the
    solver, [draw_maze] raises nothing: it fills the screen black, draws
    [rows * cols] rectangles and flips the display.  A rectangle is drawn
    exactly for every in-bounds cell, 10 by 10 at
    [(col * 11 + 1, row * 11 + 1)], in the colour of the cell's node.  All
    rectangles lie inside the window that [main] opens for the maze, with a
    margin on every side, and no two of them touch or overlap. *)
Theorem draw_maze_rects (m : Maze) (s : MazeSolver) :
  wf_maze m →
  ∃ rects,
    draw_maze m s = (Fill BLACK :: rects ++ [Flip], Ok ())
    ∧ length rects = (Z.to_nat (rows m) * Z.to_nat (cols m))%nat
    ∧ (∀ d, d ∈ rects ↔
         ∃ row col node,
           in_bounds m row col = true
           ∧ get_node m row col = Ok node
           ∧ d = Rect (node_color node
                         (bool_decide (Some (row, col) = current_pos s)))
                      (col * (CELL_SIZE + MARGIN) + MARGIN)
                      (row * (CELL_SIZE + MARGIN) + MARGIN)
                      CELL_SIZE CELL_SIZE)
    ∧ (∀ c left top width height,
         Rect c left top width height ∈ rects →
         0 < left ∧ left + width < (screen_size m).1
         ∧ 0 < top ∧ top + height < (screen_size m).2)
    ∧ ∀ i j ci li ti wi hi cj lj tj wj hj,
        i ≠ j →
        rects !! i = Some (Rect ci li ti wi hi) →
        rects !! j = Some (Rect cj lj tj wj hj) →
        li + wi < lj ∨ lj + wj < li ∨ ti + hi < tj ∨ tj + hj < ti.
Proof.
  intros Hwf. exists (cell_rect m s <$> box m).
  split; [by apply draw_maze_box|].
  split; [by rewrite length_fmap, length_box|].
  split_and!.
  - intros d. rewrite list_elem_of_fmap. split.
    + intros ([row col] & -> & Hp%elem_of_box). simpl in Hp.
      destruct (rect_get_node m s Hwf row col Hp) as (node & Hn & Hrect).
      by exists row, col, node.
    + intros (row & col & node & Hb & Hn & ->).
      exists (row, col). split; [|by apply elem_of_box].
      destruct (rect_get_node m s Hwf row col Hb) as (node' & Hn' & ->). congruence.
  - intros c left top width height ([row col] & Heq & Hp%elem_of_box)%list_elem_of_fmap.
    simpl in Hp. apply in_bounds_spec in Hp as [Hr Hc].
    unfold cell_rect in Heq. injection Heq as _ -> -> -> ->.
    unfold screen_size, CELL_SIZE, MARGIN. simpl. lia.
  - intros i j ci li ti wi hi cj lj tj wj hj Hij Hi Hj.
    rewrite list_lookup_fmap in Hi, Hj.
    destruct (box m !! i) as [[ri coli]|] eqn:Hbi; [|done].
    destruct (box m !! j) as [[rj colj]|] eqn:Hbj; [|done].
    simpl in Hi, Hj. unfold cell_rect in Hi, Hj. simpl in Hi, Hj.
    injection Hi as _ <- <- <- <-. injection Hj as _ <- <- <- <-.
    assert ((ri, coli) ≠ (rj, colj)) as Hne.
    { intros Heq. rewrite Heq in Hbi.
      by pose proof (NoDup_lookup _ _ _ _ (NoDup_box m) Hbi Hbj). }
    unfold CELL_SIZE, MARGIN.
    destruct (decide (ri = rj)) as [->|Hr];
      [destruct (decide (coli = colj)) as [->|Hc]; [done|]|]; lia.
Qed.

Lemma draw_maze_rects_witness :
  ∃ rects,
    draw_maze (s_maze solver_6x6) solver_6x6
    = (Fill BLACK :: rects ++ [Flip], Ok ())
    ∧ length rects
      = (Z.to_nat (rows (s_maze solver_6x6)) * Z.to_nat (cols (s_maze solver_6x6)))%nat
    ∧ (∀ d, d ∈ rects ↔
         ∃ row col node,
           in_bounds (s_maze solver_6x6) row col = true
           ∧ get_node (s_maze solver_6x6) row col = Ok node
           ∧ d = Rect (node_color node
                         (bool_decide (Some (row, col) = current_pos solver_6x6)))
                      (col * (CELL_SIZE + MARGIN) + MARGIN)
                      (row * (CELL_SIZE + MARGIN) + MARGIN)
                      CELL_SIZE CELL_SIZE)
    ∧ (∀ c left top width height,
         Rect c left top width height ∈ rects →
         0 < left ∧ left + width < (screen_size (s_maze solver_6x6)).1
         ∧ 0 < top ∧ top + height < (screen_size (s_maze solver_6x6)).2)
    ∧ ∀ i j ci li ti wi hi cj lj tj wj hj,
        i ≠ j →
        rects !! i = Some (Rect ci li ti wi hi) →
        rects !! j = Some (Rect cj lj tj wj hj) →
        li + wi < lj ∨ lj + wj < li ∨ ti + hi < tj ∨ tj + hj < ti.
Proof.
  apply (draw_maze_rects (s_maze solver_6x6) solver_6x6).
  split; [reflexivity|]. repeat constructor.
Defined.

(** X22: the colour of a cell.  The tests of the loop body override one
    another in their order, so that the start is green wherever the solver
    stands and whatever its other flags; a cell that is not the start is
    blue when the solver stands on it; otherwise gray when visited, even if
    it is the end; otherwise red when it is the end; otherwise white for a
    wall and black for a passage. *)
Theorem node_color_cases (node : MazeNode) (here : bool) :
  (node_color node here = GREEN ↔ is_start node = true)
  ∧ (node_color node here = BLUE ↔ is_start node = false ∧ here = true)
  ∧ (node_color node here = GRAY ↔
     is_start node = false ∧ here = false ∧ visited node = true)
  ∧ (node_color node here = RED ↔
     is_start node = false ∧ here = false ∧ visited node = false
     ∧ is_end node = true)
  ∧ (node_color node here = WHITE ↔
     is_start node = false ∧ here = false ∧ visited node = false
     ∧ is_end node = false ∧ traversable node = false)
  ∧ (node_color node here = BLACK ↔
     is_start node = false ∧ here = false ∧ visited node = false
     ∧ is_end node = false ∧ traversable node = true).
Proof.
  destruct node as [[] [] [] []], here; vm_compute;
    repeat split; try discriminate; try done; intros; destruct_and?; discriminate.
Qed.

(** ** draw_maze on a grid with a short row *)

Lemma py_get_raise {A} (l : list A) i e : py_get l i = Raise e → e = IndexError.
Proof. unfold py_get. repeat (case_match; try congruence). Qed.

Lemma get_node_raise m row col e : get_node m row col = Raise e → e = IndexError.
Proof.
  unfold get_node. destruct (py_get (maze m) row) as [r| |] eqn:Hr; simpl.
  - apply py_get_raise.
  - intros [= <-]. by eapply py_get_raise.
  - done.
Qed.

Lemma get_node_fuel m row col : get_node m row col ≠ OutOfFuel.
Proof.
  unfold get_node, py_get. repeat (case_match; simpl; try congruence).
Qed.

Lemma draw_node_state m s row acc col :
  draw_state acc → draw_state (draw_node m s row acc col).
Proof.
  intros [Hflip [Hok|Herr]]; unfold draw_node; rewrite ?Hok, ?Herr;
    [|by split; [|right]].
  destruct (get_node m row col) as [n|e|] eqn:Hn.
  - split; simpl; [|by left].
    rewrite elem_of_app, list_elem_of_singleton. by intros [?|?].
  - split; simpl; [done|]. right. by rewrite (get_node_raise _ _ _ _ Hn).
  - by destruct (get_node_fuel m row col).
Qed.

Lemma foldl_draw_node_state m s row cs : ∀ acc,
  draw_state acc → draw_state (foldl (draw_node m s row) acc cs).
Proof.
  induction cs as [|c cs IH]; intros acc Hacc; [done|].
  cbn [foldl]. by apply IH, draw_node_state.
Qed.

Lemma foldl_draw_node_raised m s row cs : ∀ acc,
  acc.2 = Raise IndexError →
  (foldl (draw_node m s row) acc cs).2 = Raise IndexError.
Proof.
  induction cs as [|c cs IH]; intros acc Hacc; [done|].
  cbn [foldl]. apply IH. unfold draw_node. by rewrite Hacc.
Qed.

Lemma foldl_draw_node_short m s row cs col : ∀ acc,
  draw_state acc → col ∈ cs → get_node m row col = Raise IndexError →
  (foldl (draw_node m s row) acc cs).2 = Raise IndexError.
Proof.
  induction cs as [|c cs IH]; intros acc Hacc Hcol Hget; [by apply elem_of_nil in Hcol|].
  cbn [foldl]. apply elem_of_cons in Hcol as [<-|Hcol].
  - apply foldl_draw_node_raised. destruct Hacc as [_ [Hok|Herr]];
      unfold draw_node; [by rewrite Hok, Hget|by rewrite Herr].
  - apply IH; [by apply draw_node_state|done..].
Qed.

Lemma foldl_draw_rows_state m s rs : ∀ acc,
  draw_state acc →
  draw_state (foldl (λ acc row, foldl (draw_node m s row) acc (seqZ 0 (cols m)))
                    acc rs).
Proof.
  induction rs as [|r rs IH]; intros acc Hacc; [done|].
  cbn [foldl]. by apply IH, foldl_draw_node_state.
Qed.

Lemma foldl_draw_rows_raised m s rs : ∀ acc,
  acc.2 = Raise IndexError →
  (foldl (λ acc row, foldl (draw_node m s row) acc (seqZ 0 (cols m))) acc rs).2
  = Raise IndexError.
Proof.
  induction rs as [|r rs IH]; intros acc Hacc; [done|].
  cbn [foldl]. by apply IH, foldl_draw_node_raised.
Qed.

Lemma foldl_draw_rows_short m s rs row col : ∀ acc,
  draw_state acc → row ∈ rs → col ∈ seqZ 0 (cols m) →
  get_node m row col = Raise IndexError →
  (foldl (λ acc row, foldl (draw_node m s row) acc (seqZ 0 (cols m))) acc rs).2
  = Raise IndexError.
Proof.
  induction rs as [|r rs IH]; intros acc Hacc Hrow Hcol Hget;
    [by apply elem_of_nil in Hrow|].
  cbn [foldl]. apply elem_of_cons in Hrow as [<-|Hrow].
  - by apply foldl_draw_rows_raised, (foldl_draw_node_short _ _ _ _ col).
  - apply IH; [by apply foldl_draw_node_state|done..].
Qed.

Lemma draw_maze_raises m s row col :
  0 ≤ row < rows m → 0 ≤ col < cols m →
  get_node m row col = Raise IndexError →
  ∃ calls, draw_maze m s = (calls, Raise IndexError) ∧ Flip ∉ calls.
Proof.
  intros Hrow Hcol Hget. unfold draw_maze.
  set (r := foldl _ _ _).
  assert (draw_state r) as [Hflip _].
  { apply foldl_draw_rows_state. split; [|by left]. simpl.
    rewrite list_elem_of_singleton. done. }
  assert (r.2 = Raise IndexError) as Hr.
  { apply (foldl_draw_rows_short _ _ _ row col); [|by apply elem_of_seqZ; lia..|done].
    split; [|by left]. simpl. rewrite list_elem_of_singleton. done. }
  rewrite Hr. exists r.1. split; [|done]. destruct r. simpl in Hr. by rewrite Hr.
Qed.

(** X23: a layout with a row shorter than its first row builds a maze that
    [draw_maze] cannot draw.  [Maze(layout)] accepts the layout and takes
    [cols] from the first row; [draw_maze] then raises [IndexError] when it
    reads past the end of the short row, whatever the solver.  The calls
    made before are not taken back, and the display is never flipped. *)
Theorem draw_maze_short_row
    (layout : list string) (first line : string) (r : nat) (s : MazeSolver) :
  layout !! 0%nat = Some first →
  layout !! r = Some line →
  (String.length line < String.length first)%nat →
  ∃ m calls, Maze_init layout = Ok m
    ∧ draw_maze m s = (calls, Raise IndexError)
    ∧ Flip ∉ calls.
Proof.
  intros Hfirst Hline Hshort.
  set (m := value_or empty_maze (Maze_init layout)).
  exists m.
  assert (rows m = Z.of_nat (length layout)) as Hrows.
  { subst m. simpl. unfold create_maze. by rewrite length_map. }
  assert (cols m = Z.of_nat (String.length first)) as Hcols.
  { subst m. simpl. destruct layout as [|x layout]; [done|].
    injection Hfirst as ->. rewrite bool_decide_true by (simpl; lia). simpl.
    by rewrite length_map, length_list_ascii_of_string. }
  apply lookup_lt_Some in Hline as Hr.
  destruct (draw_maze_raises m s (Z.of_nat r) (Z.of_nat (String.length line)))
    as (calls & Hdraw & Hflip); [lia..| |by exists calls].
  unfold get_node.
  destruct (py_get_in_range (maze m) (Z.of_nat r)) as (cells & Hcells & ->).
  { simpl. unfold create_maze. rewrite length_map. lia. }
  simpl. rewrite Nat2Z.id in Hcells. simpl in Hcells. unfold create_maze in Hcells.
  change (map ?f layout) with (f <$> layout) in Hcells.
  rewrite list_lookup_fmap, Hline in Hcells. injection Hcells as <-.
  unfold py_get, py_index.
  rewrite length_map, length_list_ascii_of_string.
  rewrite bool_decide_false by lia. by rewrite bool_decide_false by lia.
Qed.

Lemma draw_maze_short_row_witness :
  ∃ m calls, Maze_init ["###"; "##"]%string = Ok m
    ∧ draw_maze m no_solver = (calls, Raise IndexError)
    ∧ Flip ∉ calls.
Proof.
  apply (draw_maze_short_row ["###"; "##"]%string "###" "##" 1 no_solver).
  - reflexivity.
  - reflexivity.
  - simpl. lia.
Defined.
